(** * cention-sany/mime: quoted-printable reader, UTF-8 rejoiner, media types

    A shallow embedding of the Go sources
    - [quotedprintable/reader.go]  (the reader that keeps a [prev]/[last]
      look-ahead for escapes cut by the line buffer),
    - [quotedprintable/qputf8.go]  (the UTF-8 rejoiner [qpUTF8]),
    - [mediatype.go]               ([FormatMediaType], [ParseMediaType]),
    and the properties of them that the specification states.

    Bytes are integers ([Z], 0..255), Go slices are lists, Go strings of the
    [mime] package are [string]s, Go maps are [gmap]s. *)

From Stdlib Require Import ZArith Lia Bool Ascii String.
From stdpp Require Import base list strings gmap sorting pretty.

Local Open Scope Z_scope.

(** ** Go string literals as byte lists *)

Definition byte_of_ascii (c : ascii) : Z := Z.of_N (N_of_ascii c).

Definition hexval (c : ascii) : Z :=
  let n := byte_of_ascii c in
  if (48 <=? n) && (n <=? 57) then n - 48
  else if (65 <=? n) && (n <=? 70) then n - 55
  else if (97 <=? n) && (n <=? 102) then n - 87
  else 0.

(** [B s] reads [s] as a Go interpreted string literal: the escapes
    [\n], [\r], [\t], [\\] and [\xHH] stand for one byte each. *)
Fixpoint B (s : string) : list Z :=
  match s with
  | EmptyString => []
  | String "\" (String "n" s') => 10 :: B s'
  | String "\" (String "r" s') => 13 :: B s'
  | String "\" (String "t" s') => 9 :: B s'
  | String "\" (String "\" s') => 92 :: B s'
  | String "\" (String "x" (String h (String l s'))) =>
      (16 * hexval h + hexval l) :: B s'
  | String c s' => byte_of_ascii c :: B s'
  end.

(** ** Package quotedprintable: the reader *)

Module QP.

(** The error values the reader handles.  The three first ones are the Go
    library's [io.EOF], [io.ErrUnexpectedEOF] and [bufio.ErrBufferFull];
    the others are built by [fmt.Errorf] in the source:
    - [ErrInvalidHex b]: "quotedprintable: invalid hex byte 0x%02x",
    - [ErrInvalidUnescaped b]:
        "quotedprintable: invalid unescaped byte 0x%02x in body",
    - [ErrInvalidBytesAfter s]: "quotedprintable: invalid bytes after =: %q". *)
Inductive error : Type :=
| EOF
| ErrUnexpectedEOF
| ErrBufferFull
| ErrInvalidHex (b : Z)
| ErrInvalidUnescaped (b : Z)
| ErrInvalidBytesAfter (s : list Z).

#[global] Instance error_eq_dec : EqDecision error.
Proof. solve_decision. Defined.

Definition maxQPRErr : nat := 4.
Definition maxQPBuf : nat := 3.

(** [RErr]: [errs] is the array [[maxQPRErr]error], [None] is Go's [nil]. *)
Record RErr : Type := mkRErr {
  count : nat;
  errs : list (option error);
  err : option error
}.

Definition newRErr : RErr := mkRErr 0 (replicate maxQPRErr None) None.

Definition add (q : RErr) (e : option error) : RErr :=
  match e with
  | None => q
  | Some _ =>
      if (count q =? maxQPRErr)%nat then q
      else mkRErr (S (count q)) (<[count q := e]> (errs q)) (err q)
  end.

Definition addUnrecover (q : RErr) (e : option error) : RErr :=
  match e with
  | None => q
  | Some _ => mkRErr (count q) (errs q) e
  end.

Definition getErr (q : RErr) : option error :=
  if (count q =? 0)%nat then err q
  else default None (errs q !! 0%nat).

(** The two constructors differ in the closure stored in [Fn] only. *)
Inductive selector : Type := Strict | Lenient.

(** [Reader].  [br] is the [bufio.Reader]: the bytes of the source not yet
    handed out by [ReadSlice].  [last] is a slice of the array [prev]; it is
    kept as its bounds [(lo, hi)], so that a write to [prev] shows through
    it as in Go. *)
Record Reader : Type := mkReader {
  Fn_sel : selector;
  br : list Z;
  gerr : RErr;
  rerr : option error;
  line : list Z;
  prev : list Z;
  last : nat * nat
}.

Definition getReader (sel : selector) (src : list Z) : Reader :=
  mkReader sel src newRErr None [] (replicate 4 0) (0%nat, 0%nat).

Definition NewStrictReader (src : list Z) : Reader := getReader Strict src.
Definition NewReader (src : list Z) : Reader := getReader Lenient src.

Definition Fn (r : Reader) : option error :=
  match Fn_sel r with
  | Strict => getErr (gerr r)
  | Lenient => err (gerr r)
  end.

Definition fromHex (b : Z) : Z + error :=
  if (48 <=? b) && (b <=? 57) then inl (b - 48)
  else if (65 <=? b) && (b <=? 70) then inl (b - 65 + 10)
  else if (97 <=? b) && (b <=? 102) then inl (b - 97 + 10)
  else inr (ErrInvalidHex b).

Definition readHexByte (v : list Z) : Z + error :=
  match v with
  | v0 :: v1 :: _ =>
      match fromHex v0 with
      | inr e => inr e
      | inl hb =>
          match fromHex v1 with
          | inr e => inr e
          | inl lb => inl (Z.lor (Z.shiftl hb 4 mod 256) lb)
          end
      end
  | _ => inr ErrUnexpectedEOF
  end.

Definition isQPDiscardWhitespace (r : Z) : bool :=
  (r =? 10) || (r =? 13) || (r =? 32) || (r =? 9).

Definition crlf : list Z := [13; 10].
Definition lf : list Z := [10].
Definition softSuffix : list Z := [61].

(** [bytes.HasPrefix], [bytes.HasSuffix], [bytes.TrimRightFunc]. *)
Fixpoint HasPrefix (s p : list Z) : bool :=
  match p, s with
  | [], _ => true
  | x :: p', y :: s' => (x =? y) && HasPrefix s' p'
  | _ :: _, [] => false
  end.

Definition HasSuffix (s p : list Z) : bool := HasPrefix (rev s) (rev p).

Fixpoint TrimRightFunc (s : list Z) (f : Z -> bool) : list Z :=
  match s with
  | [] => []
  | b :: s' =>
      match TrimRightFunc s' f with
      | [] => if f b then [] else [b]
      | t => b :: t
      end
  end.

(** [bufio.Reader.ReadSlice('\n')] on a reader made by [bufio.NewReader]
    (buffer of 4096 bytes) over an in-memory source: the line up to and
    including the first ['\n'] when it lies in the buffer; the full buffer
    with [ErrBufferFull] when the buffer holds no ['\n']; the rest of the
    source with [io.EOF] when the source ends first. *)
Definition bufSize : nat := Z.to_nat 4096.

Fixpoint spanLF (s : list Z) : list Z * list Z * bool :=
  match s with
  | [] => ([], [], false)
  | b :: s' =>
      if b =? 10 then ([b], s', true)
      else let '(l, r, found) := spanLF s' in (b :: l, r, found)
  end.

Definition ReadSlice (s : list Z) : list Z * option error * list Z :=
  let '(l, r, found) := spanLF s in
  if found && (length l <=? bufSize)%nat then (l, None, r)
  else if (bufSize <=? length l)%nat
       then (take bufSize s, Some ErrBufferFull, drop bufSize s)
       else (l, Some EOF, r).

Definition set_line (r : Reader) (l : list Z) : Reader :=
  mkReader (Fn_sel r) (br r) (gerr r) (rerr r) l (prev r) (last r).
Definition set_last (r : Reader) (l : nat * nat) : Reader :=
  mkReader (Fn_sel r) (br r) (gerr r) (rerr r) (line r) (prev r) l.
Definition set_prev (r : Reader) (p : list Z) : Reader :=
  mkReader (Fn_sel r) (br r) (gerr r) (rerr r) (line r) p (last r).
Definition set_gerr (r : Reader) (g : RErr) : Reader :=
  mkReader (Fn_sel r) (br r) g (rerr r) (line r) (prev r) (last r).
Definition set_rerr (r : Reader) (e : option error) : Reader :=
  mkReader (Fn_sel r) (br r) (gerr r) e (line r) (prev r) (last r).
Definition set_br (r : Reader) (s : list Z) : Reader :=
  mkReader (Fn_sel r) s (gerr r) (rerr r) (line r) (prev r) (last r).

Definition lastLen (r : Reader) : nat := (snd (last r) - fst (last r))%nat.
Definition lastAt (r : Reader) (i : nat) : Z :=
  default 0 (prev r !! (fst (last r) + i)%nat).
(** [r.last[k:]] *)
Definition lastFrom (r : Reader) (k : nat) : nat * nat :=
  ((fst (last r) + k)%nat, snd (last r)).
Definition lastBytes (r : Reader) : list Z :=
  take (lastLen r) (drop (fst (last r)) (prev r)).

(** What is done to a line taken whole from the source (the part of
    [if len(r.line) == 0 { ... }] after [ReadSlice]): the line to decode,
    and the error of a soft line break followed by something else than
    an end of line. *)
Definition prepare (wholeLine : list Z) : list Z * option error :=
  let hasLF := HasSuffix wholeLine lf in
  let hasCR := HasSuffix wholeLine crlf in
  let t := TrimRightFunc wholeLine isQPDiscardWhitespace in
  if HasSuffix t softSuffix then
    let rightStripped := drop (length t) wholeLine in
    let t' := take (length t - 1) t in
    if negb (HasPrefix rightStripped lf) && negb (HasPrefix rightStripped crlf)
    then (t', Some (ErrInvalidBytesAfter rightStripped))
    else (t', None)
  else if hasLF then
    if hasCR then (t ++ [13; 10], None) else (t ++ [10], None)
  else (t, None).

(** The body of [if len(r.line) == 0 { ... }] after the test of [r.Fn()]:
    one line is taken from the source and prepared. *)
Definition acquire (r : Reader) : Reader :=
  let '(l, e, rest) := ReadSlice (br r) in
  match e with
  | Some ErrBufferFull =>
      mkReader (Fn_sel r) rest (add (gerr r) e) e l (prev r) (last r)
  | _ =>
      let g := addUnrecover (gerr r) e in
      match prepare l with
      | (l', Some e') =>
          mkReader (Fn_sel r) rest (add g (Some e')) (Some e') l' (prev r) (last r)
      | (l', None) => mkReader (Fn_sel r) rest g e l' (prev r) (last r)
      end
  end.

(** What one turn of the loop [for len(p) > 0] does. *)
Inductive outcome : Type :=
| Return (e : error)          (* [r.Fn()] is not nil: eject and return *)
| Continue (r : Reader)       (* [continue]: nothing written to [p] *)
| Emit (b : Z) (r : Reader)   (* [p[0] = b; p = p[1:]; n++] *)
| Panic.                      (* index out of range *)

(** The [switch] on [r.line[0]] and what follows it. *)
Definition scan (r : Reader) : outcome :=
  match line r with
  | [] => Panic
  | b :: rest =>
      if b =? 61 then
        match readHexByte rest with
        | inr e =>
            if match e, rerr r with
               | ErrUnexpectedEOF, Some ErrBufferFull => true
               | _, _ => false
               end
            then
              let n := length (line r) in
              let p := foldl (fun p i => <[i := default 0 (line r !! i)]> p)
                             (prev r) (seq 0 n) in
              let r' := mkReader (Fn_sel r) (br r) (gerr r) (rerr r) []
                                 p (0%nat, n) in
              if (0 <? lastLen r')%nat then Continue r'
              else match line r' with
                   | [] => Panic
                   | _ :: l' => Emit b (set_line r' l')
                   end
            else
              let r' := set_gerr r (add (gerr r) (Some e)) in
              if (0 <? lastLen r')%nat then Continue r'
              else Emit 61 (set_line r' rest)
        | inl v =>
            let r' := set_line r (drop 2 (line r)) in
            if (0 <? lastLen r')%nat then Continue r'
            else match line r' with
                 | [] => Panic
                 | _ :: l' => Emit v (set_line r' l')
                 end
        end
      else if (b =? 9) || (b =? 13) || (b =? 10) then
        if (0 <? lastLen r)%nat then Continue r else Emit b (set_line r rest)
      else if (b <? 32) || (126 <? b) then
        let r' := set_gerr r (add (gerr r) (Some (ErrInvalidUnescaped b))) in
        if (0 <? lastLen r')%nat then Continue r' else Emit b (set_line r' rest)
      else
        if (0 <? lastLen r)%nat then Continue r else Emit b (set_line r rest)
  end.

(** The loop [for i := 0; i < diff; i++ { r.prev[lastNum+i] = r.line[0];
    r.line = r.line[1:] }]. *)
Fixpoint fill (diff : nat) (at_ : nat) (r : Reader) : option Reader :=
  match diff with
  | O => Some r
  | S d =>
      match line r with
      | [] => None
      | x :: l' =>
          if (at_ <? length (prev r))%nat
          then fill d (S at_) (set_line (set_prev r (<[at_ := x]> (prev r))) l')
          else None
      end
  end.

(** The block [if lastNum > 0 { ... }]. *)
Definition straddle (r : Reader) : outcome :=
  let lastNum := lastLen r in
  let b := lastAt r 0 in
  let finish (b : Z) (r : Reader) : outcome :=
    if (0 <? lastLen r)%nat then Emit b (set_last r (lastFrom r 1))
    else scan r in
  if b =? 61 then
    let decode (r : Reader) : outcome :=
      if (0 <? lastLen r)%nat then
        match fill (maxQPBuf - lastNum) lastNum r with
        | None => Panic
        | Some r1 =>
            let r2 := set_last r1 (0%nat, maxQPBuf) in
            match readHexByte (drop 1 (lastBytes r2)) with
            | inr e => finish 61 (set_gerr r2 (add (gerr r2) (Some e)))
            | inl v => finish v (set_last r2 (lastFrom r2 2))
            end
        end
      else finish b r in
    if (lastNum =? 1)%nat then
      if HasPrefix (line r) lf then
        let r1 := set_last (set_line r (drop (length lf) (line r))) (0%nat, 0%nat) in
        match line r1 with
        | [] => Continue r1                  (* len(r.line) == 0 *)
        | _ :: _ => decode r1
        end
      else if HasPrefix (line r) crlf then
        let r1 := set_last (set_line r (drop (length crlf) (line r))) (0%nat, 0%nat) in
        match line r1 with
        | [] => Continue r1
        | _ :: _ => decode r1
        end
      else
        match line r with
        | [] => Panic
        | [x] =>                             (* len(r.line) < 2 *)
            Continue (set_last (set_line (set_prev r (<[1%nat := x]> (prev r))) [])
                               (0%nat, 2%nat))
        | _ :: _ :: _ => decode r
        end
    else decode r
  else finish b r.

Definition step (r : Reader) : outcome :=
  match line r with
  | [] =>                                   (* len(r.line) == 0 *)
      match Fn r with
      | Some e => Return e
      | None => Continue (acquire r)
      end
  | _ :: _ =>
      if (0 <? lastLen r)%nat then straddle r else scan r
  end.

(** [for len(r.last) > 0 && len(p) > 0 { p[0] = r.last[0]; ... }] *)
Fixpoint eject (m : nat) (r : Reader) : list Z * Reader :=
  match m with
  | O => ([], r)
  | S m' =>
      if (0 <? lastLen r)%nat then
        let '(out, r') := eject m' (set_last r (lastFrom r 1)) in
        (lastAt r 0 :: out, r')
      else ([], r)
  end.

(** [Read] with [len(p) = m]: the bytes written to [p], the error returned
    and the reader afterwards.  [None]: the Go code panics, or [fuel] turns
    of the loop were not enough. *)
Fixpoint Read_loop (fuel : nat) (r : Reader) (m : nat)
  : option (list Z * option error * Reader) :=
  match m with
  | O => Some ([], None, r)
  | S m' =>
      match fuel with
      | O => None
      | S fuel' =>
          match step r with
          | Return e => let '(out, r') := eject m r in Some (out, Some e, r')
          | Continue r' => Read_loop fuel' r' m
          | Emit b r' =>
              match Read_loop fuel' r' m' with
              | Some (out, e, r'') => Some (b :: out, e, r'')
              | None => None
              end
          | Panic => None
          end
      end
  end.

(** Every turn of the loop writes a byte or uses up input; this many turns
    are enough (see [Read_drain]). *)
Definition turns (r : Reader) (m : nat) : nat :=
  (2 * length (br r) + length (line r) + m + 2)%nat.

Definition Read (r : Reader) (m : nat) : option (list Z * option error * Reader) :=
  Read_loop (turns r m) r m.

End QP.

Module QPCopy.
Import QP.

(** [io.Copy(&buf, r)] seen from the reader: [Read] is called until it
    returns an error, the [i]-th call with a buffer of [S (sz i)] bytes;
    [io.EOF] ends the copy without error. *)
Fixpoint Copy_loop (n : nat) (sz : nat -> nat) (i : nat) (r : Reader)
  : option (list Z * option error) :=
  match n with
  | O => None
  | S n' =>
      match Read r (S (sz i)) with
      | None => None
      | Some (out, Some e, _) =>
          Some (out, match e with EOF => None | _ => Some e end)
      | Some (out, None, r') =>
          match Copy_loop n' sz (S i) r' with
          | Some (out', e) => Some (out ++ out', e)
          | None => None
          end
      end
  end.

Definition Copy (sz : nat -> nat) (r : Reader) : option (list Z * option error) :=
  Copy_loop (length (br r) + length (line r) + lastLen r + 2) sz 0%nat r.

End QPCopy.

(** ** Package quotedprintable: the UTF-8 rejoiner [qpUTF8] *)

Module UTF8.

Definition error := QP.error.

Inductive st : Type :=
| stNormal | stStart | st0x0D | st0x0A | st0x10XXXXXX | stRelease
| stReleaseRestart.

#[global] Instance st_eq_dec : EqDecision st.
Proof. solve_decision. Defined.

Definition UTFMax : nat := 4.

Section Rejoiner.

(** The upstream [io.Reader]: [rd r k] is [r.Read(b)] with [len(b) = k]; it
    gives the bytes read, the error and the reader afterwards. *)
Context {R : Type}.
Variable rd : R -> nat -> list Z * option error * R.

(** [own] and [buf] are the arrays [[6]byte] and [[512]byte]. *)
Record qpUTF8 : Type := mkQ {
  r : R;
  state : st;
  pos : nat;
  pco : nat;
  cco : nat;
  own : list Z;
  pcb : nat;
  ccb : nat;
  buf : list Z;
  last : Z;
  err : option error
}.

Definition newQPUTF8 (r : R) : qpUTF8 :=
  mkQ r stNormal 0 0 0 (replicate 6 0) 0 0 (replicate 512 0) 0 None.

Definition set_state (q : qpUTF8) (s : st) : qpUTF8 :=
  mkQ (r q) s (pos q) (pco q) (cco q) (own q) (pcb q) (ccb q) (buf q) (last q) (err q).
Definition set_pos (q : qpUTF8) (n : nat) : qpUTF8 :=
  mkQ (r q) (state q) n (pco q) (cco q) (own q) (pcb q) (ccb q) (buf q) (last q) (err q).
Definition set_pco (q : qpUTF8) (n : nat) : qpUTF8 :=
  mkQ (r q) (state q) (pos q) n (cco q) (own q) (pcb q) (ccb q) (buf q) (last q) (err q).
Definition set_cco (q : qpUTF8) (n : nat) : qpUTF8 :=
  mkQ (r q) (state q) (pos q) (pco q) n (own q) (pcb q) (ccb q) (buf q) (last q) (err q).
Definition set_last (q : qpUTF8) (b : Z) : qpUTF8 :=
  mkQ (r q) (state q) (pos q) (pco q) (cco q) (own q) (pcb q) (ccb q) (buf q) b (err q).
Definition set_pcb_ccb (q : qpUTF8) (n m : nat) : qpUTF8 :=
  mkQ (r q) (state q) (pos q) (pco q) (cco q) (own q) n m (buf q) (last q) (err q).

(** [q.own[i] = b]; [None] is the panic of an index out of range. *)
Definition set_own (q : qpUTF8) (i : nat) (b : Z) : option qpUTF8 :=
  if (i <? length (own q))%nat then
    Some (mkQ (r q) (state q) (pos q) (pco q) (cco q) (<[i := b]> (own q))
              (pcb q) (ccb q) (buf q) (last q) (err q))
  else None.

(** [q.own[q.pco] = b; q.pco++] *)
Definition push_own (q : qpUTF8) (b : Z) : option qpUTF8 :=
  match set_own q (pco q) b with
  | Some q' => Some (set_pco q' (S (pco q)))
  | None => None
  end.

(** The caller's buffer [p] is kept as the bytes written so far, [out]:
    [*count = length out], and [p[*count] = b] panics when [*count >= max]. *)
Definition put (out : list Z) (max : nat) (b : Z) : option (list Z) :=
  if (length out <? max)%nat then Some (out ++ [b]) else None.

(** [release]: the loop runs once for each byte of [own[cco:pco]], then
    resets. *)
Fixpoint release_loop (n : nat) (q : qpUTF8) (out : list Z) (max : nat)
    (restart : bool) : option (bool * qpUTF8 * list Z) :=
  match n with
  | O =>                                     (* q.cco >= q.pco: reset *)
      let q1 := set_cco q 0 in
      if restart then
        match set_own q1 0 (last q1) with
        | Some q2 => Some (true, set_state (set_pco q2 1) stStart, out)
        | None => None
        end
      else Some (true, set_state (set_pco q1 0) stNormal, out)
  | S n' =>                                  (* q.cco < q.pco *)
      match own q !! cco q with
      | None => None
      | Some b =>
          match put out max b with
          | None => None
          | Some out' =>
              let q' := set_cco q (S (cco q)) in
              if (max <=? length out')%nat then Some (false, q', out')
              else release_loop n' q' out' max restart
          end
      end
  end.

Definition release (q : qpUTF8) (out : list Z) (max : nat) (restart : bool)
  : option (bool * qpUTF8 * list Z) :=
  release_loop (pco q - cco q) q out max restart.

Definition c0mask (b : Z) : Z := Z.land b 192.

(** The [switch q.state] of [cycle] on the byte [b].  [inl]: the case
    [stNormal] wrote the last free byte of [p] ([cycle] returns false). *)
Definition switch (q : qpUTF8) (b : Z) (out : list Z) (max : nat)
  : option ((qpUTF8 * list Z) + (qpUTF8 * list Z)) :=
  match state q with
  | stNormal =>
      if c0mask b =? 192 then
        match set_own (set_state q stStart) 0 b with
        | Some q' => Some (inr (set_pco q' 1, out))
        | None => None
        end
      else
        match put out max b with
        | None => None
        | Some out' =>
            if (max <=? length out')%nat then Some (inl (q, out'))
            else Some (inr (q, out'))
        end
  | stStart =>
      if c0mask b =? 192 then
        Some (inr (set_state (set_last q b) stReleaseRestart, out))
      else
        let currentPos := pco q in
        match push_own q b with
        | None => None
        | Some q' =>
            if b =? 13 then Some (inr (set_state (set_pos q' currentPos) st0x0D, out))
            else if b =? 10 then Some (inr (set_state (set_pos q' currentPos) st0x0A, out))
            else if negb (c0mask b =? 128) || (UTFMax <=? pco q')%nat
                 then Some (inr (set_state q' stRelease, out))
                 else Some (inr (q', out))
        end
  | st0x0D =>
      if c0mask b =? 192 then
        Some (inr (set_state (set_last q b) stReleaseRestart, out))
      else
        match push_own q b with
        | None => None
        | Some q' =>
            if b =? 10 then Some (inr (set_state q' st0x0A, out))
            else Some (inr (set_state q' stRelease, out))
        end
  | st0x0A =>
      if c0mask b =? 192 then
        Some (inr (set_state (set_last q b) stReleaseRestart, out))
      else if c0mask b =? 128 then
        match set_own q (pos q) b with
        | None => None
        | Some q' => Some (inr (set_state (set_pco q' (pos q + 1)) st0x10XXXXXX, out))
        end
      else
        match push_own q b with
        | None => None
        | Some q' => Some (inr (set_state q' stRelease, out))
        end
  | st0x10XXXXXX =>
      if c0mask b =? 192 then
        Some (inr (set_state (set_last q b) stReleaseRestart, out))
      else
        match push_own q b with
        | None => None
        | Some q' =>
            if negb (c0mask b =? 128) || (pco q' =? 6)%nat
            then Some (inr (set_state q' stRelease, out))
            else Some (inr (q', out))
        end
  | stRelease | stReleaseRestart => Some (inr (q, out))
  end.

(** [cycle]: [bs] are the bytes [q.buf[i:n]] still to go. *)
Fixpoint cycle_loop (bs : list Z) (i n : nat) (q : qpUTF8) (out : list Z)
    (max : nat) : option (bool * qpUTF8 * list Z) :=
  match bs with
  | [] => Some (true, q, out)
  | b :: bs' =>
      match switch q b out max with
      | None => None
      | Some (inl (q', out')) => Some (false, set_pcb_ccb q' n (i + 1), out')
      | Some (inr (q', out')) =>
          let isReleaseRestart := bool_decide (state q' = stReleaseRestart) in
          if isReleaseRestart || bool_decide (state q' = stRelease) then
            match release q' out' max isReleaseRestart with
            | None => None
            | Some (false, q'', out'') =>
                Some (false, set_pcb_ccb q'' n (i + 1), out'')
            | Some (true, q'', out'') => cycle_loop bs' (S i) n q'' out'' max
            end
          else cycle_loop bs' (S i) n q' out' max
      end
  end.

Definition cycle (q : qpUTF8) (out : list Z) (start n max : nat)
  : option (bool * qpUTF8 * list Z) :=
  if (length (buf q) <? n)%nat then None
  else cycle_loop (take (n - start) (drop start (buf q))) start n q out max.

(** [Read] with [len(p) = max]: the bytes written, the error returned and
    the rejoiner afterwards; [None] when the Go code panics. *)
Definition Read (q : qpUTF8) (max : nat) : option (list Z * option error * qpUTF8) :=
  match (if (ccb q <? pcb q)%nat then cycle q [] (ccb q) (pcb q) max
         else Some (true, q, [])) with
  | None => None
  | Some (false, q1, out1) => Some (out1, None, q1)
  | Some (true, q1, out1) =>
      match err q1 with
      | Some e =>
          if bool_decide (state q1 = st0x10XXXXXX)
             || (bool_decide (state q1 = stStart) && (1 <? pco q1 - cco q1)%nat)
          then
            match release q1 out1 max false with
            | None => None
            | Some (_, q2, out2) => Some (out2, Some e, q2)
            end
          else Some (out1, Some e, q1)
      | None =>
          let allowedReadSize :=
            (Z.of_nat max - Z.of_nat (length out1))
            - (Z.of_nat (pco q1) - Z.of_nat (cco q1)) in
          let '(d, e, r') :=
            if 0 <? allowedReadSize then
              if 512 <? allowedReadSize then rd (r q1) 512
              else rd (r q1) (Z.to_nat allowedReadSize)
            else ([], None, r q1) in
          let q2 := mkQ r' (state q1) (pos q1) (pco q1) (cco q1) (own q1)
                        (pcb q1) (ccb q1) (d ++ drop (length d) (buf q1))
                        (last q1) e in
          match cycle q2 out1 0 (length d) max with
          | None => None
          | Some (true, q3, out3) =>
              let q4 := set_pcb_ccb q3 0 0 in
              if (pco q4 <=? cco q4)%nat then Some (out3, err q4, q4)
              else Some (out3, None, q4)
          | Some (false, q3, out3) => Some (out3, None, q3)
          end
      end
  end.

(** A caller: [Read] is called once for each buffer length of [sched]; the
    bytes written are put together. *)
Fixpoint run (sched : list nat) (q : qpUTF8) : option (list Z * qpUTF8) :=
  match sched with
  | [] => Some ([], q)
  | m :: sched' =>
      match Read q m with
      | None => None
      | Some (out, _, q') =>
          match run sched' q' with
          | None => None
          | Some (out', q'') => Some (out ++ out', q'')
          end
      end
  end.

(** [ioutil.ReadAll]: [Read] is called until it returns an error, here
    with [len(p) = m] each time and at most [n] times. *)
Fixpoint ReadAll (n : nat) (m : nat) (q : qpUTF8) : option (list Z * option error) :=
  match n with
  | O => None
  | S n' =>
      match Read q m with
      | None => None
      | Some (out, Some e, _) =>
          Some (out, match e with QP.EOF => None | _ => Some e end)
      | Some (out, None, q') =>
          match ReadAll n' m q' with
          | Some (out', e) => Some (out ++ out', e)
          | None => None
          end
      end
  end.

End Rejoiner.

(** [strings.NewReader(s)] as upstream: the bytes left. *)
Definition stringsRead (s : list Z) (k : nat) : list Z * option error * list Z :=
  match s with
  | [] => ([], Some QP.EOF, [])
  | _ :: _ => (take k s, None, drop k s)
  end.

End UTF8.

(** ** Package mime: media types *)

Module Mime.

Local Open Scope string_scope.
Local Open Scope Z_scope.

Definition ascii_of_byte (z : Z) : ascii := ascii_of_N (Z.to_N z).

(** The double quote, as a byte and as a string. *)
Definition dquote : ascii := ascii_of_byte 34.
Definition DQ : string := String dquote EmptyString.

(** *** The Go library functions the source calls *)

Definition RuneError : Z := 65533.

(** [utf8.DecodeRuneInString]: the rune at the head of [s] and its width in
    bytes; a byte that starts no well-formed encoding is [RuneError] of
    width 1. *)
Definition DecodeRuneInString (s : string) : Z * nat :=
  match s with
  | EmptyString => (RuneError, 0%nat)
  | String c0 t =>
      let s0 := byte_of_ascii c0 in
      if s0 <? 128 then (s0, 1%nat)
      else if (s0 <? 194) || (244 <? s0) then (RuneError, 1%nat)
      else
        let sz := if s0 <? 224 then 2%nat else if s0 <? 240 then 3%nat else 4%nat in
        let lo := if s0 =? 224 then 160 else if s0 =? 240 then 144 else 128 in
        let hi := if s0 =? 237 then 159 else if s0 =? 244 then 143 else 191 in
        if (String.length s <? sz)%nat then (RuneError, 1%nat)
        else
          match t with
          | EmptyString => (RuneError, 1%nat)
          | String c1 t1 =>
              let s1 := byte_of_ascii c1 in
              if (s1 <? lo) || (hi <? s1) then (RuneError, 1%nat)
              else if (sz <=? 2)%nat then
                (Z.lor (Z.shiftl (Z.land s0 31) 6) (Z.land s1 63), 2%nat)
              else
                match t1 with
                | EmptyString => (RuneError, 1%nat)
                | String c2 t2 =>
                    let s2 := byte_of_ascii c2 in
                    if (s2 <? 128) || (191 <? s2) then (RuneError, 1%nat)
                    else if (sz <=? 3)%nat then
                      (Z.lor (Z.lor (Z.shiftl (Z.land s0 15) 12)
                                    (Z.shiftl (Z.land s1 63) 6))
                             (Z.land s2 63), 3%nat)
                    else
                      match t2 with
                      | EmptyString => (RuneError, 1%nat)
                      | String c3 _ =>
                          let s3 := byte_of_ascii c3 in
                          if (s3 <? 128) || (191 <? s3) then (RuneError, 1%nat)
                          else
                            (Z.lor (Z.lor (Z.lor (Z.shiftl (Z.land s0 7) 18)
                                                 (Z.shiftl (Z.land s1 63) 12))
                                          (Z.shiftl (Z.land s2 63) 6))
                                   (Z.land s3 63), 4%nat)
                      end
                end
          end
  end.

(** [bytes.Buffer.WriteRune]: the UTF-8 encoding of [r]. *)
Definition EncodeRune (r : Z) : string :=
  let b (z : Z) := ascii_of_byte z in
  if r <=? 127 then String (b r) EmptyString
  else if r <=? 2047 then
    String (b (Z.lor 192 (Z.shiftr r 6)))
      (String (b (Z.lor 128 (Z.land r 63))) EmptyString)
  else
    let r := if (1114111 <? r) || ((55296 <=? r) && (r <=? 57343))
             then RuneError else r in
    if r <=? 65535 then
      String (b (Z.lor 224 (Z.shiftr r 12)))
        (String (b (Z.lor 128 (Z.land (Z.shiftr r 6) 63)))
           (String (b (Z.lor 128 (Z.land r 63))) EmptyString))
    else
      String (b (Z.lor 240 (Z.shiftr r 18)))
        (String (b (Z.lor 128 (Z.land (Z.shiftr r 12) 63)))
           (String (b (Z.lor 128 (Z.land (Z.shiftr r 6) 63)))
              (String (b (Z.lor 128 (Z.land r 63))) EmptyString))).

(** [unicode.IsSpace] *)
Definition IsSpace (r : Z) : bool :=
  if r <=? 255 then
    ((9 <=? r) && (r <=? 13)) || (r =? 32) || (r =? 133) || (r =? 160)
  else
    (r =? 5760) || ((8192 <=? r) && (r <=? 8202)) || (r =? 8232) || (r =? 8233)
    || (r =? 8239) || (r =? 8287) || (r =? 12288).

(** The runes of a string with the bytes of each, as [for _, r := range s]
    walks them; [skip] counts the bytes of the current rune still to pass. *)
Fixpoint runes_from (s : string) (skip : nat) {struct s} : list (Z * string) :=
  match s with
  | EmptyString => []
  | String _ t =>
      match skip with
      | S k => runes_from t k
      | O =>
          let '(r, w) := DecodeRuneInString s in
          (r, substring 0 w s) :: runes_from t (w - 1)
      end
  end.

Definition runes (s : string) : list (Z * string) := runes_from s 0.

Definition unrunes (l : list (Z * string)) : string :=
  foldr (fun x acc => snd x +:+ acc) EmptyString l.

Fixpoint dropSpaces (l : list (Z * string)) : list (Z * string) :=
  match l with
  | [] => []
  | x :: l' => if IsSpace (fst x) then dropSpaces l' else l
  end.

(** [strings.TrimLeftFunc(s, unicode.IsSpace)] and [strings.TrimSpace]. *)
Definition TrimLeftSpace (s : string) : string := unrunes (dropSpaces (runes s)).

Definition TrimSpace (s : string) : string :=
  unrunes (rev (dropSpaces (rev (dropSpaces (runes s))))).

(** [strings.ToLower] on the ASCII letters; the other bytes are kept (the
    Unicode case tables are not part of the model: the strings lowered
    below are ASCII, where this is what Go does). *)
Definition lowerByte (c : ascii) : ascii :=
  let n := byte_of_ascii c in
  if (65 <=? n) && (n <=? 90) then ascii_of_byte (n + 32) else c.

Fixpoint ToLower (s : string) : string :=
  match s with
  | EmptyString => EmptyString
  | String c t => String (lowerByte c) (ToLower t)
  end.

(** [strings.Index(s, sep)] for a separator of one byte; [None] is -1. *)
Fixpoint Index (s : string) (sep : ascii) : option nat :=
  match s with
  | EmptyString => None
  | String c t =>
      if Ascii.eqb c sep then Some 0%nat
      else match Index t sep with Some i => Some (S i) | None => None end
  end.

Definition HasPrefix (s : string) (p : string) : bool := String.prefix p s.

(** [s[i:]] and [s[:i]] *)
Definition from (i : nat) (s : string) : string := substring i (String.length s - i) s.
Definition upto (i : nat) (s : string) : string := substring 0 i s.

(** [sort.Strings]: byte-wise order. *)
Definition sortStrings (l : list string) : list string := merge_sort String.le l.

(** [fmt.Sprintf("%d", n)] *)
Definition decimal (n : nat) : string := pretty n.

(** *** grammar.go *)

(** Modelled from the spec: [isTSpecial], [isTokenChar] and [isToken] are
    in a file of the package that is not among the sources; the
    specification gives the token of RFC 2045 as a non-empty string of
    printable ASCII bytes other than space, controls and the fifteen
    characters ( ) < > @ , ; : backslash, double quote, / [ ] ? and =. *)
Definition isTSpecial (r : Z) : bool :=
  existsb (Z.eqb r) [40; 41; 60; 62; 64; 44; 59; 58; 92; 34; 47; 91; 93; 63; 61].

Definition isTokenChar (r : Z) : bool :=
  (32 <? r) && (r <? 127) && negb (isTSpecial r).

Definition isNotTokenChar (r : Z) : bool := negb (isTokenChar r).

(** [strings.IndexFunc(s, isNotTokenChar)]: a byte that is no token
    character starts a rune that is none, and the bytes before it are
    ASCII, so the index is that of the first such byte. *)
Fixpoint IndexNotToken (s : string) : option nat :=
  match s with
  | EmptyString => None
  | String c t =>
      if isNotTokenChar (byte_of_ascii c) then Some 0%nat
      else match IndexNotToken t with Some i => Some (S i) | None => None end
  end.

Definition isToken (s : string) : bool :=
  match s with
  | EmptyString => false
  | _ => match IndexNotToken s with None => true | Some _ => false end
  end.

(** *** mediatype.go *)

Inductive merror : Type :=
| mimeNoMediaType          (* "mime: no media type" *)
| mimeNoSlash              (* "mime: expected slash after first token" *)
| mimeTokenSlash           (* "mime: expected token after slash" *)
| mimeUnexpectedContent    (* "mime: unexpected content after media subtype" *)
| mimeInvalidParam         (* "mime: invalid media parameter" *)
| mimeDuplicateParam.      (* "mime: duplicate parameter name" *)

#[global] Instance merror_eq_dec : EqDecision merror.
Proof. solve_decision. Defined.

Record PMTErr : Type := mkPMTErr { errs : list merror; bad : bool }.

#[global] Instance PMTErr_eq_dec : EqDecision PMTErr.
Proof. solve_decision. Defined.

Definition add (p : PMTErr) (e : merror) : PMTErr := mkPMTErr (errs p ++ [e]) (bad p).
Definition addUnrecover (p : PMTErr) (e : merror) : PMTErr := mkPMTErr (errs p ++ [e]) true.

(** A Go [error] returned by the package: one of the error values, or the
    [*PMTErr]. *)
Inductive goerror : Type :=
| Plain (e : merror)
| Merged (p : PMTErr).

#[global] Instance goerror_eq_dec : EqDecision goerror.
Proof. solve_decision. Defined.

Definition getErr (p : PMTErr) : option goerror :=
  match errs p with [] => None | _ => Some (Merged p) end.

Definition IsOkPMTError (e : option goerror) : option goerror :=
  match e with
  | None => None
  | Some (Merged p) => if negb (bad p) then None else e
  | Some (Plain _) => e
  end.

Definition consumeToken (v : string) : string * string :=
  match IndexNotToken v with
  | None => (v, EmptyString)
  | Some O => (EmptyString, v)
  | Some notPos => (upto notPos v, from notPos v)
  end.

(** The quoted-string loop of [consumeValue]: [rs] are the runes of [rest]
    from byte [idx] on, [buffer] what was written. *)
Fixpoint consumeQuoted (v rest : string) (rs : list (Z * string)) (idx : nat)
    (buffer : string) (nextIsLiteral : bool) : string * string :=
  match rs with
  | [] => (EmptyString, v)
  | (r, bytes) :: rs' =>
      let idx' := (idx + String.length bytes)%nat in
      if nextIsLiteral then
        consumeQuoted v rest rs' idx' (buffer +:+ EncodeRune r) false
      else if r =? 34 then (buffer, from (idx + 1) rest)
      else if r =? 92 then consumeQuoted v rest rs' idx' buffer true
      else if negb (r =? 13) && negb (r =? 10) then
        consumeQuoted v rest rs' idx' (buffer +:+ EncodeRune r) false
      else (EmptyString, v)
  end.

Definition consumeValue (v : string) : string * string :=
  match v with
  | EmptyString => (EmptyString, EmptyString)
  | String c _ =>
      if negb (Ascii.eqb c dquote) then consumeToken v
      else
        let rest := from 1 v in
        consumeQuoted v rest (runes rest) 0 EmptyString false
  end.

Definition consumeMediaParam (v : string) : string * string * string :=
  let rest := TrimLeftSpace v in
  if negb (HasPrefix rest ";") then (EmptyString, EmptyString, v)
  else
    let rest := from 1 rest in
    let rest := TrimLeftSpace rest in
    let '(param, rest) := consumeToken rest in
    let param := ToLower param in
    if String.eqb param EmptyString then (EmptyString, EmptyString, v)
    else
      let rest := TrimLeftSpace rest in
      if negb (HasPrefix rest "=") then (EmptyString, EmptyString, v)
      else
        let rest := from 1 rest in
        let rest := TrimLeftSpace rest in
        let '(value, rest) := consumeValue rest in
        if String.eqb value EmptyString then (EmptyString, EmptyString, v)
        else (param, value, rest).

Definition ishex (c : Z) : bool :=
  ((48 <=? c) && (c <=? 57)) || ((97 <=? c) && (c <=? 102))
  || ((65 <=? c) && (c <=? 70)).

Definition unhex (c : Z) : Z :=
  if (48 <=? c) && (c <=? 57) then c - 48
  else if (97 <=? c) && (c <=? 102) then c - 97 + 10
  else if (65 <=? c) && (c <=? 70) then c - 65 + 10
  else 0.

(** The first loop of [percentHexUnescape]: are all [%] followed by two hex
    digits?  ([skip]: bytes passed by [i += 3].) *)
Fixpoint percentsOk (s : string) (skip : nat) {struct s} : bool :=
  match s with
  | EmptyString => true
  | String c t =>
      match skip with
      | S k => percentsOk t k
      | O =>
          if Ascii.eqb c "%" then
            match t with
            | String h (String l _) =>
                if ishex (byte_of_ascii h) && ishex (byte_of_ascii l)
                then percentsOk t 2 else false
            | _ => false
            end
          else percentsOk t 0
      end
  end.

(** The second loop. *)
Fixpoint percentDecode (s : string) (skip : nat) {struct s} : string :=
  match s with
  | EmptyString => EmptyString
  | String c t =>
      match skip with
      | S k => percentDecode t k
      | O =>
          if Ascii.eqb c "%" then
            match t with
            | String h (String l _) =>
                String (ascii_of_byte
                          (Z.lor (Z.shiftl (unhex (byte_of_ascii h)) 4 mod 256)
                                 (unhex (byte_of_ascii l))))
                       (percentDecode t 2)
            | _ => EmptyString
            end
          else String c (percentDecode t 0)
      end
  end.

(** [percentHexUnescape]: [None] is the error "mime: bogus characters
    after %", returned with the empty string. *)
Definition percentHexUnescape (s : string) : string * option unit :=
  if percentsOk s 0 then (percentDecode s 0, None)
  else (EmptyString, Some tt).

(** [strings.SplitN(v, "'", 3)] when it gives three pieces. *)
Definition SplitN3 (v : string) : option (string * string * string) :=
  match Index v "'" with
  | None => None
  | Some i =>
      let v' := from (S i) v in
      match Index v' "'" with
      | None => None
      | Some j => Some (upto i v, upto j v', from (S j) v')
      end
  end.

Definition decode2231Enc (v : string) : string :=
  match SplitN3 v with
  | None => EmptyString
  | Some (sv0, _, sv2) =>
      let charset := ToLower sv0 in
      if negb (String.eqb charset "us-ascii") && negb (String.eqb charset "utf-8")
      then EmptyString
      else fst (percentHexUnescape sv2)
  end.

Definition lossyCheckMediaTypeDisposition (p : PMTErr) (s v : string)
  : PMTErr * string * option merror :=
  if String.eqb v EmptyString then
    (addUnrecover p mimeNoMediaType, EmptyString, Some mimeNoMediaType)
  else
    let '(typ, rest) := consumeToken s in
    if String.eqb typ EmptyString then
      (add p mimeNoMediaType, "unknown", Some mimeNoMediaType)
    else if String.eqb rest EmptyString then (p, typ, None)
    else if negb (HasPrefix rest "/") then
      (add p mimeNoSlash, typ +:+ "/unknown", Some mimeNoSlash)
    else
      let '(subtype, rest) := consumeToken (from 1 rest) in
      if String.eqb subtype EmptyString then
        (add p mimeTokenSlash, typ +:+ "/unknown", Some mimeTokenSlash)
      else if negb (String.eqb rest EmptyString) then
        (add p mimeUnexpectedContent, typ +:+ "/" +:+ subtype,
         Some mimeUnexpectedContent)
      else (p, s, None).

(** The state of [ParseMediaType] in its loops: [gerr_set] tells whether
    the result [gerr] holds the pointer [p]. *)
Record pstate : Type := mkP {
  params : gmap string string;
  continuation : gmap string (gmap string string);
  perr : PMTErr;
  gerr_set : bool
}.

Definition result : Type := string * option (gmap string string) * option goerror.

Definition gerr_of (s : pstate) : option goerror :=
  if gerr_set s then Some (Merged (perr s)) else None.

(** The loop [for len(v) > 0]: [inl] is a [return] from inside the loop,
    [inr] the state when the loop ends. *)
Fixpoint paramLoop (fuel : nat) (mediatype v : string) (s : pstate)
  : result + pstate :=
  match fuel with
  | O => inr s
  | S fuel' =>
      if (String.length v =? 0)%nat then inr s
      else
        let v := TrimLeftSpace v in
        if (String.length v =? 0)%nat then inr s
        else
          let '(key, value, rest) := consumeMediaParam v in
          if String.eqb key EmptyString then
            if String.eqb (TrimSpace rest) ";" then
              inl (mediatype, Some (params s), gerr_of s)
            else if negb (String.eqb mediatype EmptyString) then
              inl (mediatype, Some (params s),
                   Some (Merged (add (perr s) mimeInvalidParam)))
            else inl (EmptyString, None, Some (Plain mimeInvalidParam))
          else
            let s' :=
              match Index key "*" with
              | Some idx =>
                  let baseName := upto idx key in
                  let pmap := default ∅ (continuation s !! baseName) in
                  match pmap !! key with
                  | None =>
                      mkP (params s)
                          (<[baseName := <[key := value]> pmap]> (continuation s))
                          (perr s) (gerr_set s)
                  | Some _ =>
                      mkP (params s) (continuation s)
                          (add (perr s) mimeDuplicateParam) true
                  end
              | None =>
                  match params s !! key with
                  | None =>
                      mkP (<[key := value]> (params s)) (continuation s)
                          (perr s) (gerr_set s)
                  | Some _ =>
                      mkP (params s) (continuation s)
                          (add (perr s) mimeDuplicateParam) true
                  end
              end in
            paramLoop fuel' mediatype rest s'
      end.

(** The loop [for n := 0; ; n++] over the pieces of one name; it ends at
    the first [n] with no piece, at the latest after as many turns as
    [pieceMap] has entries. *)
Fixpoint pieces (fuel : nat) (key : string) (pieceMap : gmap string string)
    (n : nat) (buf : string) (valid : bool) : string * bool :=
  match fuel with
  | O => (buf, valid)
  | S fuel' =>
      let simplePart := key +:+ "*" +:+ decimal n in
      match pieceMap !! simplePart with
      | Some v => pieces fuel' key pieceMap (S n) (buf +:+ v) true
      | None =>
          let encodedPart := simplePart +:+ "*" in
          match pieceMap !! encodedPart with
          | Some v =>
              if (n =? 0)%nat
              then pieces fuel' key pieceMap (S n) (buf +:+ decode2231Enc v) true
              else pieces fuel' key pieceMap (S n)
                          (buf +:+ fst (percentHexUnescape v)) true
          | None => (buf, valid)
          end
      end
  end.

(** The body of [for key, pieceMap := range continuation]. *)
Definition stitch (key : string) (pieceMap : gmap string string)
    (params : gmap string string) : gmap string string :=
  let singlePartKey := key +:+ "*" in
  match pieceMap !! singlePartKey with
  | Some v => <[key := decode2231Enc v]> params
  | None =>
      let '(buf, valid) := pieces (S (size pieceMap)) key pieceMap 0 EmptyString false in
      if valid then <[key := buf]> params else params
  end.

Definition ParseMediaType (v : string) : result :=
  let p := mkPMTErr [] false in
  let i := default (String.length v) (Index v ";") in
  let mediatype := TrimSpace (ToLower (upto i v)) in
  let '(p, mediatype, err) := lossyCheckMediaTypeDisposition p mediatype v in
  if bool_decide (err <> None) && bad p then
    (EmptyString, None, option_map Plain err)
  else
    let gerr_set := bool_decide (err <> None) in
    let v := from i v in
    match paramLoop (String.length v) mediatype v (mkP ∅ ∅ p gerr_set) with
    | inl res => res
    | inr s =>
        (mediatype,
         Some (map_fold stitch (params s) (continuation s)),
         gerr_of s)
    end.

(** The loop over the runes of [value] in [FormatMediaType]; [None] is
    the [return] of the empty string. *)
Fixpoint quoteLoop (value : string) (rs : list (Z * string)) (index offset : nat)
    (b : string) : option (string * nat) :=
  match rs with
  | [] => Some (b, offset)
  | (character, bytes) :: rs' =>
      let '(b, offset) :=
        if (character =? 34) || (character =? 92)
        then (b +:+ substring offset (index - offset) value +:+ "\", index)
        else (b, offset) in
      if negb (Z.land character 128 =? 0) then None
      else quoteLoop value rs' (index + String.length bytes) offset b
  end.

(** The loop [for _, attribute := range attrs]. *)
Fixpoint formatAttrs (attrs : list string) (param : gmap string string)
    (b : string) : string :=
  match attrs with
  | [] => b
  | attribute :: attrs' =>
      let value := default EmptyString (param !! attribute) in
      let b := b +:+ "; " in
      if negb (isToken attribute) then EmptyString
      else
        let b := b +:+ ToLower attribute +:+ "=" in
        if isToken value then formatAttrs attrs' param (b +:+ value)
        else
          let b := b +:+ DQ in
          match quoteLoop value (runes value) 0 0 b with
          | None => EmptyString
          | Some (b, offset) =>
              formatAttrs attrs' param (b +:+ from offset value +:+ DQ)
          end
  end.

Definition FormatMediaType (t : string) (param : gmap string string) : string :=
  let head :=
    match Index t "/" with
    | None => if negb (isToken t) then None else Some (ToLower t)
    | Some slash =>
        let major := upto slash t in
        let sub := from (slash + 1) t in
        if negb (isToken major) || negb (isToken sub) then None
        else Some (ToLower major +:+ "/" +:+ ToLower sub)
    end in
  match head with
  | None => EmptyString
  | Some b =>
      let attrs := sortStrings (map_to_list param).*1 in
      formatAttrs attrs param b
  end.

(** [checkMediaTypeDisposition] *)
Definition checkMediaTypeDisposition (s : string) : option merror :=
  let '(typ, rest) := consumeToken s in
  if String.eqb typ EmptyString then Some mimeNoMediaType
  else if String.eqb rest EmptyString then None
  else if negb (HasPrefix rest "/") then Some mimeNoSlash
  else
    let '(subtype, rest) := consumeToken (from 1 rest) in
    if String.eqb subtype EmptyString then Some mimeTokenSlash
    else if negb (String.eqb rest EmptyString) then Some mimeUnexpectedContent
    else None.

End Mime.

(** * What the theorems are stated with *)

(** ** The quoted-printable reader *)

Module QPSpec.
Import QP QPCopy.

(** The loop of [Read] run to the first error, whatever the buffers of the
    caller are: the bytes written and the error of [r.Fn()] that ends it. *)
Fixpoint drain (fuel : nat) (r : Reader) : option (list Z * error * Reader) :=
  match fuel with
  | O => None
  | S fuel' =>
      match step r with
      | Return e => Some ([], e, r)
      | Continue r' => drain fuel' r'
      | Emit b r' =>
          match drain fuel' r' with
          | Some (out, e, r'') => Some (b :: out, e, r'')
          | None => None
          end
      | Panic => None
      end
  end.

(** What holds of every reader made by [getReader] and used through [Read]. *)
Definition Inv (r : Reader) : Prop :=
  length (prev r) = 4%nat
  /\ length (errs (gerr r)) = 4%nat
  /\ (count (gerr r) = 0%nat
      \/ exists e, errs (gerr r) !! 0%nat = Some (Some e) /\ e <> EOF).

(** Two measures that the loop of [Read] makes smaller: [mu] goes down at
    every turn that writes nothing, [nu] at every turn that writes a byte. *)
Definition eofbit (r : Reader) : nat :=
  match err (gerr r) with None => 1 | Some _ => 0 end.

Definition mu (r : Reader) : nat :=
  (2 * length (br r) + length (line r) + eofbit r)%nat.

Definition nu (r : Reader) : nat :=
  (length (br r) + length (line r) + lastLen r)%nat.

(** The part of [Inv] that is about [gerr]. *)
Definition GInv (g : RErr) : Prop :=
  length (errs g) = 4%nat
  /\ (count g = 0%nat \/ exists e, errs g !! 0%nat = Some (Some e) /\ e <> EOF).

(** What one turn of the loop keeps and makes smaller. *)
Definition good (r r' : Reader) (strict_mu : bool) : Prop :=
  Inv r' /\ Fn_sel r' = Fn_sel r
  /\ (if strict_mu then (mu r' < mu r)%nat /\ (nu r' <= nu r)%nat
      else (mu r' <= mu r)%nat /\ (nu r' < nu r)%nat).

Definition step_ok (r : Reader) (o : outcome) : Prop :=
  match o with
  | Return e => Fn r = Some e /\ line r = []
  | Continue r' => good r r' true
  | Emit _ r' => good r r' false
  | Panic => False
  end.

(** The error of [io.Copy]: [io.EOF] is the end, not an error. *)
Definition ioerr (e : error) : option error :=
  match e with EOF => None | _ => Some e end.

(** A hex digit, a-f also. *)
Definition hexDigit (b : Z) : bool :=
  ((48 <=? b) && (b <=? 57)) || ((65 <=? b) && (b <=? 70)) || ((97 <=? b) && (b <=? 102)).

(** Does [s] start with LF or CR LF? *)
Definition startsEOL (s : list Z) : bool :=
  match s with
  | [] => false
  | a :: s' =>
      (a =? 10) || ((a =? 13) && match s' with b :: _ => b =? 10 | [] => false end)
  end.

(** The inputs of the long-buffer test: 4100 bytes, [A] but for a soft line
    break at 4095. *)
Definition longLF : list Z := replicate 4095 65 ++ [61; 10] ++ replicate 3 65.

Definition longCRLF : list Z := replicate 4095 65 ++ [61; 13; 10] ++ replicate 2 65.

(** A byte that needs no encoding: printable ASCII other than [=], tab, CR
    or LF. *)
Definition benign (b : Z) : bool :=
  negb (b =? 61) && (((32 <=? b) && (b <=? 126)) || (b =? 9) || (b =? 13) || (b =? 10)).

(** A byte of the body of a line: a [benign] one that is not LF. *)
Definition bodyByte (b : Z) : bool := benign b && negb (b =? 10).

(** The line does not end with a byte that [TrimRightFunc] takes away. *)
Definition endsClean (l : list Z) : bool :=
  match rev l with
  | [] => true
  | b :: _ => negb (isQPDiscardWhitespace b)
  end.

(** The body of a line that the reader gives back as it is: its bytes, no
    white space at its end, and short enough for the buffer of the source. *)
Definition cleanBody (l : list Z) : bool :=
  forallb bodyByte l && endsClean l && (length l <? 4094)%nat.

(** The end of a line: CR LF or LF. *)
Definition eol (c : bool) : list Z := if c then [13; 10] else [10].

(** The text made of the lines [ls] (body, and whether it ends with CR LF)
    and of a last line [tl] without end of line. *)
Definition text (ls : list (list Z * bool)) (tl : list Z) : list Z :=
  concat (map (fun l => fst l ++ eol (snd l)) ls) ++ tl.

(** A reader between two lines that has met no error. *)
Definition idle (r : Reader) : Prop :=
  line r = [] /\ lastLen r = 0%nat /\ count (gerr r) = 0%nat /\ err (gerr r) = None.

(** Every line of the source, its end of line included, goes into the
    buffer of 4096 bytes of the [bufio.Reader]; [n] bytes of the line have
    been seen. *)
Fixpoint fits_from (n : nat) (s : list Z) : bool :=
  match s with
  | [] => (n <? bufSize)%nat
  | b :: s' => if b =? 10 then (n <? bufSize)%nat && fits_from 0 s' else fits_from (S n) s'
  end.

Definition fits (s : list Z) : bool := fits_from 0 s.

(** The same reader made by [NewReader] instead of [NewStrictReader]. *)
Definition relax (r : Reader) : Reader :=
  mkReader Lenient (br r) (gerr r) (rerr r) (line r) (prev r) (last r).

Definition relaxed (o : outcome) : outcome :=
  match o with
  | Return e => Return e
  | Continue r => Continue (relax r)
  | Emit b r => Emit b (relax r)
  | Panic => Panic
  end.

(** A reader that has met no full buffer and will meet none. *)
Definition calm (r : Reader) : Prop :=
  lastLen r = 0%nat /\ rerr r <> Some ErrBufferFull /\ fits (br r) = true
  /\ (err (gerr r) = None \/ err (gerr r) = Some EOF).

(** The errors recorded in [g'] are those of [g] and some more, recorded
    by [add]. *)
Definition grown (g g' : RErr) : Prop := exists es, g' = foldl add g es.

(** A turn of the loop that takes no line from the source: the source is
    left as it is, and errors are recorded by [add] only. *)
Definition quiet (r : Reader) (o : outcome) : Prop :=
  match o with
  | Continue r' | Emit _ r' => br r' = br r /\ grown (gerr r) (gerr r')
  | _ => True
  end.

(** The error of the source that [Fn] of the lenient reader returns is
    [io.EOF] or none. *)
Definition eof_only (r : Reader) : Prop :=
  err (gerr r) = None \/ err (gerr r) = Some EOF.

(** The hex digit of [n], [0 <= n < 16], in upper or in lower case. *)
Definition hexOf (upper : bool) (n : Z) : Z :=
  if n <? 10 then 48 + n else (if upper then 55 else 87) + n.

(** A byte of an encoded line: written as it is, or as [=XY] with the case
    of each of the two digits. *)
Inductive item : Type :=
| Raw (b : Z)
| Hex (u1 u2 : bool) (b : Z).

Definition itemOK (i : item) : bool :=
  match i with
  | Raw b => bodyByte b
  | Hex _ _ b => (0 <=? b) && (b <? 256)
  end.

Definition enc (i : item) : list Z :=
  match i with
  | Raw b => [b]
  | Hex u1 u2 b => [61; hexOf u1 (b / 16); hexOf u2 (b mod 16)]
  end.

Definition dec (i : item) : Z :=
  match i with Raw b | Hex _ _ b => b end.

Definition encode (l : list item) : list Z := concat (map enc l).
Definition decode (l : list item) : list Z := map dec l.

(** The end of an encoded line: a soft line break [=] CR LF or [=] LF, that
    stands for nothing, or the end of a line of the text. *)
Inductive ending : Type :=
| Soft (c : bool)
| Hard (c : bool).

Definition encEnd (e : ending) : list Z :=
  match e with Soft c => 61 :: eol c | Hard c => eol c end.

Definition decEnd (e : ending) : list Z :=
  match e with Soft _ => [] | Hard c => eol c end.

(** An encoded line that is short enough for the buffer of the source; the
    space, tab or CR at the end of a line of the text is written [=XY]. *)
Definition lineOK (l : list item * ending) : bool :=
  forallb itemOK (fst l) && (length (encode (fst l)) <? 4094)%nat
  && match snd l with Soft _ => true | Hard _ => endsClean (encode (fst l)) end.

Definition encText (ls : list (list item * ending)) (tl : list item) : list Z :=
  concat (map (fun l => encode (fst l) ++ encEnd (snd l)) ls) ++ encode tl.

Definition decText (ls : list (list item * ending)) (tl : list item) : list Z :=
  concat (map (fun l => decode (fst l) ++ decEnd (snd l)) ls) ++ decode tl.

End QPSpec.

(** ** The UTF-8 rejoiner *)

Module UTF8Spec.
Import UTF8.

Section RejoinerSpec.
Context {R : Type}.
Implicit Types q : @qpUTF8 R.

(** The bytes taken from the input and not yet written: those of [own]
    between the two counters, and [last] when a restart is due. *)
Definition held q : list Z :=
  take (pco q - cco q) (drop (cco q) (own q))
  ++ (if bool_decide (state q = stReleaseRestart) then [last q] else []).

(** The bytes of [buf] still to go through [cycle]. *)
Definition unproc q : list Z := take (pcb q - ccb q) (drop (ccb q) (buf q)).

(** What the counters are in each state. *)
Definition okst q : Prop :=
  length (own q) = 6%nat /\
  match state q with
  | stNormal => pco q = 0%nat /\ cco q = 0%nat
  | stStart => cco q = 0%nat /\ (1 <= pco q <= 3)%nat
  | st0x0D => cco q = 0%nat /\ (pos q < pco q <= 4)%nat
  | st0x0A => cco q = 0%nat /\ (pos q < pco q <= 5)%nat
  | st0x10XXXXXX => cco q = 0%nat /\ (pco q <= 5)%nat
  | stRelease | stReleaseRestart => (cco q <= pco q <= 6)%nat
  end.

(** What [cycle] and [release] leave as they find it. *)
Definition same q q' : Prop :=
  r q' = r q /\ buf q' = buf q /\ err q' = err q.

(** The guard of [Read] on what is held when the upstream has failed. *)
Definition flushes q : bool :=
  bool_decide (state q = st0x10XXXXXX)
  || (bool_decide (state q = stStart) && (1 <? pco q - cco q)%nat).

End RejoinerSpec.

Section RejoinerRun.
Context {R : Type}.
Variable rd : R -> nat -> list Z * option error * R.

(** A caller that stops at the first error: [Read] is called once for each
    buffer length of [sched] until it returns an error. *)
Fixpoint readUntil (sched : list nat) (q : @qpUTF8 R) : option (list Z * option error) :=
  match sched with
  | [] => Some ([], None)
  | m :: sched' =>
      match Read rd q m with
      | None => None
      | Some (out, Some e, _) => Some (out, Some e)
      | Some (out, None, q') =>
          match readUntil sched' q' with
          | Some (out', e) => Some (out ++ out', e)
          | None => None
          end
      end
  end.

(** The upstream reader hands out the bytes of [content], in pieces that go
    into the buffer it is given. *)
Variable content : R -> list Z.

Definition upstream_ok : Prop :=
  forall (u : R) (k : nat) d e u',
    rd u k = (d, e, u') -> (length d <= k)%nat /\ content u = d ++ content u'.

(** All that is still to come out of the rejoiner. *)
Definition rest (q : @qpUTF8 R) : list Z := held q ++ unproc q ++ content (r q).

Definition wf (q : @qpUTF8 R) : Prop :=
  okst q /\ length (buf q) = 512%nat /\ (ccb q <= pcb q <= 512)%nat.

End RejoinerRun.

(** The line break that a candidate is cut by: CR LF or LF. *)
Definition lineBreak (crlf : bool) : list Z := if crlf then [13; 10] else [10].

(** A byte that does not start a multi-byte sequence: its top two bits are
    not 11. *)
Definition plain (b : Z) : bool := negb (c0mask b =? 192).

(** A rejoiner that holds nothing: no candidate, nothing left in [buf] and
    no error of the upstream. *)
Definition clear {R : Type} (q : @qpUTF8 R) : Prop :=
  state q = stNormal /\ pco q = 0%nat /\ cco q = 0%nat /\ (pcb q <= ccb q)%nat
  /\ length (buf q) = 512%nat /\ err q = None.

(** A byte that is neither CR nor LF. *)
Definition inLine (b : Z) : bool := negb (b =? 13) && negb (b =? 10).

(** The text does not end with a byte that starts a multi-byte sequence. *)
Definition endsPlain (s : list Z) : bool :=
  match rev s with
  | [] => true
  | b :: _ => plain b
  end.

(** A rejoiner between two sequences, or one that holds the start of a
    sequence that no line break has cut. *)
Definition steady {R : Type} (q : @qpUTF8 R) : Prop :=
  length (own q) = 6%nat /\ cco q = 0%nat
  /\ ((state q = stNormal /\ pco q = 0%nat)
      \/ (state q = stStart /\ (1 <= pco q <= 3)%nat)).

(** What is held is more than one byte that starts a sequence. *)
Definition settled {R : Type} (q : @qpUTF8 R) : Prop :=
  state q = stNormal \/ (1 < pco q)%nat.

(** A rejoiner between two calls of [Read] that has all of [buf] behind it
    and has met no error of the upstream. *)
Definition ready {R : Type} (q : @qpUTF8 R) : Prop :=
  steady q /\ (pcb q <= ccb q)%nat /\ length (buf q) = 512%nat /\ err q = None.

End UTF8Spec.

(** ** Media types *)

Module MimeSpec.
Import Mime.
Local Open Scope string_scope.
Local Open Scope list_scope.
Local Open Scope Z_scope.

(** [tokens s]: every byte of [s] is a token character. *)
Definition tokens (s : string) : Prop := IndexNotToken s = None.

Fixpoint nospace (s : string) : Prop :=
  match s with
  | EmptyString => True
  | String c t => (byte_of_ascii c < 128 /\ IsSpace (byte_of_ascii c) = false) /\ nospace t
  end.

(** What the specification expects: the keys in lower case. *)
Definition lowerKeys (p : gmap string string) : gmap string string :=
  list_to_map (prod_map ToLower id <$> map_to_list p).

(** A value [FormatMediaType] can write and [ParseMediaType] reads back:
    ASCII without CR and LF. *)
Fixpoint plainValue (v : string) : bool :=
  match v with
  | EmptyString => true
  | String c t =>
      (byte_of_ascii c <? 128) && negb (byte_of_ascii c =? 13)
      && negb (byte_of_ascii c =? 10) && plainValue t
  end.

Definition roundtrips (p : gmap string string) : Prop :=
  NoDup (ToLower <$> (map_to_list p).*1)
  /\ Forall (fun kv => Index (fst kv) "*" = None /\ snd kv <> "" /\ plainValue (snd kv) = true)
            (map_to_list p).

(** The quoted form of an ASCII value. *)
Fixpoint escape (v : string) : string :=
  match v with
  | EmptyString => EmptyString
  | String c t =>
      if (byte_of_ascii c =? 34) || (byte_of_ascii c =? 92)
      then String "\" (String c (escape t))
      else String c (escape t)
  end.

Definition renderValue (v : string) : string :=
  if isToken v then v else DQ +:+ escape v +:+ DQ.

Fixpoint render (attrs : list string) (p : gmap string string) : string :=
  match attrs with
  | [] => EmptyString
  | k :: attrs' =>
      "; " +:+ ToLower k +:+ "=" +:+ renderValue (default EmptyString (p !! k))
      +:+ render attrs' p
  end.

Definition arunes (a : string) : list (Z * string) :=
  map (fun x => (byte_of_ascii x, String x "")) (list_ascii_of_string a).

(** What may follow a parameter: nothing or the next [;]. *)
Definition follows (rest : string) : Prop :=
  rest = "" \/ exists r, rest = String ";" r.

Definition kv_of (p : gmap string string) (k : string) : string * string :=
  (ToLower k, default "" (p !! k)).

(** The head that [FormatMediaType] writes, read back by [ParseMediaType]. *)
Definition goodHead (h : string) : Prop :=
  h <> "" /\ Index h ";" = None /\ nospace h /\ ToLower h = h
  /\ forall p v, v <> "" -> lossyCheckMediaTypeDisposition p h v = (p, h, None).

(** The hex digit of [n] below 16, in upper or in lower case. *)
Definition hexChar (upper : bool) (n : Z) : ascii :=
  ascii_of_byte (if n <? 10 then 48 + n else if upper then 55 + n else 87 + n).

(** A percent-encoded text: bytes written as they are, and bytes written as
    [%] and two hex digits. *)
Inductive piece : Type :=
| Lit (c : ascii)
| Esc (upper : bool) (b : Z).

Definition pieceOK (x : piece) : bool :=
  match x with
  | Lit c => negb (Ascii.eqb c "%")
  | Esc _ b => (0 <=? b) && (b <? 256)
  end.

Fixpoint pctEncode (l : list piece) : string :=
  match l with
  | [] => EmptyString
  | Lit c :: l' => String c (pctEncode l')
  | Esc u b :: l' =>
      String "%" (String (hexChar u (b / 16)) (String (hexChar u (b mod 16)) (pctEncode l')))
  end.

Fixpoint pctPlain (l : list piece) : string :=
  match l with
  | [] => EmptyString
  | Lit c :: l' => String c (pctPlain l')
  | Esc _ b :: l' => String (ascii_of_byte b) (pctPlain l')
  end.

(** [rest] is what is left of [v] after some bytes, at least one, were
    taken from its head. *)
Definition shorter (rest v : string) : Prop :=
  exists pre, pre <> "" /\ v = pre +:+ rest.

(** The same, or nothing taken. *)
Definition tail_of (rest v : string) : Prop := exists pre, v = pre +:+ rest.

(** The keys of a map are in lower case and made of token characters. *)
Definition lowerKeyed {A : Type} (m : gmap string A) : Prop :=
  forall k, is_Some (m !! k) -> ToLower k = k /\ tokens k.

(** What the loops of [ParseMediaType] keep. *)
Definition pstate_ok (s : pstate) : Prop :=
  bad (perr s) = false /\ lowerKeyed (params s) /\ lowerKeyed (continuation s).

(** The test [character&0x80 != 0] of [FormatMediaType] fails for no rune
    of [v]. *)
Definition runesOK (v : string) : bool :=
  forallb (fun x => Z.land (fst x) 128 =? 0) (runes v).

(** The media type [t] is a token, or two tokens around its first slash. *)
Definition headOK (t : string) : bool :=
  match Index t "/" with
  | None => isToken t
  | Some slash => isToken (upto slash t) && isToken (from (slash + 1) t)
  end.

(** The parameter [k] of [param] can be written. *)
Definition attrOK (param : gmap string string) (k : string) : bool :=
  isToken k
  && (isToken (default EmptyString (param !! k))
      || runesOK (default EmptyString (param !! k))).

(** What [ParseMediaType] does with a parameter it has read: a name with a
    star goes to the pieces of its base name, another one to [params]; a
    name seen before keeps its first value and the error of a duplicate is
    recorded. *)
Definition record (s : pstate) (key value : string) : pstate :=
  match Index key "*" with
  | Some idx =>
      let baseName := upto idx key in
      let pmap := default ∅ (continuation s !! baseName) in
      match pmap !! key with
      | None =>
          mkP (params s) (<[baseName := <[key := value]> pmap]> (continuation s))
              (perr s) (gerr_set s)
      | Some _ => mkP (params s) (continuation s) (add (perr s) mimeDuplicateParam) true
      end
  | None =>
      match params s !! key with
      | None => mkP (<[key := value]> (params s)) (continuation s) (perr s) (gerr_set s)
      | Some _ => mkP (params s) (continuation s) (add (perr s) mimeDuplicateParam) true
      end
  end.

(** One parameter written as [FormatMediaType] writes it. *)
Definition param1 (k v : string) : string :=
  "; " +:+ ToLower k +:+ "=" +:+ renderValue v.

End MimeSpec.

(** * Theorems *)

(** ** The quoted-printable reader *)

Module QPFacts.
Import QP QPCopy QPSpec.

Lemma bufSize_pos : (0 < bufSize)%nat.
Proof. unfold bufSize. lia. Qed.

(** [TrimRightFunc] *)
Lemma TrimRight_split (s : list Z) (f : Z -> bool) :
  exists w, s = TrimRightFunc s f ++ w /\ Forall (fun b => f b = true) w.
Proof.
  induction s as [|b s (w & Hs & Hw)]; [by exists []|].
  cbn [TrimRightFunc]. destruct (TrimRightFunc s f) as [|x t] eqn:E.
  - destruct (f b) eqn:Eb.
    + exists (b :: w). cbn in Hs. subst s. split; [done|]. by constructor.
    + exists w. cbn in *. by subst s.
  - exists w. split; [|done]. cbn. by rewrite Hs at 1.
Qed.

Lemma TrimRight_length (s : list Z) (f : Z -> bool) :
  (length (TrimRightFunc s f) <= length s)%nat.
Proof.
  destruct (TrimRight_split s f) as (w & Hs & _). rewrite Hs at 2.
  rewrite length_app. lia.
Qed.

Lemma TrimRight_app_true (s w : list Z) (f : Z -> bool) :
  Forall (fun b => f b = true) w -> TrimRightFunc (s ++ w) f = TrimRightFunc s f.
Proof.
  intros Hw. induction s as [|b s IH]; cbn [app TrimRightFunc].
  - induction w as [|x w IHw]; [done|]. apply Forall_cons in Hw as [Hx Hw].
    cbn [TrimRightFunc]. by rewrite (IHw Hw), Hx.
  - by rewrite IH.
Qed.

Lemma TrimRight_keep (s : list Z) (b : Z) (f : Z -> bool) :
  f b = false -> TrimRightFunc (s ++ [b]) f = s ++ [b].
Proof.
  intros Hb. induction s as [|x s IH]; cbn [app TrimRightFunc].
  - by rewrite Hb.
  - rewrite IH. destruct s; cbn; done.
Qed.

Lemma TrimRight_nil (f : Z -> bool) : TrimRightFunc [] f = [].
Proof. done. Qed.

(** [HasPrefix], [HasSuffix] *)
Lemma HasPrefix_spec (s p : list Z) : HasPrefix s p = true <-> exists t, s = p ++ t.
Proof.
  revert s; induction p as [|x p IH]; intros s.
  - destruct s; cbn; (split; [intros _; eexists; reflexivity | done]).
  - destruct s as [|y s]; cbn [HasPrefix]; [split; [done | by intros [? ?]]|].
    rewrite andb_true_iff, Z.eqb_eq, IH. split.
    + intros [-> [t ->]]. by exists t.
    + intros [t [= -> ->]]. eauto.
Qed.

Lemma HasSuffix_spec (s p : list Z) : HasSuffix s p = true <-> exists t, s = t ++ p.
Proof.
  unfold HasSuffix. rewrite HasPrefix_spec. split.
  - intros [t Ht]. exists (rev t). apply (f_equal (@rev Z)) in Ht.
    by rewrite rev_involutive, rev_app_distr, rev_involutive in Ht.
  - intros [t ->]. exists (rev t). by rewrite rev_app_distr.
Qed.

(** [spanLF], [ReadSlice] *)
Lemma spanLF_app (s l r : list Z) (found : bool) :
  spanLF s = (l, r, found) -> s = l ++ r.
Proof.
  revert l r found; induction s as [|b s IH]; intros l r found; cbn [spanLF].
  - by intros [= <- <- <-].
  - destruct (b =? 10); [by intros [= <- <- <-]|].
    destruct (spanLF s) as [[l' r'] f']. intros [= <- <- <-].
    cbn. f_equal. by eapply IH.
Qed.

Lemma spanLF_nil (s r : list Z) (found : bool) : spanLF s = ([], r, found) -> s = [].
Proof.
  destruct s as [|b s]; [done|]. cbn [spanLF]. destruct (b =? 10); [done|].
  by destruct (spanLF s) as [[l' r'] f'].
Qed.

Lemma spanLF_notfound (s l r : list Z) : spanLF s = (l, r, false) -> r = [].
Proof.
  revert l r; induction s as [|b s IH]; intros l r; cbn [spanLF].
  - by intros [= <- <-].
  - destruct (b =? 10); [done|].
    destruct (spanLF s) as [[l' r'] f']. intros [= <- <- ->]. by eapply IH.
Qed.

Lemma ReadSlice_app (s l r : list Z) (e : option error) :
  ReadSlice s = (l, e, r) -> s = l ++ r.
Proof.
  unfold ReadSlice. destruct (spanLF s) as [[l' r'] f'] eqn:E.
  apply spanLF_app in E.
  destruct (f' && (length l' <=? bufSize)%nat); [by intros [= <- <- <-]|].
  destruct (bufSize <=? length l')%nat; intros [= <- <- <-]; [|done].
  by rewrite take_drop.
Qed.

Lemma ReadSlice_full (s l r : list Z) :
  ReadSlice s = (l, Some ErrBufferFull, r) -> length l = bufSize.
Proof.
  unfold ReadSlice. destruct (spanLF s) as [[l' r'] f'] eqn:E.
  apply spanLF_app in E.
  destruct (f' && (length l' <=? bufSize)%nat); [done|].
  destruct (Nat.leb_spec bufSize (length l')); [|done]. intros [= <- <-].
  rewrite length_take, E, length_app. lia.
Qed.

Lemma ReadSlice_nil (s r : list Z) (e : option error) :
  ReadSlice s = ([], e, r) -> s = [] /\ e = Some EOF.
Proof.
  pose proof bufSize_pos as HB.
  unfold ReadSlice. destruct (spanLF s) as [[l' r'] f'] eqn:E.
  destruct (f' && (length l' <=? bufSize)%nat) eqn:E1.
  - intros [= -> <- <-]. pose proof (spanLF_nil _ _ _ E) as ->.
    cbn in E. injection E as <- <-. done.
  - destruct (Nat.leb_spec bufSize (length l')).
    + intros [= Ht _ _]. apply (f_equal length) in Ht. rewrite length_take in Ht.
      pose proof (spanLF_app _ _ _ _ E) as Hs. rewrite Hs, length_app in Ht. cbn in Ht. lia.
    + intros [= -> <- <-]. by pose proof (spanLF_nil _ _ _ E) as ->.
Qed.

Lemma ReadSlice_err (s l r : list Z) (e : option error) :
  ReadSlice s = (l, e, r) -> e = None \/ e = Some ErrBufferFull \/ (e = Some EOF /\ r = []).
Proof.
  unfold ReadSlice. destruct (spanLF s) as [[l' r'] f'] eqn:E.
  destruct (f' && (length l' <=? bufSize)%nat) eqn:E1; [intros [= <- <- <-]; by left|].
  destruct (bufSize <=? length l')%nat eqn:E2; intros [= <- <- <-]; [by right; left|].
  right; right. split; [done|]. destruct f'.
  - cbn in E1. apply Nat.leb_gt in E1, E2. lia.
  - by eapply spanLF_notfound.
Qed.

Lemma isWS_lf : Forall (fun b => isQPDiscardWhitespace b = true) [10].
Proof. by repeat constructor. Qed.
Lemma isWS_crlf : Forall (fun b => isQPDiscardWhitespace b = true) [13; 10].
Proof. by repeat constructor. Qed.

Lemma prepare_length (l : list Z) : (length (fst (prepare l)) <= length l)%nat.
Proof.
  unfold prepare. pose proof (TrimRight_length l isQPDiscardWhitespace) as Ht.
  set (t := TrimRightFunc l isQPDiscardWhitespace) in *.
  destruct (HasSuffix t softSuffix).
  - destruct (negb _ && negb _); cbn [fst]; rewrite length_take; lia.
  - destruct (HasSuffix l lf) eqn:E1; [|done].
    destruct (HasSuffix l crlf) eqn:E2; cbn [fst]; rewrite length_app; cbn [length].
    + apply HasSuffix_spec in E2 as [l0 ->]. unfold t.
      rewrite TrimRight_app_true by apply isWS_crlf.
      pose proof (TrimRight_length l0 isQPDiscardWhitespace). rewrite length_app. cbn. lia.
    + apply HasSuffix_spec in E1 as [l0 ->]. unfold t.
      rewrite TrimRight_app_true by apply isWS_lf.
      pose proof (TrimRight_length l0 isQPDiscardWhitespace). rewrite length_app. cbn. lia.
Qed.

Lemma prepare_err (l : list Z) (e : error) :
  snd (prepare l) = Some e -> exists s, e = ErrInvalidBytesAfter s.
Proof.
  unfold prepare. repeat case_match; cbn [snd]; intros [= <-]; eauto.
Qed.

Lemma add_GInv (g : RErr) (e : error) : GInv g -> e <> EOF -> GInv (add g (Some e)).
Proof.
  intros [Hl Hc] He. unfold add. destruct (count g =? maxQPRErr)%nat; [done|].
  split; cbn [errs count]; [by rewrite length_insert|]. right.
  destruct Hc as [->|(e0 & H0 & Hne)].
  - exists e. split; [|done]. apply list_lookup_insert_eq. lia.
  - destruct (count g) as [|n] eqn:Ec.
    + exists e. split; [|done]. apply list_lookup_insert_eq. lia.
    + exists e0. split; [|done]. by rewrite list_lookup_insert_ne.
Qed.

Lemma addUnrecover_GInv (g : RErr) (e : option error) : GInv g -> GInv (addUnrecover g e).
Proof. intros H. by destruct e. Qed.

Lemma err_add (g : RErr) (e : option error) : err (add g e) = err g.
Proof. unfold add. destruct e; [|done]. by destruct (count g =? maxQPRErr)%nat. Qed.

Lemma Inv_GInv (r : Reader) : Inv r <-> length (prev r) = 4%nat /\ GInv (gerr r).
Proof. unfold Inv, GInv. naive_solver. Qed.

Lemma Fn_None (r : Reader) : Inv r -> Fn r = None -> err (gerr r) = None.
Proof.
  intros (_ & _ & Hc) HF. unfold Fn, getErr in HF. destruct (Fn_sel r); [|done].
  destruct Hc as [Hc|(e & He & _)].
  - by rewrite Hc in HF.
  - destruct (count (gerr r) =? 0)%nat; [done|]. by rewrite He in HF.
Qed.

Lemma acquire_facts (r : Reader) :
  Inv r -> err (gerr r) = None ->
  Inv (acquire r) /\ (mu (acquire r) < mu r)%nat /\ (nu (acquire r) <= nu r)%nat
  /\ Fn_sel (acquire r) = Fn_sel r /\ last (acquire r) = last r.
Proof.
  intros HI He. apply Inv_GInv in HI as [Hp Hg]. unfold acquire.
  destruct (ReadSlice (br r)) as [[l e] rest] eqn:ER.
  pose proof (ReadSlice_app _ _ _ _ ER) as Hbr.
  pose proof (ReadSlice_err _ _ _ _ ER) as Herr.
  pose proof (prepare_length l) as Hlen.
  pose proof bufSize_pos as HB.
  assert (Hmu : forall g' e' l',
    (length l' <= length l)%nat ->
    (l = [] -> err g' <> None) -> 
    (mu (mkReader (Fn_sel r) rest g' e' l' (prev r) (last r)) < mu r)%nat
    /\ (nu (mkReader (Fn_sel r) rest g' e' l' (prev r) (last r)) <= nu r)%nat).
  { intros g' e' l' Hl' Hnil. unfold mu, nu, eofbit, lastLen. cbn [br line gerr last].
    rewrite Hbr, He, length_app. destruct l as [|x l].
    - specialize (Hnil eq_refl). destruct (err g'); [|done]. cbn in *. lia.
    - cbn [length] in *. destruct (err g'); lia. }
  destruct Herr as [->|[->|[-> ->]]].
  - (* a full line *)
    destruct (prepare l) as [l' [e'|]] eqn:EP; cbn [fst] in Hlen.
    + destruct (prepare_err l e' ltac:(by rewrite EP)) as [s ->].
      split; [apply Inv_GInv; split; [done | by apply add_GInv]|].
      split_and!; try done; apply Hmu; try done;
        intros ->; by apply ReadSlice_nil in ER as [_ ?].
    + split; [apply Inv_GInv; split; [done|done]|].
      split_and!; try done; apply Hmu; try done;
        intros ->; by apply ReadSlice_nil in ER as [_ ?].
  - (* buffer full *)
    pose proof (ReadSlice_full _ _ _ ER) as Hfull.
    split; [apply Inv_GInv; split; [done | by apply add_GInv]|].
    split_and!; try done; apply Hmu; try done; intros ->; cbn in Hfull; lia.
  - (* end of the source *)
    destruct (prepare l) as [l' [e'|]] eqn:EP; cbn [fst] in Hlen.
    + destruct (prepare_err l e' ltac:(by rewrite EP)) as [s ->].
      split; [apply Inv_GInv; split; [done | by apply add_GInv]|].
      split_and!; try done; apply Hmu; try done; intros _; by rewrite err_add.
    + split; [apply Inv_GInv; split; [done|done]|].
      split_and!; try done; apply Hmu; try done.
Qed.

Lemma foldl_insert_length (l : list Z) (p : list Z) (idx : list nat) :
  length (foldl (fun p i => <[i := default 0 (l !! i)]> p) p idx) = length p.
Proof.
  revert p; induction idx as [|i idx IH]; intros p; cbn [foldl]; [done|].
  by rewrite IH, length_insert.
Qed.

Lemma readHexByte_err (v : list Z) (e : error) :
  readHexByte v = inr e -> e <> EOF.
Proof.
  unfold readHexByte, fromHex. repeat case_match; intros ?; simplify_eq; done.
Qed.

Lemma good_mk (r : Reader) (g' : RErr) (e' : option error) (l' p' : list Z)
    (la' : nat * nat) (s : bool) :
  length p' = 4%nat -> GInv g' -> err g' = err (gerr r) ->
  (if s then (length l' < length (line r)
              /\ length l' + (snd la' - fst la') <= length (line r) + lastLen r)%nat
   else (length l' <= length (line r)
         /\ length l' + (snd la' - fst la') < length (line r) + lastLen r)%nat) ->
  good r (mkReader (Fn_sel r) (br r) g' e' l' p' la') s.
Proof.
  intros Hp Hg He Hm. unfold good. split; [by apply Inv_GInv|]. split; [done|].
  unfold mu, nu, eofbit, lastLen in *. cbn [br line gerr last]. rewrite He.
  destruct s; lia.
Qed.

Lemma scan_ok (r : Reader) :
  Inv r -> lastLen r = 0%nat -> line r <> [] -> step_ok r (scan r).
Proof.
  intros HI Hl Hne. pose proof HI as [Hp Hg]%Inv_GInv.
  unfold scan. destruct (line r) as [|b rest] eqn:El; [done|].
  destruct (b =? 61).
  - destruct (readHexByte rest) as [v|e] eqn:Eh.
    + (* a decoded byte *)
      assert (exists x y t, rest = x :: y :: t) as (x & y & t & ->).
      { unfold readHexByte in Eh. destruct rest as [|x [|y t]]; [done|done|eauto]. }
      unfold set_line at 1. cbn [drop]. unfold lastLen at 1. cbn [last]. fold (lastLen r).
      rewrite Hl. cbn [Nat.ltb Nat.leb line]. unfold set_line.
      cbn [Fn_sel br gerr rerr line prev last step_ok].
      apply good_mk; try done. rewrite El, Hl. cbn [length]. fold (lastLen r). lia.
    + destruct (match e with ErrUnexpectedEOF => _ | _ => _ end) eqn:Estash.
      * (* the escape is cut by the buffer: moved to prev *)
        cbn [lastLen last fst snd length Nat.sub Nat.ltb Nat.leb step_ok]. apply good_mk; try done.
        -- by rewrite foldl_insert_length.
        -- rewrite El, Hl. cbn [length fst snd]. lia.
      * pose proof (readHexByte_err _ _ Eh) as Hee.
        unfold set_gerr at 1. unfold lastLen at 1. cbn [last]. fold (lastLen r).
        rewrite Hl. cbn [Nat.ltb Nat.leb]. unfold set_line, set_gerr.
        cbn [Fn_sel br gerr rerr line prev last step_ok].
        apply good_mk; try done; [by apply add_GInv | apply err_add |].
        rewrite El, Hl. cbn [length]. fold (lastLen r). lia.
  - destruct ((b =? 9) || (b =? 13) || (b =? 10)).
    + rewrite Hl. cbn [Nat.ltb Nat.leb]. unfold set_line. cbn [step_ok].
      apply good_mk; try done. rewrite El, Hl. cbn [length]. fold (lastLen r). lia.
    + destruct ((b <? 32) || (126 <? b)).
      * unfold set_gerr at 1. unfold lastLen at 1. cbn [last]. fold (lastLen r).
        rewrite Hl. cbn [Nat.ltb Nat.leb]. unfold set_line, set_gerr.
        cbn [Fn_sel br gerr rerr line prev last step_ok].
        apply good_mk; try done; [by apply add_GInv | apply err_add |].
        rewrite El, Hl. cbn [length]. fold (lastLen r). lia.
      * rewrite Hl. cbn [Nat.ltb Nat.leb]. unfold set_line. cbn [step_ok].
        apply good_mk; try done. rewrite El, Hl. cbn [length]. fold (lastLen r). lia.
Qed.

Lemma fill_spec (d : nat) : forall (a : nat) (r : Reader),
  (d <= length (line r))%nat -> (d = 0 \/ a + d <= length (prev r))%nat ->
  exists p', fill d a r
             = Some (mkReader (Fn_sel r) (br r) (gerr r) (rerr r) (drop d (line r)) p' (last r))
    /\ length p' = length (prev r).
Proof.
  induction d as [|d IH]; intros a r Hl Hp.
  - exists (prev r). cbn [fill drop]. by destruct r.
  - cbn [fill]. destruct (line r) as [|x l'] eqn:El; [cbn in Hl; lia|].
    destruct (Nat.ltb_spec a (length (prev r))); [|lia].
    destruct (IH (S a) (set_line (set_prev r (<[a:=x]> (prev r))) l')) as (p' & H1 & H2).
    + cbn. cbn in Hl. lia.
    + cbn. rewrite length_insert. lia.
    + exists p'. rewrite H1. cbn. split; [done|]. rewrite H2. cbn. by rewrite length_insert.
Qed.

Lemma good_weaken (r0 r r' : Reader) (s : bool) :
  Fn_sel r = Fn_sel r0 -> (mu r <= mu r0)%nat -> (nu r <= nu r0)%nat ->
  good r r' s -> good r0 r' s.
Proof.
  unfold good. intros Hs Hm Hn (HI & Hs' & H). split; [done|]. split; [congruence|].
  destruct s; lia.
Qed.

Lemma step_ok_weaken (r0 r : Reader) (o : outcome) :
  Fn_sel r = Fn_sel r0 -> (mu r <= mu r0)%nat -> (nu r <= nu r0)%nat ->
  (forall e, o <> Return e) ->
  step_ok r o -> step_ok r0 o.
Proof.
  intros Hs Hm Hn Hr. destruct o; cbn [step_ok]; try done.
  - by specialize (Hr e).
  - by apply good_weaken.
  - by apply good_weaken.
Qed.

Lemma scan_not_Return (r : Reader) (e : error) : scan r <> Return e.
Proof. unfold scan. repeat case_match; done. Qed.

(** After a soft line break seen through [prev]: the rest of the line. *)
Lemma straddle_soft (r : Reader) (k : nat) :
  Inv r -> (0 < k <= length (line r))%nat ->
  let r1 := set_last (set_line r (drop k (line r))) (0%nat, 0%nat) in
  step_ok r match line r1 with
            | [] => Continue r1
            | _ :: _ => scan r1
            end.
Proof.
  intros HI Hk r1. pose proof HI as [Hp Hg]%Inv_GInv.
  assert (Hr1 : good r r1 true).
  { unfold r1, set_last, set_line. cbn [Fn_sel br gerr rerr line prev last].
    apply good_mk; try done. rewrite length_drop. cbn [fst snd]. lia. }
  destruct (line r1) eqn:El1; [done|].
  destruct Hr1 as (HI1 & Hs1 & Hm1 & Hn1).
  eapply step_ok_weaken; [done | lia | lia | apply scan_not_Return |].
  apply scan_ok; [done | done | by rewrite El1].
Qed.

Lemma straddle_ok (r : Reader) :
  Inv r -> (0 < lastLen r)%nat -> line r <> [] -> step_ok r (straddle r).
Proof.
  intros HI Hl Hne. pose proof HI as [Hp Hg]%Inv_GInv.
  assert (Hfin : forall b, step_ok r (if (0 <? lastLen r)%nat
                                      then Emit b (set_last r (lastFrom r 1)) else scan r)).
  { intros b. destruct (Nat.ltb_spec 0 (lastLen r)); [|lia]. cbn [step_ok].
    unfold set_last, lastFrom. apply good_mk; try done. unfold lastLen in *. cbn [fst snd]. lia. }
  assert (Hdec : (lastLen r = 1 -> 2 <= length (line r))%nat ->
    step_ok r
      (if (0 <? lastLen r)%nat then
        match fill (maxQPBuf - lastLen r) (lastLen r) r with
        | None => Panic
        | Some r1 =>
            let r2 := set_last r1 (0%nat, maxQPBuf) in
            match readHexByte (drop 1 (lastBytes r2)) with
            | inr e =>
                (fun (b : Z) (r : Reader) =>
                   if (0 <? lastLen r)%nat then Emit b (set_last r (lastFrom r 1)) else scan r)
                  61 (set_gerr r2 (add (gerr r2) (Some e)))
            | inl v =>
                (fun (b : Z) (r : Reader) =>
                   if (0 <? lastLen r)%nat then Emit b (set_last r (lastFrom r 1)) else scan r)
                  v (set_last r2 (lastFrom r2 2))
            end
        end
      else (fun (b : Z) (r : Reader) =>
                   if (0 <? lastLen r)%nat then Emit b (set_last r (lastFrom r 1)) else scan r)
             (lastAt r 0) r)).
  { intros H1. destruct (Nat.ltb_spec 0 (lastLen r)); [|lia].
    assert (Hlen : (1 <= length (line r))%nat) by (destruct (line r); [done | cbn; lia]).
    assert (Hd : (maxQPBuf - lastLen r <= length (line r))%nat)
      by (unfold maxQPBuf; lia).
    destruct (fill_spec (maxQPBuf - lastLen r) (lastLen r) r Hd) as (p' & -> & Hp').
    { rewrite Hp. unfold maxQPBuf. lia. }
    cbn zeta. unfold set_last at 1 3. cbn [Fn_sel br gerr rerr line prev last].
    match goal with |- context [readHexByte ?x] => destruct (readHexByte x) as [v|e] eqn:Eh end.
    - unfold set_last, lastFrom, lastLen. cbn [Fn_sel br gerr rerr line prev last fst snd].
      cbn [maxQPBuf Nat.add Nat.sub Nat.ltb Nat.leb step_ok].
      apply good_mk; try done; [congruence|]. rewrite length_drop. cbn [fst snd].
      unfold maxQPBuf, lastLen in *. lia.
    - pose proof (readHexByte_err _ _ Eh) as Hee.
      unfold set_gerr, set_last, lastFrom, lastLen.
      cbn [Fn_sel br gerr rerr line prev last fst snd].
      cbn [maxQPBuf Nat.add Nat.sub Nat.ltb Nat.leb step_ok].
      apply good_mk; try done; [congruence | by apply add_GInv | apply err_add |].
      rewrite length_drop. cbn [fst snd]. unfold maxQPBuf, lastLen in *. lia. }
  unfold straddle. cbn zeta. destruct (lastAt r 0 =? 61); [|apply Hfin].
  destruct (Nat.eqb_spec (lastLen r) 1) as [H1|H1]; [|apply Hdec; lia].
  destruct (HasPrefix (line r) lf) eqn:E1.
  { apply HasPrefix_spec in E1 as [t Ht].
    pose proof (straddle_soft r (length lf) HI) as Hs. cbn zeta in Hs.
    assert (Hk : (0 < length lf <= length (line r))%nat) by (rewrite Ht; cbn; lia).
    specialize (Hs Hk).
    destruct (line (set_last (set_line r (drop (length lf) (line r))) (0%nat, 0%nat))) eqn:El1;
      [done|].
    by cbn [lastLen last set_last fst snd Nat.sub Nat.ltb Nat.leb]. }
  destruct (HasPrefix (line r) crlf) eqn:E2.
  { apply HasPrefix_spec in E2 as [t Ht].
    pose proof (straddle_soft r (length crlf) HI) as Hs. cbn zeta in Hs.
    assert (Hk : (0 < length crlf <= length (line r))%nat) by (rewrite Ht; cbn; lia).
    specialize (Hs Hk).
    destruct (line (set_last (set_line r (drop (length crlf) (line r))) (0%nat, 0%nat))) eqn:El1;
      [done|].
    by cbn [lastLen last set_last fst snd Nat.sub Nat.ltb Nat.leb]. }
  destruct (line r) as [|x [|y l]] eqn:El; [done| |].
  - cbn [step_ok]. unfold set_last, set_line, set_prev.
    cbn [Fn_sel br gerr rerr line prev last].
    apply good_mk; try done; [by rewrite length_insert|]. rewrite El, H1. cbn. lia.
  - apply Hdec. cbn. lia.
Qed.

Lemma step_ok_step (r : Reader) : Inv r -> step_ok r (step r).
Proof.
  intros HI. unfold step. destruct (line r) as [|x l] eqn:El.
  - destruct (Fn r) as [e|] eqn:EF; [done|]. cbn [step_ok].
    destruct (acquire_facts r HI (Fn_None r HI EF)) as (?&?&?&?&?).
    by split_and!.
  - destruct (Nat.ltb_spec 0 (lastLen r)).
    + apply straddle_ok; [done | done | by rewrite El].
    + apply scan_ok; [done | lia | by rewrite El].
Qed.

Lemma Read_loop_mono (f : nat) : forall (f' : nat) (r : Reader) (m : nat) x,
  Read_loop f r m = Some x -> (f <= f')%nat -> Read_loop f' r m = Some x.
Proof.
  induction f as [|f IH]; intros f' r m x H Hf.
  - destruct m; [|done]. by destruct f'.
  - destruct m as [|m]; [by destruct f'|]. destruct f' as [|f']; [lia|].
    cbn [Read_loop] in *. destruct (step r) as [e|r1|b r1|]; try done.
    + apply IH; [done | lia].
    + destruct (Read_loop f r1 m) as [[[o e] r2]|] eqn:E; [|done].
      by rewrite (IH f' r1 m _ E) by lia.
Qed.

Lemma drain_mono (f : nat) : forall (f' : nat) (r : Reader) x,
  drain f r = Some x -> (f <= f')%nat -> drain f' r = Some x.
Proof.
  induction f as [|f IH]; intros f' r x H Hf; [done|].
  destruct f' as [|f']; [lia|].
  cbn [drain] in *. destruct (step r) as [e|r1|b r1|]; try done.
  - apply IH; [done | lia].
  - destruct (drain f r1) as [[[o e] r2]|] eqn:E; [|done].
    by rewrite (IH f' r1 _ E) by lia.
Qed.

Lemma Read_loop_total (f : nat) : forall (r : Reader) (m : nat),
  Inv r -> (mu r + m < f)%nat -> exists x, Read_loop f r m = Some x.
Proof.
  induction f as [|f IH]; intros r m HI Hf; [lia|].
  destruct m as [|m]; [by eexists|]. cbn [Read_loop].
  pose proof (step_ok_step r HI) as Hs. destruct (step r) as [e|r1|b r1|]; cbn [step_ok] in Hs.
  - destruct (eject (S m) r). by eexists.
  - destruct Hs as (HI1 & _ & Hm & _). apply IH; [done | lia].
  - destruct Hs as (HI1 & _ & Hm & _). destruct (IH r1 m HI1 ltac:(lia)) as [[[o e] r2] ->].
    by eexists.
  - done.
Qed.

Lemma drain_total (f : nat) : forall (r : Reader),
  Inv r -> (mu r + nu r < f)%nat -> exists x, drain f r = Some x.
Proof.
  induction f as [|f IH]; intros r HI Hf; [lia|]. cbn [drain].
  pose proof (step_ok_step r HI) as Hs. destruct (step r) as [e|r1|b r1|]; cbn [step_ok] in Hs.
  - by eexists.
  - destruct Hs as (HI1 & _ & Hm & Hn). apply IH; [done | lia].
  - destruct Hs as (HI1 & _ & Hm & Hn). destruct (IH r1 HI1 ltac:(lia)) as [[[o e] r2] ->].
    by eexists.
  - done.
Qed.

Lemma drain_facts (f : nat) : forall (r : Reader) out e r',
  Inv r -> drain f r = Some (out, e, r') ->
  (length out + nu r' <= nu r)%nat /\ Inv r' /\ Fn r' = Some e /\ line r' = []
  /\ Fn_sel r' = Fn_sel r.
Proof.
  induction f as [|f IH]; intros r out e r' HI H; [done|]. cbn [drain] in H.
  pose proof (step_ok_step r HI) as Hs. destruct (step r) as [e0|r1|b r1|]; cbn [step_ok] in Hs.
  - injection H as <- <- <-. cbn [length]. destruct Hs. split_and!; try done.
  - destruct Hs as (HI1 & Hsel & Hm & Hn). destruct (IH _ _ _ _ HI1 H) as (?&?&?&?&?).
    split_and!; try done; [lia | congruence].
  - destruct Hs as (HI1 & Hsel & Hm & Hn).
    destruct (drain f r1) as [[[o1 e1] r2]|] eqn:E; [|done]. injection H as <- <- <-.
    destruct (IH _ _ _ _ HI1 E) as (?&?&?&?&?). cbn [length].
    split_and!; try done; [lia | congruence].
  - done.
Qed.

Lemma eject_none (m : nat) (r : Reader) : lastLen r = 0%nat -> eject m r = ([], r).
Proof. intros H. destruct m; [done|]. cbn [eject]. by rewrite H. Qed.

Lemma Read_loop_drain (f : nat) : forall (r : Reader) (m : nat) out e r',
  Inv r -> drain f r = Some (out, e, r') -> lastLen r' = 0%nat ->
  ((m <= length out)%nat ->
     exists rm, Read_loop f r m = Some (take m out, None, rm)
                /\ drain f rm = Some (drop m out, e, r') /\ Inv rm)
  /\ ((length out < m)%nat -> Read_loop f r m = Some (out, Some e, r')).
Proof.
  induction f as [|f IH]; intros r m out e r' HI H Hl; [done|].
  destruct m as [|m].
  { split; [|lia]. intros _. exists r. by rewrite take_0, drop_0. }
  cbn [drain Read_loop] in *.
  pose proof (step_ok_step r HI) as Hs. destruct (step r) as [e0|r1|b r1|]; cbn [step_ok] in Hs.
  - injection H as <- <- <-. split; [cbn; lia|]. intros _. by rewrite eject_none.
  - destruct Hs as (HI1 & _). destruct (IH r1 (S m) _ _ _ HI1 H Hl) as [H1 H2].
    split; [|done]. intros Hm. destruct (H1 Hm) as (rm & Hr & Hd & HIm).
    exists rm. split_and!; try done. apply (drain_mono f (S f) rm _ Hd). lia.
  - destruct Hs as (HI1 & _).
    destruct (drain f r1) as [[[o1 e1] r2]|] eqn:E; [|done]. injection H as <- <- <-.
    destruct (IH r1 m _ _ _ HI1 E Hl) as [H1 H2]. cbn [length]. split.
    + intros Hm. destruct (H1 ltac:(lia)) as (rm & Hr & Hd & HIm).
      exists rm. rewrite Hr. cbn [take drop]. split_and!; try done.
      apply (drain_mono f (S f) rm _ Hd). lia.
    + intros Hm. by rewrite H2 by lia.
  - done.
Qed.

Lemma turns_enough (r : Reader) (m : nat) : (mu r + m < turns r m)%nat.
Proof. unfold mu, turns, eofbit. destruct (err (gerr r)); lia. Qed.

(** [Read] in terms of the run of the loop. *)
Lemma Read_drain (f : nat) (r : Reader) (m : nat) out e r' :
  Inv r -> drain f r = Some (out, e, r') -> lastLen r' = 0%nat ->
  ((m <= length out)%nat ->
     exists rm, Read r m = Some (take m out, None, rm)
                /\ drain f rm = Some (drop m out, e, r') /\ Inv rm)
  /\ ((length out < m)%nat -> Read r m = Some (out, Some e, r')).
Proof.
  intros HI H Hl. destruct (Read_loop_drain f r m _ _ _ HI H Hl) as [H1 H2].
  destruct (Read_loop_total (turns r m) r m HI (turns_enough r m)) as [x Hx].
  assert (Heq : forall y, Read_loop f r m = Some y -> Read r m = Some y).
  { intros y Hy. unfold Read. rewrite Hx.
    destruct (Nat.le_ge_cases f (turns r m)).
    - by rewrite (Read_loop_mono _ _ _ _ _ Hy H0) in Hx.
    - by rewrite (Read_loop_mono _ _ _ _ _ Hx H0) in Hy. }
  split.
  - intros Hm. destruct (H1 Hm) as (rm & Hr & Hd & HIm). exists rm. by rewrite (Heq _ Hr).
  - intros Hm. by rewrite (Heq _ (H2 Hm)).
Qed.

Lemma Copy_loop_drain (sz : nat -> nat) (n : nat) : forall (i f : nat) (r : Reader) out e r',
  Inv r -> drain f r = Some (out, e, r') -> lastLen r' = 0%nat ->
  (length out < n)%nat -> Copy_loop n sz i r = Some (out, ioerr e).
Proof.
  induction n as [|n IH]; intros i f r out e r' HI H Hl Hn; [lia|].
  cbn [Copy_loop]. destruct (Read_drain f r (S (sz i)) _ _ _ HI H Hl) as [H1 H2].
  destruct (Nat.le_gt_cases (S (sz i)) (length out)) as [Hm|Hm].
  - destruct (H1 Hm) as (rm & -> & Hd & HIm).
    rewrite (IH (S i) f rm _ _ _ HIm Hd Hl).
    + by rewrite take_drop.
    + rewrite length_drop. lia.
  - rewrite (H2 Hm). by destruct e.
Qed.

(** [io.Copy] gives the bytes of the run of the loop, whatever the buffers,
    when nothing is left in [prev] at the end. *)
Lemma Copy_drain (sz : nat -> nat) (f : nat) (r : Reader) out e r' :
  Inv r -> drain f r = Some (out, e, r') -> lastLen r' = 0%nat ->
  Copy sz r = Some (out, ioerr e).
Proof.
  intros HI H Hl. unfold Copy. eapply Copy_loop_drain; try done.
  destruct (drain_facts _ _ _ _ _ HI H) as (Hn & _). unfold nu in Hn. lia.
Qed.

Lemma Inv_getReader (sel : selector) (s : list Z) : Inv (getReader sel s).
Proof. unfold Inv. cbn. split_and!; try done. by left. Qed.

Ltac by_drain f :=
  match goal with
  | |- Copy ?sz ?r = Some (?out, ?e) =>
      let H := fresh in
      assert (H : exists e' r', drain f r = Some (out, e', r') /\ lastLen r' = 0%nat
                                /\ ioerr e' = e)
        by (vm_compute; eexists; eexists; split_and!; reflexivity);
      let e' := fresh in let r' := fresh in let H1 := fresh in let H2 := fresh in
      let H3 := fresh in
      destruct H as (e' & r' & H1 & H2 & H3); rewrite <- H3;
      apply (Copy_drain sz f r out e' r'); [apply Inv_getReader | exact H1 | exact H2]
  end.

(** C1: the lenient reader decodes the 4100-byte inputs of the long-buffer
    test, [A] everywhere but for [=] at index 4095 followed by LF
    (resp. CR LF), to 4098 (resp. 4097) bytes [A] and no error, whatever the
    sizes of the buffers it is read with: the soft line break that lies
    across the end of the 4096-byte buffer of the source is kept in [prev]
    and ended by the next line, and no byte is lost or written twice. *)
Theorem long_line_soft_break (sz : nat -> nat) :
  Copy sz (NewReader longLF) = Some (replicate 4098 65, None)
  /\ Copy sz (NewReader longCRLF) = Some (replicate 4097 65, None).
Proof.
  split.
  - by_drain (90 * 100)%nat.
  - by_drain (90 * 100)%nat.
Qed.

Lemma fromHex_hexDigit (b : Z) :
  fromHex b = if hexDigit b then fromHex b else inr (ErrInvalidHex b).
Proof.
  unfold fromHex, hexDigit.
  destruct ((48 <=? b) && (b <=? 57)); [done|].
  destruct ((65 <=? b) && (b <=? 70)); [done|].
  by destruct ((97 <=? b) && (b <=? 102)).
Qed.

Lemma fromHex_ok (b : Z) : hexDigit b = true -> exists v, fromHex b = inl v.
Proof.
  unfold fromHex, hexDigit.
  destruct ((48 <=? b) && (b <=? 57)); [eauto|].
  destruct ((65 <=? b) && (b <=? 70)); [eauto|].
  destruct ((97 <=? b) && (b <=? 102)); [eauto|done].
Qed.

Lemma readHexByte_bad (x y : Z) (rest : list Z) :
  hexDigit x && hexDigit y = false ->
  readHexByte (x :: y :: rest) = inr (ErrInvalidHex (if hexDigit x then y else x)).
Proof.
  intros H. unfold readHexByte. rewrite (fromHex_hexDigit x).
  destruct (hexDigit x) eqn:Ex.
  - destruct (fromHex_ok x Ex) as [v ->]. rewrite (fromHex_hexDigit y).
    cbn in H. by rewrite H.
  - done.
Qed.

(** C8: when the line starts with [=] followed by two bytes that are not both
    hex digits, and nothing is held over from a full buffer, one turn of the
    loop records the error "invalid hex byte" for the first byte that is
    not a hex digit, writes the byte [=], and goes on past it only: the two
    bytes stay in the line and are read again as ordinary input. *)
Theorem invalid_hex_keeps_eq (r : Reader) (x y : Z) (rest : list Z) (fuel m : nat)
    (Hline : line r = 61 :: x :: y :: rest) (Hlast : lastLen r = 0%nat)
    (Hbad : hexDigit x && hexDigit y = false) :
  let recorded := add (gerr r) (Some (ErrInvalidHex (if hexDigit x then y else x))) in
  let r' := set_line (set_gerr r recorded) (x :: y :: rest) in
  step r = Emit 61 r'
  /\ Read_loop (S fuel) r (S m)
     = match Read_loop fuel r' m with
       | Some (out, e, r'') => Some (61 :: out, e, r'')
       | None => None
       end.
Proof.
  cbn zeta.
  assert (Hs : step r = Emit 61 (set_line (set_gerr r (add (gerr r)
                 (Some (ErrInvalidHex (if hexDigit x then y else x))))) (x :: y :: rest))).
  { unfold step. rewrite Hline, Hlast. cbn [Nat.ltb Nat.leb]. unfold scan. rewrite Hline.
    cbn [Z.eqb Pos.eqb]. rewrite readHexByte_bad by done.
    unfold lastLen in *. cbn [set_gerr last]. by rewrite Hlast. }
  split; [done|]. cbn [Read_loop]. by rewrite Hs.
Qed.

(** The theorem on the line "=zz" of a fresh reader. *)
Lemma invalid_hex_keeps_eq_witness :
  let r := set_line (NewReader []) (B "=zz") in
  line r = 61 :: 122 :: 122 :: [] /\ lastLen r = 0%nat
  /\ hexDigit 122 && hexDigit 122 = false
  /\ step r = Emit 61 (set_line (set_gerr r (add (gerr r) (Some (ErrInvalidHex 122))))
                               [122; 122]).
Proof.
  split; [reflexivity|]. split; [reflexivity|]. split; [reflexivity|].
  exact (proj1 (invalid_hex_keeps_eq (set_line (NewReader []) (B "=zz")) 122 122 [] 0 0
                  eq_refl eq_refl eq_refl)).
Defined.

Lemma HasPrefix_nil (s : list Z) : HasPrefix s [] = true.
Proof. by destruct s. Qed.

Lemma startsEOL_spec (s : list Z) :
  negb (HasPrefix s lf) && negb (HasPrefix s crlf) = negb (startsEOL s).
Proof.
  unfold lf, crlf, startsEOL.
  destruct s as [|a [|b s]]; cbn [HasPrefix]; [done| |];
    rewrite ?HasPrefix_nil, ?(Z.eqb_sym 10), ?(Z.eqb_sym 13).
  - by destruct (a =? 10), (a =? 13).
  - by destruct (a =? 10), (a =? 13), (b =? 10).
Qed.

Lemma prepare_soft (whole body : list Z) :
  TrimRightFunc whole isQPDiscardWhitespace = body ++ [61] ->
  let stripped := drop (length body + 1) whole in
  whole = body ++ [61] ++ stripped
  /\ Forall (fun b => isQPDiscardWhitespace b = true) stripped
  /\ prepare whole
     = (body, if startsEOL stripped then None else Some (ErrInvalidBytesAfter stripped)).
Proof.
  intros Ht stripped.
  destruct (TrimRight_split whole isQPDiscardWhitespace) as (w & Hw & Hws).
  rewrite Ht in Hw.
  assert (Hs : stripped = w).
  { unfold stripped. rewrite Hw. rewrite drop_app_length'; [done|]. rewrite length_app. cbn. lia. }
  rewrite Hs. split; [by rewrite Hw, <- (assoc_L (++))|]. split; [done|].
  unfold prepare. rewrite Ht.
  assert (Hsuf : HasSuffix (body ++ [61]) softSuffix = true)
    by (apply HasSuffix_spec; by exists body).
  rewrite Hsuf.
  replace (drop (length (body ++ [61])) whole) with w
    by (rewrite Hw at 1; by rewrite drop_app_length).
  rewrite startsEOL_spec.
  replace (take (length (body ++ [61]) - 1) (body ++ [61])) with body.
  2:{ rewrite length_app. cbn [length]. replace (length body + 1 - 1)%nat with (length body) by lia.
      by rewrite take_app_length. }
  by destruct (startsEOL w).
Qed.



(** C2 does not hold as it is worded: the space and tab at the end of a line
    are not given back.  The input is the one of [TestStrictReader]. *)
Lemma strict_trims_trailing_space :
  forallb benign (B " A B        \r\n C ") = true
  /\ Copy (fun _ => 511%nat) (NewStrictReader (B " A B        \r\n C "))
     = Some (B " A B\r\n C", None)
  /\ B " A B\r\n C" <> B " A B        \r\n C ".
Proof.
  split; [reflexivity|]. split; [by_drain 100%nat | discriminate].
Qed.


Lemma spanLF_line (pre rest : list Z) :
  forallb (fun b => negb (b =? 10)) pre = true ->
  spanLF (pre ++ 10 :: rest) = (pre ++ [10], rest, true).
Proof.
  induction pre as [|b pre IH]; intros H; [done|].
  cbn [forallb] in H. apply andb_true_iff in H as [Hb Hp].
  cbn [app spanLF]. apply negb_true_iff in Hb. rewrite Hb, (IH Hp). done.
Qed.

Lemma spanLF_tail (pre : list Z) :
  forallb (fun b => negb (b =? 10)) pre = true -> spanLF pre = (pre, [], false).
Proof.
  induction pre as [|b pre IH]; intros H; [done|].
  cbn [forallb] in H. apply andb_true_iff in H as [Hb Hp].
  cbn [spanLF]. apply negb_true_iff in Hb. rewrite Hb, (IH Hp). done.
Qed.

Lemma ReadSlice_line (pre rest : list Z) :
  forallb (fun b => negb (b =? 10)) pre = true -> (length pre < bufSize)%nat ->
  ReadSlice (pre ++ 10 :: rest) = (pre ++ [10], None, rest).
Proof.
  intros H Hl. unfold ReadSlice. rewrite (spanLF_line _ _ H).
  assert (Hle : (length (pre ++ [10%Z]) <=? bufSize)%nat = true)
    by (apply Nat.leb_le; rewrite length_app; cbn; lia).
  by rewrite Hle.
Qed.

Lemma ReadSlice_tail (pre : list Z) :
  forallb (fun b => negb (b =? 10)) pre = true -> (length pre < bufSize)%nat ->
  ReadSlice pre = (pre, Some EOF, []).
Proof.
  intros H Hl. unfold ReadSlice. rewrite (spanLF_tail _ H). cbn [andb].
  assert (Hle : (bufSize <=? length pre)%nat = false) by (apply Nat.leb_gt; lia).
  by rewrite Hle.
Qed.

Lemma bodyByte_facts (b : Z) :
  bodyByte b = true -> b <> 61 /\ b <> 10 /\ benign b = true.
Proof.
  unfold bodyByte, benign. rewrite !andb_true_iff, !negb_true_iff, !Z.eqb_neq. tauto.
Qed.

Lemma cleanBody_noLF (l : list Z) :
  forallb bodyByte l = true -> forallb (fun b => negb (b =? 10)) l = true.
Proof.
  rewrite !forallb_forall. intros H b Hb. apply H, bodyByte_facts in Hb as (_ & Hb & _).
  by apply negb_true_iff, Z.eqb_neq.
Qed.

Lemma endsClean_trim (l : list Z) :
  endsClean l = true -> TrimRightFunc l isQPDiscardWhitespace = l.
Proof.
  unfold endsClean. destruct (rev l) as [|b t] eqn:E.
  - apply (f_equal (@rev Z)) in E. rewrite rev_involutive in E. by subst l.
  - apply (f_equal (@rev Z)) in E. rewrite rev_involutive in E. cbn in E. subst l.
    intros H. apply negb_true_iff in H. by apply TrimRight_keep.
Qed.

Lemma HasSuffix_snoc (l : list Z) (a b : Z) :
  HasSuffix (l ++ [a]) [b] = (b =? a).
Proof.
  unfold HasSuffix. rewrite rev_app_distr. cbn [rev app HasPrefix].
  destruct (rev l); cbn [HasPrefix]; by rewrite andb_true_r.
Qed.

Lemma HasSuffix_nil1 (b : Z) : HasSuffix [] [b] = false.
Proof. done. Qed.

Lemma clean_soft (l : list Z) :
  forallb bodyByte l = true -> HasSuffix l softSuffix = false.
Proof.
  intros H. destruct (rev l) as [|b t] eqn:E.
  - apply (f_equal (@rev Z)) in E. rewrite rev_involutive in E. by subst l.
  - apply (f_equal (@rev Z)) in E. rewrite rev_involutive in E. cbn in E. subst l.
    unfold softSuffix. rewrite HasSuffix_snoc.
    rewrite forallb_app in H. apply andb_true_iff in H as [_ H]. cbn in H.
    rewrite andb_true_r in H. apply bodyByte_facts in H as (H & _).
    apply Z.eqb_neq. congruence.
Qed.

Lemma clean_hasLF (l : list Z) :
  forallb bodyByte l = true -> HasSuffix l lf = false.
Proof.
  intros H. destruct (rev l) as [|b t] eqn:E.
  - apply (f_equal (@rev Z)) in E. rewrite rev_involutive in E. by subst l.
  - apply (f_equal (@rev Z)) in E. rewrite rev_involutive in E. cbn in E. subst l.
    unfold lf. rewrite HasSuffix_snoc.
    rewrite forallb_app in H. apply andb_true_iff in H as [_ H]. cbn in H.
    rewrite andb_true_r in H. apply bodyByte_facts in H as (_ & H & _).
    apply Z.eqb_neq. congruence.
Qed.

Lemma prepare_clean_tail (l : list Z) :
  forallb bodyByte l = true -> endsClean l = true -> prepare l = (l, None).
Proof.
  intros Hb He. unfold prepare. rewrite (endsClean_trim _ He), (clean_soft _ Hb).
  by rewrite (clean_hasLF _ Hb).
Qed.

Lemma prepare_clean_line (l : list Z) (c : bool) :
  forallb bodyByte l = true -> endsClean l = true ->
  prepare (l ++ eol c) = (l ++ eol c, None).
Proof.
  intros Hb He. unfold prepare.
  assert (Ht : TrimRightFunc (l ++ eol c) isQPDiscardWhitespace = l).
  { rewrite TrimRight_app_true; [by apply endsClean_trim|].
    destruct c; [apply isWS_crlf | apply isWS_lf]. }
  rewrite Ht, (clean_soft _ Hb).
  assert (HLF : HasSuffix (l ++ eol c) lf = true).
  { apply HasSuffix_spec. destruct c; cbn [eol].
    - exists (l ++ [13]). by rewrite <- (assoc_L (++)).
    - by exists l. }
  rewrite HLF.
  assert (HCR : HasSuffix (l ++ eol c) crlf = c).
  { destruct c; cbn [eol].
    - apply HasSuffix_spec. by exists l.
    - unfold HasSuffix, crlf. rewrite rev_app_distr. cbn [rev app HasPrefix].
      destruct (rev l) as [|b t] eqn:E; [done|]. cbn [HasPrefix].
      unfold endsClean in He. rewrite E in He. unfold isQPDiscardWhitespace in He.
      rewrite (Z.eqb_sym 13 b). destruct (b =? 13); [|done].
      by rewrite orb_true_r in He. }
  rewrite HCR. by destruct c.
Qed.

(** The bytes of a line go out as they are. *)
Lemma drain_plain (l : list Z) : forall (r : Reader) (f : nat) out e r',
  line r = l -> lastLen r = 0%nat -> forallb benign l = true ->
  drain f (set_line r []) = Some (out, e, r') ->
  drain (length l + f) r = Some (l ++ out, e, r').
Proof.
  induction l as [|b l IH]; intros r f out e r' Hl Hlast Hb Hd.
  - cbn [length Nat.add app]. replace r with (set_line r []); [done|].
    destruct r; cbn in *. by subst.
  - cbn [forallb] in Hb. apply andb_true_iff in Hb as [Hb Hbs].
    cbn [length Nat.add drain].
    assert (Hs : step r = Emit b (set_line r l)).
    { unfold step. rewrite Hl, Hlast. cbn [Nat.ltb Nat.leb]. unfold scan. rewrite Hl.
      unfold benign in Hb. apply andb_true_iff in Hb as [H61 Hb].
      apply negb_true_iff in H61. rewrite H61, Hlast. cbn [Nat.ltb Nat.leb].
      destruct ((b =? 9) || (b =? 13) || (b =? 10)) eqn:E1; [done|].
      apply orb_false_iff in E1 as [E1 E3]. apply orb_false_iff in E1 as [E1 E2].
      rewrite E1, E2, E3, !orb_false_r in Hb. apply andb_true_iff in Hb as [H1 H2].
      apply Z.leb_le in H1, H2.
      assert (Hr : (b <? 32) || (126 <? b) = false)
        by (apply orb_false_iff; split; apply Z.ltb_ge; lia).
      by rewrite Hr. }
    rewrite Hs. rewrite (IH (set_line r l) f out e r'); try done.
Qed.

Lemma idle_Fn (sel : selector) (r : Reader) : idle r -> Fn r = None.
Proof.
  intros (_ & _ & Hc & He). unfold Fn, getErr. rewrite Hc, He. by destruct (Fn_sel r).
Qed.

Lemma drain_text (ls : list (list Z * bool)) (tl : list Z) : forall (r : Reader),
  Forall (fun l => cleanBody (fst l) = true) ls -> cleanBody tl = true ->
  idle r -> br r = text ls tl ->
  exists f r', drain f r = Some (text ls tl, EOF, r') /\ lastLen r' = 0%nat.
Proof.
  assert (HB : bufSize = 4096%nat) by done.
  induction ls as [|[l c] ls IH]; intros r Hls Htl Hi Hbr.
  - unfold text in *. cbn [map concat app] in *.
    unfold cleanBody in Htl. apply andb_true_iff in Htl as [Htl Hlen].
    apply andb_true_iff in Htl as [Hb He]. apply Nat.ltb_lt in Hlen.
    pose proof (idle_Fn Strict r Hi) as HFn. destruct Hi as (Hl & Hlast & Hc & Herr).
    assert (Hacq : acquire r = mkReader (Fn_sel r) [] (addUnrecover (gerr r) (Some EOF))
                                        (Some EOF) tl (prev r) (last r)).
    { unfold acquire. rewrite Hbr, ReadSlice_tail by (try apply cleanBody_noLF; try lia; done).
      by rewrite prepare_clean_tail. }
    set (r1 := mkReader (Fn_sel r) [] (addUnrecover (gerr r) (Some EOF))
                        (Some EOF) tl (prev r) (last r)) in *.
    exists (S (length tl + 1)), (set_line r1 []). split; [|done].
    cbn [drain]. unfold step at 1. rewrite Hl, HFn, Hacq.
    pose proof (drain_plain tl r1 1 [] EOF (set_line r1 [])) as Hp.
    rewrite app_nil_r in Hp. apply Hp; try done.
    + rewrite forallb_forall in *. intros b Hin. by apply Hb, bodyByte_facts in Hin as (_&_&?).
    + cbn [drain]. unfold step, set_line. cbn [line Fn Fn_sel gerr r1].
      unfold Fn, getErr, addUnrecover. cbn. rewrite Hc. cbn. by destruct (Fn_sel r).
  - apply Forall_cons in Hls as [Hl0 Hls]. cbn [fst] in Hl0.
    unfold cleanBody in Hl0. apply andb_true_iff in Hl0 as [Hl0 Hlen].
    apply andb_true_iff in Hl0 as [Hb He]. apply Nat.ltb_lt in Hlen.
    pose proof (idle_Fn Strict r Hi) as HFn. destruct Hi as (Hl & Hlast & Hc & Herr).
    assert (Htxt : text ((l, c) :: ls) tl = (l ++ eol c) ++ text ls tl).
    { unfold text. cbn [map concat fst snd]. by rewrite <- !(assoc_L (++)). }
    assert (Hacq : acquire r = mkReader (Fn_sel r) (text ls tl) (gerr r)
                                        None (l ++ eol c) (prev r) (last r)).
    { unfold acquire. rewrite Hbr, Htxt.
      assert (Hrs : ReadSlice ((l ++ eol c) ++ text ls tl) = (l ++ eol c, None, text ls tl)).
      { destruct c; cbn [eol].
        - replace ((l ++ [13; 10]) ++ text ls tl) with ((l ++ [13]) ++ 10 :: text ls tl)
            by (by rewrite <- !(assoc_L (++))).
          replace (l ++ [13; 10]) with ((l ++ [13]) ++ [10]) by (by rewrite <- !(assoc_L (++))).
          apply ReadSlice_line.
          + rewrite forallb_app. apply andb_true_iff. split; [by apply cleanBody_noLF | done].
          + rewrite length_app. cbn. lia.
        - replace ((l ++ [10]) ++ text ls tl) with (l ++ 10 :: text ls tl)
            by (by rewrite <- !(assoc_L (++))).
          apply ReadSlice_line; [by apply cleanBody_noLF | lia]. }
      rewrite Hrs. by rewrite prepare_clean_line. }
    set (r1 := mkReader (Fn_sel r) (text ls tl) (gerr r) None (l ++ eol c) (prev r) (last r)) in *.
    destruct (IH (set_line r1 []) Hls Htl) as (f & r' & Hd & Hl').
    { done. }
    { done. }
    exists (S (length (l ++ eol c) + f)), r'. split; [|done].
    cbn [drain]. unfold step at 1. rewrite Hl, HFn, Hacq, Htxt.
    apply drain_plain; try done.
    rewrite forallb_app. apply andb_true_iff. split.
    + rewrite forallb_forall in *. intros b Hin. by apply Hb, bodyByte_facts in Hin as (_&_&?).
    + by destruct c.
Qed.

(** C2, as the code has it: a text made of lines whose bodies are [benign]
    bytes other than LF, do not end with space, tab or CR and are shorter
    than 4094 bytes, each ended by LF or CR LF, and of a last line of that
    kind without end of line, is given back as it is by the strict reader,
    with no error, whatever the sizes of the buffers it is read with. *)
Theorem strict_identity_on_clean_lines (ls : list (list Z * bool)) (tl : list Z) (sz : nat -> nat)
    (Hls : Forall (fun l => cleanBody (fst l) = true) ls) (Htl : cleanBody tl = true) :
  forallb benign (text ls tl) = true
  /\ Copy sz (NewStrictReader (text ls tl)) = Some (text ls tl, None).
Proof.
  split.
  - unfold text. rewrite forallb_app. apply andb_true_iff. split.
    + induction Hls as [|[l c] ls Hl Hls IH]; [done|]. cbn [map concat fst snd].
      rewrite !forallb_app, IH, andb_true_r. apply andb_true_iff. split; [|by destruct c].
      cbn [fst] in Hl. unfold cleanBody in Hl. rewrite !andb_true_iff in Hl.
      destruct Hl as [[Hb _] _]. rewrite forallb_forall in *.
      intros b Hin. by apply Hb, bodyByte_facts in Hin as (_&_&?).
    + unfold cleanBody in Htl. rewrite !andb_true_iff in Htl.
      destruct Htl as [[Hb _] _]. rewrite forallb_forall in *.
      intros b Hin. by apply Hb, bodyByte_facts in Hin as (_&_&?).
  - destruct (drain_text ls tl (NewStrictReader (text ls tl)) Hls Htl) as (f & r' & Hd & Hl).
    + done.
    + done.
    + apply (Copy_drain sz f _ _ EOF r'); [apply Inv_getReader | done | done].
Qed.

(** The theorem on a text of three lines and a last line, read byte by byte. *)
Lemma strict_identity_on_clean_lines_witness :
  let ls := [(B " A B", true); ([], false); (B "x\ry", false)] in
  Forall (fun l => cleanBody (fst l) = true) ls /\ cleanBody (B " C") = true
  /\ Copy (fun _ => 0%nat) (NewStrictReader (text ls (B " C")))
     = Some (B " A B\r\n\nx\ry\n C", None).
Proof.
  split; [repeat constructor|]. split; [reflexivity|].
  exact (proj2 (strict_identity_on_clean_lines
                  [(B " A B", true); ([], false); (B "x\ry", false)] (B " C")
                  (fun _ => 0%nat) ltac:(repeat constructor) eq_refl)).
Defined.

Lemma fits_spanLF (s : list Z) : forall (n : nat) l r found,
  fits_from n s = true -> spanLF s = (l, r, found) ->
  (n + length l < bufSize + (if found then 1 else 0))%nat /\ fits r = true.
Proof.
  induction s as [|b s IH]; intros n l r found Hf Hs.
  - cbn in Hs. injection Hs as <- <- <-. cbn [fits_from] in Hf. apply Nat.ltb_lt in Hf.
    cbn [length]. split; [lia | done].
  - cbn [fits_from spanLF] in *. destruct (b =? 10).
    + injection Hs as <- <- <-. apply andb_true_iff in Hf as [Hn Hf].
      apply Nat.ltb_lt in Hn. cbn [length]. split; [lia | done].
    + destruct (spanLF s) as [[l' r'] f'] eqn:E. injection Hs as <- <- <-.
      destruct (IH _ _ _ _ Hf eq_refl) as [Hn Hr]. cbn [length]. split; [lia | done].
Qed.

Lemma fits_ReadSlice (s l r : list Z) (e : option error) :
  fits s = true -> ReadSlice s = (l, e, r) ->
  (e = None \/ e = Some EOF) /\ fits r = true.
Proof.
  intros Hf. unfold ReadSlice. destruct (spanLF s) as [[l' r'] f'] eqn:E.
  destruct (fits_spanLF s 0 _ _ _ Hf E) as [Hn Hr]. cbn [Nat.add] in Hn.
  destruct (f' && (length l' <=? bufSize)%nat) eqn:E1.
  - intros [= <- <- <-]. split; [by left | done].
  - destruct (bufSize <=? length l')%nat eqn:E2.
    + apply Nat.leb_le in E2. destruct f'; [|lia]. cbn [andb] in E1. apply Nat.leb_gt in E1. lia.
    + intros [= <- <- <-]. split; [by right | done].
Qed.

Lemma calm_acquire (r : Reader) : calm r -> calm (acquire r).
Proof.
  intros (Hl & Hr & Hf & He). unfold acquire.
  destruct (ReadSlice (br r)) as [[l e] rest] eqn:E.
  destruct (fits_ReadSlice _ _ _ _ Hf E) as [He' Hrest].
  assert (Hg : err (addUnrecover (gerr r) e) = None \/ err (addUnrecover (gerr r) e) = Some EOF).
  { destruct He' as [-> | ->]; cbn; [done | by right]. }
  assert (He'' : e <> Some ErrBufferFull) by (destruct He' as [-> | ->]; done).
  assert (Hacq : forall A (x y : A), match e with Some ErrBufferFull => x | _ => y end = y).
  { intros. destruct He' as [-> | ->]; done. }
  rewrite Hacq. clear Hacq.
  destruct (prepare l) as [l' [e'|]] eqn:Ep.
  - apply (f_equal snd) in Ep. cbn in Ep. apply prepare_err in Ep as [s ->].
    unfold calm, lastLen in *. cbn [last rerr br gerr]. rewrite err_add. done.
  - unfold calm, lastLen in *. cbn [last rerr br gerr]. done.
Qed.

Lemma calm_scan (r : Reader) :
  calm r ->
  match scan r with
  | Continue r' | Emit _ r' => calm r'
  | _ => True
  end.
Proof.
  intros (Hl & Hr & Hf & He). unfold scan. destruct (line r) as [|b rest] eqn:El; [done|].
  unfold lastLen in *.
  destruct (b =? 61).
  - destruct (readHexByte rest) as [v|e] eqn:Eh.
    + cbn [set_line last line]. rewrite Hl. cbn [Nat.ltb Nat.leb].
      destruct (drop 2 (b :: rest)); [done|]. unfold calm, lastLen. by cbn [last rerr br gerr set_line set_gerr].
    + assert (Hno : match e, rerr r with
                    | ErrUnexpectedEOF, Some ErrBufferFull => true
                    | _, _ => false end = false).
      { destruct e; try done. destruct (rerr r) as [[]|]; done. }
      rewrite Hno. cbn [set_gerr last]. rewrite Hl. cbn [Nat.ltb Nat.leb].
      unfold calm, lastLen. cbn [last rerr br gerr set_line set_gerr]. by rewrite err_add.
  - destruct ((b =? 9) || (b =? 13) || (b =? 10)).
    + rewrite Hl. cbn [Nat.ltb Nat.leb]. unfold calm, lastLen. by cbn [last rerr br gerr set_line set_gerr].
    + destruct ((b <? 32) || (126 <? b)).
      * cbn [set_gerr last]. rewrite Hl. cbn [Nat.ltb Nat.leb].
        unfold calm, lastLen. cbn [last rerr br gerr set_line set_gerr]. by rewrite err_add.
      * rewrite Hl. cbn [Nat.ltb Nat.leb]. unfold calm, lastLen. by cbn [last rerr br gerr set_line set_gerr].
Qed.

Lemma scan_relax (r : Reader) : scan (relax r) = relaxed (scan r).
Proof.
  unfold scan. cbn [relax line]. destruct (line r) as [|b rest] eqn:El; [done|].
  destruct (b =? 61).
  - destruct (readHexByte rest) as [v|e].
    + cbn [rerr relax set_line lastLen last line]. unfold lastLen. cbn [last set_line].
      destruct (0 <? _)%nat; [done|]. by destruct (drop 2 _).
    + cbn [rerr relax]. destruct (match e with ErrUnexpectedEOF => _ | _ => _ end).
      * unfold lastLen. cbn [last line]. by destruct (0 <? _)%nat.
      * unfold lastLen. cbn [last set_gerr]. by destruct (0 <? _)%nat.
  - destruct ((b =? 9) || (b =? 13) || (b =? 10)).
    + unfold lastLen. cbn [last relax]. by destruct (0 <? _)%nat.
    + destruct ((b <? 32) || (126 <? b)).
      * unfold lastLen. cbn [last set_gerr relax]. by destruct (0 <? _)%nat.
      * unfold lastLen. cbn [last relax]. by destruct (0 <? _)%nat.
Qed.

Lemma acquire_relax (r : Reader) : acquire (relax r) = relax (acquire r).
Proof.
  unfold acquire. cbn [relax br gerr]. destruct (ReadSlice (br r)) as [[l e] rest].
  destruct e as [[]|]; try done; by destruct (prepare l) as [l' [e'|]].
Qed.

Lemma calm_step (r : Reader) :
  calm r ->
  match step r with
  | Continue r' | Emit _ r' => calm r'
  | _ => True
  end.
Proof.
  intros Hc. unfold step. destruct (line r) eqn:El.
  - destruct (Fn r); [done|]. by apply calm_acquire.
  - destruct Hc as (Hl & Hc). rewrite Hl. cbn [Nat.ltb Nat.leb]. by apply calm_scan.
Qed.

(** The strict reader stops where the lenient one goes on. *)
Lemma drain_relax (f : nat) : forall (r : Reader) outS eS rS f' outL eL rL,
  Inv r -> calm r -> Fn_sel r = Strict ->
  drain f r = Some (outS, eS, rS) -> drain f' (relax r) = Some (outL, eL, rL) ->
  outS `prefix_of` outL /\ (eS = EOF -> outS = outL).
Proof.
  induction f as [|f IH]; intros r outS eS rS f' outL eL rL HI Hc Hsel HS HL; [done|].
  cbn [drain] in HS. destruct f' as [|f']; [done|]. cbn [drain] in HL.
  pose proof (step_ok_step r HI) as Hok. pose proof (calm_step r Hc) as Hcs.
  assert (Hstep : line r <> [] \/ Fn r = None -> step (relax r) = relaxed (step r)).
  { intros Hcase. unfold step. cbn [relax line]. destruct (line r) eqn:El.
    - destruct Hcase as [|HFn]; [done|]. rewrite HFn.
      pose proof (Fn_None r HI HFn) as He. unfold Fn. cbn [Fn_sel relax gerr]. rewrite He.
      by rewrite acquire_relax.
    - unfold lastLen. cbn [last relax]. destruct (0 <? _)%nat eqn:E0.
      + destruct Hc as (Hl & _). unfold lastLen in Hl. rewrite Hl in E0. done.
      + apply scan_relax. }
  destruct (line r) as [|b0 l0] eqn:El.
  - destruct (Fn r) as [e|] eqn:HFn.
    + assert (Hs : step r = Return e) by (unfold step; by rewrite El, HFn).
      rewrite Hs in HS. injection HS as <- <- <-. split; [apply prefix_nil|].
      intros ->. destruct HI as (_ & _ & [H0 | (e' & H1 & H2)]).
      * unfold Fn in HFn. rewrite Hsel in HFn. unfold getErr in HFn. rewrite H0 in HFn.
        cbn in HFn. unfold step in HL. cbn [relax line] in HL. rewrite El in HL.
        unfold Fn in HL. cbn [relax Fn_sel gerr] in HL. rewrite HFn in HL. by injection HL as <- _ _.
      * unfold Fn in HFn. rewrite Hsel in HFn. unfold getErr in HFn. rewrite H1 in HFn.
        cbn in HFn. destruct (count (gerr r) =? 0)%nat eqn:E0; [|congruence].
        unfold step in HL. cbn [relax line] in HL. rewrite El in HL.
        unfold Fn in HL. cbn [relax Fn_sel gerr] in HL. rewrite HFn in HL. by injection HL as <- _ _.
    + rewrite Hstep in HL by (by right).
      assert (Hs : step r = Continue (acquire r)) by (unfold step; by rewrite El, HFn).
      rewrite Hs in *. cbn [relaxed step_ok] in *.
      destruct Hok as (HI1 & Hsel1 & _). eapply IH; try done. congruence.
  - rewrite Hstep in HL by (left; done).
    destruct (step r) as [e|r1|b r1|]; cbn [relaxed step_ok] in *; try done.
    + injection HS as <- <- <-. split; [apply prefix_nil|]. destruct Hok as [_ Hn]. rewrite El in Hn. done.
    + destruct Hok as (HI1 & Hsel1 & _). eapply IH; try done. congruence.
    + destruct Hok as (HI1 & Hsel1 & _).
      destruct (drain f r1) as [[[o1 e1] r2]|] eqn:E1; [|done].
      destruct (drain f' (relax r1)) as [[[o2 e2] r3]|] eqn:E2; [|done].
      injection HS as <- <- <-. injection HL as <- <- <-.
      destruct (IH _ _ _ _ _ _ _ _ HI1 Hcs ltac:(congruence) E1 E2) as [Hp Heq].
      split; [by apply prefix_cons | intros ?; f_equal; auto].
Qed.

Lemma drain_calm (f : nat) : forall (r : Reader) out e r',
  Inv r -> calm r -> drain f r = Some (out, e, r') -> calm r'.
Proof.
  induction f as [|f IH]; intros r out e r' HI Hc H; [done|]. cbn [drain] in H.
  pose proof (step_ok_step r HI) as Hok. pose proof (calm_step r Hc) as Hcs.
  destruct (step r) as [e0|r1|b r1|]; cbn [step_ok] in Hok.
  - by injection H as <- <- <-.
  - destruct Hok as (HI1 & _). by eapply IH.
  - destruct Hok as (HI1 & _). destruct (drain f r1) as [[[o1 e1] r2]|] eqn:E; [|done].
    injection H as <- <- <-. by eapply IH.
  - done.
Qed.

Lemma Inv_relax (r : Reader) : Inv r -> Inv (relax r).
Proof. done. Qed.

Lemma calm_relax (r : Reader) : calm r -> calm (relax r).
Proof. done. Qed.

Lemma calm_getReader (sel : selector) (s : list Z) : fits s = true -> calm (getReader sel s).
Proof. intros H. unfold calm, lastLen. cbn. split_and!; try done. by left. Qed.



Lemma grown_refl (g : RErr) : grown g g.
Proof. by exists []. Qed.

Lemma grown_add (g : RErr) (e : option error) : grown g (add g e).
Proof. by exists [e]. Qed.

Lemma grown_trans (g1 g2 g3 : RErr) : grown g1 g2 -> grown g2 g3 -> grown g1 g3.
Proof. intros [es1 ->] [es2 ->]. exists (es1 ++ es2). by rewrite foldl_app. Qed.

Lemma grown_err (g g' : RErr) : grown g g' -> err g' = err g.
Proof.
  intros [es ->]. revert g. induction es as [|e es IH]; intros g; [done|].
  cbn [foldl]. by rewrite IH, err_add.
Qed.

(** The first error recorded stays the first. *)
Lemma grown_first (g g' : RErr) :
  grown g g' -> (0 < count g)%nat ->
  (0 < count g')%nat /\ errs g' !! 0%nat = errs g !! 0%nat.
Proof.
  intros [es ->]. revert g. induction es as [|e es IH]; intros g Hc; [done|].
  cbn [foldl].
  assert (H : (0 < count (add g e))%nat /\ errs (add g e) !! 0%nat = errs g !! 0%nat).
  { unfold add. destruct e; [|done]. destruct (count g =? maxQPRErr)%nat; [done|].
    cbn [count errs]. split; [lia|]. apply list_lookup_insert_ne. lia. }
  destruct H as [H1 H2]. destruct (IH _ H1) as [H3 H4]. split; [done | congruence].
Qed.

Lemma quiet_trans (r0 r : Reader) (o : outcome) :
  br r = br r0 -> grown (gerr r0) (gerr r) -> quiet r o -> quiet r0 o.
Proof.
  unfold quiet. intros Hb Hg. destruct o; try done; intros [H1 H2];
    (split; [congruence | by eapply grown_trans]).
Qed.

Lemma scan_quiet (r : Reader) : quiet r (scan r).
Proof.
  unfold scan, quiet, set_line, set_gerr.
  repeat case_match; simplify_eq; cbn [gerr br]; try done;
    (split; [done|]); try first [apply grown_refl | apply grown_add].
  all: by eexists [Some _].
Qed.

Lemma fill_same (d : nat) : forall (a : nat) (r r1 : Reader),
  fill d a r = Some r1 -> gerr r1 = gerr r /\ br r1 = br r.
Proof.
  induction d as [|d IH]; intros a r r1; cbn [fill]; [by intros [= <-]|].
  destruct (line r); [done|]. destruct (_ <? _)%nat; [|done].
  intros H. by apply IH in H.
Qed.

Lemma straddle_quiet (r : Reader) : quiet r (straddle r).
Proof.
  assert (Hfin : forall b r1, br r1 = br r -> grown (gerr r) (gerr r1) ->
            quiet r (if (0 <? lastLen r1)%nat then Emit b (set_last r1 (lastFrom r1 1))
                     else scan r1)).
  { intros b r1 H1 H2. destruct (0 <? lastLen r1)%nat; [done|].
    eapply quiet_trans; [done | done | apply scan_quiet]. }
  assert (Hdec : forall r1, br r1 = br r -> grown (gerr r) (gerr r1) ->
    quiet r
      (if (0 <? lastLen r1)%nat then
        match fill (maxQPBuf - lastLen r) (lastLen r) r1 with
        | None => Panic
        | Some r1 =>
            let r2 := set_last r1 (0%nat, maxQPBuf) in
            match readHexByte (drop 1 (lastBytes r2)) with
            | inr e =>
                (fun (b : Z) (r : Reader) =>
                   if (0 <? lastLen r)%nat then Emit b (set_last r (lastFrom r 1)) else scan r)
                  61 (set_gerr r2 (add (gerr r2) (Some e)))
            | inl v =>
                (fun (b : Z) (r : Reader) =>
                   if (0 <? lastLen r)%nat then Emit b (set_last r (lastFrom r 1)) else scan r)
                  v (set_last r2 (lastFrom r2 2))
            end
        end
      else (fun (b : Z) (r : Reader) =>
                   if (0 <? lastLen r)%nat then Emit b (set_last r (lastFrom r 1)) else scan r)
             (lastAt r 0) r1)).
  { intros r1 H1 H2. destruct (0 <? lastLen r1)%nat;
      [|eapply quiet_trans; [exact H1 | exact H2 | apply scan_quiet]].
    destruct (fill _ _ r1) as [r2|] eqn:Ef; [|done].
    apply fill_same in Ef as [Eg Eb]. cbn zeta.
    destruct (readHexByte _); apply Hfin; cbn [gerr br set_gerr set_last]; try congruence.
    eapply grown_trans; [exact H2|]. rewrite Eg. apply grown_add. }
  unfold straddle. cbn zeta.
  destruct (lastAt r 0 =? 61); [|by apply Hfin; [|apply grown_refl]].
  destruct (lastLen r =? 1)%nat; [|by apply Hdec; [|apply grown_refl]].
  destruct (HasPrefix (line r) lf).
  { destruct (line _); [by split; [|apply grown_refl]|]. by apply Hdec; [|apply grown_refl]. }
  destruct (HasPrefix (line r) crlf).
  { destruct (line _); [by split; [|apply grown_refl]|]. by apply Hdec; [|apply grown_refl]. }
  destruct (line r) as [|x [|y l]] eqn:El; [done|by split; [|apply grown_refl]|].
  by apply Hdec; [|apply grown_refl].
Qed.

(** A turn of the loop on a line that is not empty. *)
Lemma step_quiet (r : Reader) : line r <> [] -> quiet r (step r).
Proof.
  intros Hl. unfold step. destruct (line r); [done|].
  destruct (0 <? lastLen r)%nat; [apply straddle_quiet | apply scan_quiet].
Qed.

Lemma acquire_eof_only (r : Reader) : eof_only r -> eof_only (acquire r).
Proof.
  unfold eof_only, acquire. intros H.
  destruct (ReadSlice (br r)) as [[l e] rest] eqn:E.
  destruct (ReadSlice_err _ _ _ _ E) as [->|[->|[-> _]]].
  - destruct (prepare l) as [l' [e'|]]; cbn [gerr addUnrecover]; rewrite ?err_add; done.
  - cbn [gerr]. by rewrite err_add.
  - destruct (prepare l) as [l' [e'|]]; cbn [gerr addUnrecover]; rewrite ?err_add; cbn; auto.
Qed.

Lemma step_eof_only (r : Reader) :
  eof_only r ->
  match step r with
  | Continue r' | Emit _ r' => eof_only r'
  | _ => True
  end.
Proof.
  intros H. destruct (line r) eqn:El.
  - unfold step. rewrite El. destruct (Fn r); [done|]. by apply acquire_eof_only.
  - pose proof (step_quiet r ltac:(by rewrite El)) as Hq. unfold quiet, eof_only in *.
    destruct (step r); try done; destruct Hq as [_ Hg]; by rewrite (grown_err _ _ Hg).
Qed.

Lemma eject_spec (m : nat) : forall (r : Reader) out r',
  eject m r = (out, r') ->
  (length out <= m)%nat /\ gerr r' = gerr r /\ prev r' = prev r /\ Fn_sel r' = Fn_sel r.
Proof.
  induction m as [|m IH]; intros r out r'; cbn [eject]; [intros [= <- <-]; by cbn|].
  destruct (0 <? lastLen r)%nat; [|intros [= <- <-]; cbn; split; [lia | done]].
  destruct (eject m (set_last r (lastFrom r 1))) as [o1 r1] eqn:E. intros [= <- <-].
  destruct (IH _ _ _ E) as (H1 & H2 & H3 & H4). cbn [length]. split; [lia | done].
Qed.

Lemma Inv_same (r r' : Reader) : gerr r' = gerr r -> prev r' = prev r -> Inv r -> Inv r'.
Proof. unfold Inv. by intros -> ->. Qed.

(** What [Read] gives when it returns: no more bytes than the buffer
    holds, and a reader that can be read again. *)
Lemma Read_loop_bound (f : nat) : forall (r : Reader) (m : nat) out e r',
  Inv r -> Read_loop f r m = Some (out, e, r') ->
  (length out <= m)%nat /\ Inv r' /\ Fn_sel r' = Fn_sel r
  /\ (eof_only r -> eof_only r'
                    /\ (Fn_sel r = Lenient -> e = None \/ e = Some EOF)).
Proof.
  induction f as [|f IH]; intros r m out e r' HI H.
  - destruct m; [|done]. cbn in H. injection H as <- <- <-. cbn. split_and!; auto.
  - destruct m as [|m]; [cbn in H; injection H as <- <- <-; cbn; split_and!; auto|].
    cbn [Read_loop] in H. pose proof (step_ok_step r HI) as Hok.
    pose proof (step_eof_only r) as He.
    destruct (step r) as [e0|r1|b r1|] eqn:Es; cbn [step_ok] in Hok.
    + destruct (eject (S m) r) as [o1 r1] eqn:Ej. injection H as <- <- <-.
      destruct (eject_spec _ _ _ _ Ej) as (H1 & H2 & H3 & H4).
      split; [done|]. split; [by eapply Inv_same|]. split; [done|].
      intros Heo. unfold eof_only in *. rewrite H2. split; [done|].
      intros Hl. destruct Hok as [HFn _]. unfold Fn in HFn. rewrite Hl in HFn.
      rewrite HFn in Heo. destruct Heo as [?|[= ->]]; [done | by right].
    + destruct Hok as (HI1 & Hs & _).
      destruct (IH _ _ _ _ _ HI1 H) as (H1 & H2 & H3 & H4).
      split; [done|]. split; [done|]. split; [congruence|].
      intros Heo. destruct (H4 (He Heo)) as [H5 H6]. split; [done|].
      intros Hl. apply H6. congruence.
    + destruct Hok as (HI1 & Hs & _).
      destruct (Read_loop f r1 m) as [[[o1 e1] r2]|] eqn:E1; [|done].
      injection H as <- <- <-.
      destruct (IH _ _ _ _ _ HI1 E1) as (H1 & H2 & H3 & H4). cbn [length].
      split; [lia|]. split; [done|]. split; [congruence|].
      intros Heo. destruct (H4 (He Heo)) as [H5 H6]. split; [done|].
      intros Hl. apply H6. congruence.
    + done.
Qed.

(** X12: [Read] of the quoted-printable reader never panics and always
    returns, whatever the source holds and whatever the size of the buffer
    is: it writes no more bytes than the buffer holds, and leaves a reader
    that can be read again. *)
Theorem Read_never_panics (sel : selector) (s : list Z) :
  Inv (getReader sel s)
  /\ forall (r : Reader) (m : nat),
       Inv r ->
       exists out e r',
         Read r m = Some (out, e, r') /\ (length out <= m)%nat
         /\ Inv r' /\ Fn_sel r' = Fn_sel r.
Proof.
  split; [apply Inv_getReader|]. intros r m HI.
  destruct (Read_loop_total (turns r m) r m HI (turns_enough r m)) as [[[out e] r'] H].
  exists out, e, r'. split; [done|].
  destruct (Read_loop_bound _ _ _ _ _ _ HI H) as (H1 & H2 & H3 & _). done.
Qed.

(** X13: over a source that does not fail, the lenient reader returns no
    error but [io.EOF]: the errors of decoding are recorded and never
    returned. *)
Theorem lenient_returns_eof_only (r : Reader) (m : nat) (out : list Z)
    (e : option error) (r' : Reader)
    (HI : Inv r) (Hsel : Fn_sel r = Lenient) (Herr : eof_only r)
    (Hread : Read r m = Some (out, e, r')) :
  (e = None \/ e = Some EOF) /\ Inv r' /\ Fn_sel r' = Lenient /\ eof_only r'.
Proof.
  destruct (Read_loop_bound _ _ _ _ _ _ HI Hread) as (_ & H2 & H3 & H4).
  destruct (H4 Herr) as [H5 H6]. split; [by apply H6|]. split; [done|].
  split; [congruence | done].
Qed.

(** The theorem on an input with an escape that is no hex, a byte that must
    be escaped and a soft line break followed by a space. *)
Lemma lenient_returns_eof_only_witness :
  let r := NewReader (B "a=zz\x80= \nb") in
  Inv r /\ Fn_sel r = Lenient /\ eof_only r
  /\ exists r', Read r 512 = Some (B "a=zz\x80b", Some EOF, r') /\ eof_only r'.
Proof.
  cbv zeta.
  assert (HI : Inv (NewReader (B "a=zz\x80= \nb"))) by apply Inv_getReader.
  assert (He : eof_only (NewReader (B "a=zz\x80= \nb"))) by (by left).
  split; [exact HI|]. split; [reflexivity|]. split; [exact He|].
  eexists. 
  assert (Hr : Read (NewReader (B "a=zz\x80= \nb")) 512 = Some (B "a=zz\x80b", Some EOF, _))
    by (vm_compute; reflexivity).
  split; [exact Hr|].
  exact (proj2 (proj2 (proj2 (lenient_returns_eof_only _ 512 _ _ _ HI eq_refl He Hr)))).
Defined.

Lemma eject_keeps (m : nat) : forall (r : Reader) out r',
  eject m r = (out, r') ->
  (length out <= lastLen r)%nat /\ (length out <= m)%nat
  /\ line r' = line r /\ br r' = br r /\ gerr r' = gerr r /\ Fn_sel r' = Fn_sel r
  /\ prev r' = prev r /\ (lastLen r' <= lastLen r)%nat.
Proof.
  induction m as [|m IH]; intros r out r'; cbn [eject].
  { intros [= <- <-]. cbn. split_and!; try done; lia. }
  destruct (Nat.ltb_spec 0 (lastLen r)); [|intros [= <- <-]; cbn; split_and!; try done; lia].
  destruct (eject m (set_last r (lastFrom r 1))) as [o1 r1] eqn:E. intros [= <- <-].
  destruct (IH _ _ _ E) as (H1 & H2 & H3 & H4 & H5 & H6 & H7 & H8). cbn [length].
  unfold lastLen, lastFrom in *. cbn [last set_last fst snd] in *.
  split_and!; try done; lia.
Qed.

(** When [Read] returns an error, the line is used up and the error is the
    one that [Fn] gives. *)
Lemma Read_loop_err (f : nat) : forall (r : Reader) (m : nat) out e r',
  Inv r -> Read_loop f r m = Some (out, Some e, r') ->
  Inv r' /\ line r' = [] /\ Fn r' = Some e.
Proof.
  induction f as [|f IH]; intros r m out e r' HI H.
  - by destruct m.
  - destruct m as [|m]; [done|]. cbn [Read_loop] in H.
    pose proof (step_ok_step r HI) as Hok.
    destruct (step r) as [e0|r1|b r1|] eqn:Es; cbn [step_ok] in Hok.
    + destruct (eject (S m) r) as [o1 r1] eqn:Ej. injection H as <- <- <-.
      destruct (eject_keeps _ _ _ _ Ej) as (_ & _ & H3 & H4 & H5 & H6 & H7 & _).
      destruct Hok as [HFn Hl]. split; [by eapply Inv_same|]. split; [congruence|].
      unfold Fn in *. by rewrite H6, H5.
    + destruct Hok as (HI1 & _). by eapply IH.
    + destruct Hok as (HI1 & _).
      destruct (Read_loop f r1 m) as [[[o1 e1] r2]|] eqn:E1; [|done].
      injection H as <- -> <-. by eapply IH.
    + done.
Qed.

(** X14: an error that [Read] has returned is returned again by every
    [Read] that follows with a buffer that is not empty; such a [Read]
    takes nothing more from the source, and writes nothing but bytes of an
    escape that were held back. *)
Theorem error_is_sticky (r : Reader) (m : nat) (out : list Z) (e : error) (r' : Reader)
    (m' : nat) (HI : Inv r) (Hread : Read r m = Some (out, Some e, r')) (Hm : (0 < m')%nat) :
  exists out' r'',
    Read r' m' = Some (out', Some e, r'')
    /\ br r'' = br r' /\ line r'' = [] /\ (length out' <= lastLen r')%nat.
Proof.
  destruct (Read_loop_err _ _ _ _ _ _ HI Hread) as (HI' & Hl & HFn).
  destruct m' as [|k]; [lia|].
  unfold Read, turns. replace (2 * length (br r') + length (line r') + S k + 2)%nat
    with (S (2 * length (br r') + length (line r') + S k + 1)) by lia.
  cbn [Read_loop]. unfold step. rewrite Hl, HFn.
  destruct (eject (S k) r') as [o1 r1] eqn:Ej.
  destruct (eject_keeps _ _ _ _ Ej) as (H1 & _ & H3 & H4 & _).
  exists o1, r1. split; [done|]. split; [done|]. split; [congruence | done].
Qed.

(** The theorem on the input of [TestStrictReader] that ends with [=]. *)
Lemma error_is_sticky_witness :
  let r := NewStrictReader (B "foo=zz") in
  exists r' r'',
    Inv r
    /\ Read r 512 = Some (B "foo=zz", Some (ErrInvalidHex 122), r')
    /\ Read r' 512 = Some ([], Some (ErrInvalidHex 122), r'')
    /\ br r'' = br r'.
Proof.
  cbv zeta. eexists. 
  assert (HI : Inv (NewStrictReader (B "foo=zz"))) by apply Inv_getReader.
  assert (Hr : Read (NewStrictReader (B "foo=zz")) 512
               = Some (B "foo=zz", Some (ErrInvalidHex 122), _))
    by (vm_compute; reflexivity).
  assert (Hm : (0 < 512)%nat) by lia.
  destruct (error_is_sticky _ 512 _ _ _ 512%nat HI Hr Hm) as (o & r2 & H1 & H2 & H3 & H4).
  exists r2. split; [exact HI|]. split; [exact Hr|].
  assert (Ho : o = []) by (destruct o; [reflexivity | cbn in H4; lia]).
  rewrite Ho in H1. split; [exact H1 | exact H2].
Defined.

(** [Read] in terms of the run of the loop, with the bytes held back that
    the last [Read] ejects. *)
Lemma Read_loop_drain_eject (f : nat) : forall (r : Reader) (m : nat) out e r',
  Inv r -> drain f r = Some (out, e, r') ->
  ((m <= length out)%nat ->
     exists rm, Read_loop f r m = Some (take m out, None, rm)
                /\ drain f rm = Some (drop m out, e, r') /\ Inv rm)
  /\ ((length out < m)%nat ->
        Read_loop f r m = Some (out ++ fst (eject (m - length out) r'), Some e,
                                snd (eject (m - length out) r'))).
Proof.
  induction f as [|f IH]; intros r m out e r' HI H; [done|].
  destruct m as [|m].
  { split; [|lia]. intros _. exists r. by rewrite take_0, drop_0. }
  cbn [drain Read_loop] in *.
  pose proof (step_ok_step r HI) as Hs. destruct (step r) as [e0|r1|b r1|]; cbn [step_ok] in Hs.
  - injection H as <- <- <-. split; [cbn; lia|]. intros _.
    cbn [length app]. rewrite Nat.sub_0_r. by destruct (eject (S m) r).
  - destruct Hs as (HI1 & _). destruct (IH r1 (S m) _ _ _ HI1 H) as [H1 H2].
    split; [|done]. intros Hm. destruct (H1 Hm) as (rm & Hr & Hd & HIm).
    exists rm. split_and!; try done. apply (drain_mono f (S f) rm _ Hd). lia.
  - destruct Hs as (HI1 & _).
    destruct (drain f r1) as [[[o1 e1] r2]|] eqn:E; [|done]. injection H as <- <- <-.
    destruct (IH r1 m _ _ _ HI1 E) as [H1 H2]. cbn [length]. split.
    + intros Hm. destruct (H1 ltac:(lia)) as (rm & Hr & Hd & HIm).
      exists rm. rewrite Hr. cbn [take drop]. split_and!; try done.
      apply (drain_mono f (S f) rm _ Hd). lia.
    + intros Hm. rewrite H2 by lia. by replace (S m - S (length o1))%nat with (m - length o1)%nat by lia.
  - done.
Qed.

Lemma Read_drain_eject (f : nat) (r : Reader) (m : nat) out e r' :
  Inv r -> drain f r = Some (out, e, r') ->
  ((m <= length out)%nat ->
     exists rm, Read r m = Some (take m out, None, rm)
                /\ drain f rm = Some (drop m out, e, r') /\ Inv rm)
  /\ ((length out < m)%nat ->
        Read r m = Some (out ++ fst (eject (m - length out) r'), Some e,
                         snd (eject (m - length out) r'))).
Proof.
  intros HI H. destruct (Read_loop_drain_eject f r m _ _ _ HI H) as [H1 H2].
  destruct (Read_loop_total (turns r m) r m HI (turns_enough r m)) as [x Hx].
  assert (Heq : forall y, Read_loop f r m = Some y -> Read r m = Some y).
  { intros y Hy. unfold Read. rewrite Hx.
    destruct (Nat.le_ge_cases f (turns r m)).
    - by rewrite (Read_loop_mono _ _ _ _ _ Hy H0) in Hx.
    - by rewrite (Read_loop_mono _ _ _ _ _ Hx H0) in Hy. }
  split.
  - intros Hm. destruct (H1 Hm) as (rm & Hr & Hd & HIm). exists rm. by rewrite (Heq _ Hr).
  - intros Hm. by rewrite (Heq _ (H2 Hm)).
Qed.

Lemma Copy_loop_drain_eject (sz : nat -> nat) (n : nat) :
  forall (i f : nat) (r : Reader) out e r',
  Inv r -> drain f r = Some (out, e, r') -> (length out < n)%nat ->
  exists ej, Copy_loop n sz i r = Some (out ++ ej, ioerr e)
             /\ (length ej <= lastLen r')%nat.
Proof.
  induction n as [|n IH]; intros i f r out e r' HI H Hn; [lia|].
  cbn [Copy_loop]. destruct (Read_drain_eject f r (S (sz i)) _ _ _ HI H) as [H1 H2].
  destruct (Nat.le_gt_cases (S (sz i)) (length out)) as [Hm|Hm].
  - destruct (H1 Hm) as (rm & -> & Hd & HIm).
    destruct (IH (S i) f rm _ _ _ HIm Hd) as (ej & -> & Hej).
    + rewrite length_drop. lia.
    + exists ej. split; [|done]. by rewrite (assoc_L (++)), take_drop.
  - rewrite (H2 Hm).
    destruct (eject (S (sz i) - length out) r') as [ej r2] eqn:Ej. cbn [fst snd].
    exists ej. split; [by destruct e|]. by apply eject_keeps in Ej as (? & _).
Qed.

(** [io.Copy] always ends: it gives the bytes of the run of the loop, then
    the bytes held back, and the error of [Fn]. *)
Lemma Copy_total (sz : nat -> nat) (r : Reader) :
  Inv r ->
  exists f out e r' ej,
    drain f r = Some (out, e, r') /\ Copy sz r = Some (out ++ ej, ioerr e)
    /\ (length ej <= lastLen r')%nat.
Proof.
  intros HI.
  destruct (drain_total (S (mu r + nu r)) r HI ltac:(lia)) as [[[out e] r'] Hd].
  destruct (drain_facts _ _ _ _ _ HI Hd) as (Hn & _).
  destruct (Copy_loop_drain_eject sz (length (br r) + length (line r) + lastLen r + 2)
              0 _ r out e r' HI Hd) as (ej & Hc & Hej).
  { unfold nu in Hn. lia. }
  exists (S (mu r + nu r)), out, e, r', ej. done.
Qed.

(** Once the strict reader has recorded an error, it takes no more lines
    from the source, and the error it returns is that one. *)
Lemma drain_stuck (f : nat) : forall (r : Reader) out e r',
  Inv r -> Fn_sel r = Strict -> (0 < count (gerr r))%nat ->
  drain f r = Some (out, e, r') ->
  br r' = br r /\ errs (gerr r') !! 0%nat = errs (gerr r) !! 0%nat
  /\ (0 < count (gerr r'))%nat
  /\ (length out + lastLen r' <= length (line r) + lastLen r)%nat.
Proof.
  induction f as [|f IH]; intros r out e r' HI Hsel Hc H; [done|]. cbn [drain] in H.
  pose proof (step_ok_step r HI) as Hs.
  destruct (line r) as [|x l] eqn:El.
  - unfold step in *. rewrite El in *.
    destruct (Fn r) as [e0|] eqn:EF.
    + injection H as <- <- <-. cbn. split_and!; try done; lia.
    + exfalso. unfold Fn, getErr in EF. rewrite Hsel in EF.
      destruct HI as (_ & _ & [H0|(e0 & H0 & _)]); [lia|].
      destruct (Nat.eqb_spec (count (gerr r)) 0); [lia|]. by rewrite H0 in EF.
  - pose proof (step_quiet r ltac:(by rewrite El)) as Hq. rewrite <- El.
    destruct (step r) as [e0|r1|b r1|]; cbn [step_ok quiet] in *.
    + by destruct Hs as [_ Hs]; rewrite El in Hs.
    + destruct Hs as (HI1 & Hs1 & Hmu & Hnu). destruct Hq as [Hb Hg].
      destruct (grown_first _ _ Hg Hc) as [Hc1 He1].
      destruct (IH _ _ _ _ HI1 ltac:(congruence) Hc1 H) as (H1 & H2 & H3 & H4).
      unfold nu in Hnu. rewrite Hb in Hnu. split_and!; try congruence. lia.
    + destruct Hs as (HI1 & Hs1 & Hmu & Hnu). destruct Hq as [Hb Hg].
      destruct (grown_first _ _ Hg Hc) as [Hc1 He1].
      destruct (drain f r1) as [[[o1 e1] r2]|] eqn:E; [|done]. injection H as <- <- <-.
      destruct (IH _ _ _ _ HI1 ltac:(congruence) Hc1 E) as (H1 & H2 & H3 & H4).
      unfold nu in Hnu. rewrite Hb in Hnu. cbn [length]. split_and!; try congruence. lia.
    + done.
Qed.

Lemma spanLF_long (n : nat) : forall (s l r : list Z) (found : bool),
  (n <= length s)%nat -> forallb (fun b => negb (b =? 10)) (take n s) = true ->
  spanLF s = (l, r, found) -> (n <= length l)%nat /\ (found = true -> n < length l)%nat.
Proof.
  induction n as [|n IH]; intros s l r found Hn Hs Hsp.
  - split; [lia|]. intros Hf. subst found. destruct s as [|b s]; [by cbn in Hsp|].
    cbn [spanLF] in Hsp. destruct (b =? 10); [simplify_eq; cbn; lia|].
    destruct (spanLF s) as [[l' r'] f']. simplify_eq. cbn. lia.
  - destruct s as [|b s]; [cbn in Hn; lia|]. cbn [take forallb] in Hs.
    apply andb_true_iff in Hs as [Hb Hs]. apply negb_true_iff in Hb.
    cbn [spanLF] in Hsp. rewrite Hb in Hsp.
    destruct (spanLF s) as [[l' r'] f'] eqn:E. injection Hsp as <- <- <-.
    cbn [length] in *. destruct (IH s l' r' f' ltac:(lia) Hs E) as [H1 H2].
    split; [lia|]. intros Hf. specialize (H2 Hf). lia.
Qed.

Lemma ReadSlice_long (s : list Z) :
  (bufSize <= length s)%nat ->
  forallb (fun b => negb (b =? 10)) (take bufSize s) = true ->
  ReadSlice s = (take bufSize s, Some ErrBufferFull, drop bufSize s).
Proof.
  intros Hn Hs. unfold ReadSlice. destruct (spanLF s) as [[l r] found] eqn:E.
  destruct (spanLF_long _ _ _ _ _ Hn Hs E) as [H1 H2].
  assert (Hf : found && (length l <=? bufSize)%nat = false).
  { destruct found; [|done]. cbn. apply Nat.leb_gt. by apply H2. }
  rewrite Hf. by destruct (Nat.leb_spec bufSize (length l)); [|lia].
Qed.

(** X15: the strict reader cannot read a line of 4096 bytes or more: when
    the source has no LF in its first 4096 bytes, [io.Copy] ends with
    [bufio.ErrBufferFull], and with no more than 4096 bytes copied. *)
Theorem strict_long_line_fails (s : list Z) (sz : nat -> nat)
    (Hlen : (bufSize <= length s)%nat)
    (Hnolf : forallb (fun b => negb (b =? 10)) (take bufSize s) = true) :
  exists out,
    Copy sz (NewStrictReader s) = Some (out, Some ErrBufferFull)
    /\ (length out <= bufSize)%nat.
Proof.
  pose proof (Inv_getReader Strict s) as HI. fold (NewStrictReader s) in HI.
  destruct (Copy_total sz _ HI) as (f & out & e & r' & ej & Hd & Hc & Hej).
  destruct f as [|f]; [done|]. cbn [drain] in Hd.
  assert (Hst : step (NewStrictReader s)
                = Continue (mkReader Strict (drop bufSize s)
                              (add newRErr (Some ErrBufferFull)) (Some ErrBufferFull)
                              (take bufSize s) (replicate 4 0) (0%nat, 0%nat))).
  { unfold step, NewStrictReader, getReader. cbn [line Fn Fn_sel gerr].
    unfold getErr. cbn [count newRErr err Nat.eqb]. unfold acquire. cbn [br].
    by rewrite (ReadSlice_long s Hlen Hnolf). }
  rewrite Hst in Hd.
  pose proof (step_ok_step _ HI) as Hok. rewrite Hst in Hok. destruct Hok as (HI1 & _).
  destruct (drain_stuck _ _ _ _ _ HI1 eq_refl ltac:(cbn; lia) Hd) as (Hb & He & Hc1 & Hlen1).
  destruct (drain_facts _ _ _ _ _ HI1 Hd) as (_ & _ & HFn & _ & Hsel).
  exists (out ++ ej). split.
  - rewrite Hc. f_equal. f_equal. unfold Fn in HFn. cbn [Fn_sel] in Hsel. rewrite Hsel in HFn.
    unfold getErr in HFn. destruct (Nat.eqb_spec (count (gerr r')) 0); [lia|].
    rewrite He in HFn. cbn in HFn. by injection HFn as <-.
  - rewrite length_app. unfold lastLen at 2 in Hlen1.
    cbn [line last fst snd Nat.sub] in Hlen1. rewrite length_take in Hlen1. lia.
Qed.

(** The theorem on 4096 bytes [A], read into buffers of one byte. *)
Lemma strict_long_line_fails_witness :
  (bufSize <= length (replicate 4096 65))%nat
  /\ exists out,
       Copy (fun _ => 0%nat) (NewStrictReader (replicate 4096 65))
       = Some (out, Some ErrBufferFull) /\ (length out <= bufSize)%nat.
Proof.
  assert (H1 : (bufSize <= length (replicate 4096 65))%nat) by (vm_compute; lia).
  assert (H2 : forallb (fun b => negb (b =? 10)) (take bufSize (replicate 4096 65)) = true)
    by (vm_compute; reflexivity).
  split; [exact H1|].
  exact (strict_long_line_fails (replicate 4096 65) (fun _ => 0%nat) H1 H2).
Defined.

Lemma byte_all (P : Z -> bool) :
  forallb P (map Z.of_nat (seq 0 256)) = true -> forall b, 0 <= b < 256 -> P b = true.
Proof.
  intros H b Hb. rewrite forallb_forall in H. apply H.
  replace b with (Z.of_nat (Z.to_nat b)) by lia. apply in_map, in_seq. lia.
Qed.

Lemma readHexByte_hexOf (u1 u2 : bool) (b : Z) (rest : list Z) :
  0 <= b < 256 -> readHexByte (hexOf u1 (b / 16) :: hexOf u2 (b mod 16) :: rest) = inl b.
Proof.
  intros Hb.
  change (readHexByte (hexOf u1 (b / 16) :: hexOf u2 (b mod 16) :: rest))
    with (readHexByte [hexOf u1 (b / 16); hexOf u2 (b mod 16)]).
  pose proof (byte_all (fun b => match readHexByte [hexOf u1 (b / 16); hexOf u2 (b mod 16)] with
                                 | inl v => v =? b
                                 | inr _ => false
                                 end)) as H.
  cbv beta in H. specialize (H ltac:(destruct u1, u2; vm_compute; reflexivity) b Hb).
  destruct (readHexByte _); [|done]. apply Z.eqb_eq in H. by subst.
Qed.

Lemma hexOf_range (u : bool) (n : Z) : 0 <= n -> 48 <= hexOf u n.
Proof. unfold hexOf. destruct (Z.ltb_spec n 10), u; lia. Qed.

Lemma hexOf_not61 (u : bool) (n : Z) : 0 <= n -> hexOf u n <> 61.
Proof. unfold hexOf. destruct (Z.ltb_spec n 10), u; lia. Qed.

Lemma itemOK_Hex (u1 u2 : bool) (b : Z) : itemOK (Hex u1 u2 b) = true -> 0 <= b < 256.
Proof. cbn. intros H. apply andb_true_iff in H as [H1 H2]. lia. Qed.

Lemma encode_cons (i : item) (l : list item) : encode (i :: l) = enc i ++ encode l.
Proof. done. Qed.

Lemma encode_app (l1 l2 : list item) : encode (l1 ++ l2) = encode l1 ++ encode l2.
Proof. unfold encode. by rewrite map_app, concat_app. Qed.

Lemma encode_noLF (l : list item) :
  forallb itemOK l = true -> forallb (fun b => negb (b =? 10)) (encode l) = true.
Proof.
  induction l as [|i l IH]; [done|]. cbn [forallb]. intros H.
  apply andb_true_iff in H as [Hi Hl]. rewrite encode_cons, forallb_app, (IH Hl), andb_true_r.
  destruct i as [b|u1 u2 b]; cbn [enc forallb].
  - apply bodyByte_facts in Hi as (_ & Hi & _). rewrite andb_true_r.
    by apply negb_true_iff, Z.eqb_neq.
  - apply itemOK_Hex in Hi.
    pose proof (hexOf_range u1 (b / 16) ltac:(apply Z.div_pos; lia)).
    pose proof (hexOf_range u2 (b mod 16) ltac:(apply Z.mod_pos_bound; lia)).
    rewrite !andb_true_iff, !negb_true_iff, !Z.eqb_neq. lia.
Qed.

(** An encoded line does not end with [=]. *)
Lemma encode_soft (l : list item) :
  forallb itemOK l = true -> HasSuffix (encode l) softSuffix = false.
Proof.
  destruct l as [|i l _] using rev_ind; [done|]. intros H.
  rewrite forallb_app in H. apply andb_true_iff in H as [_ H]. cbn [forallb] in H.
  rewrite andb_true_r in H. rewrite encode_app. unfold encode at 2. cbn [map concat].
  rewrite app_nil_r. unfold softSuffix. destruct i as [b|u1 u2 b]; cbn [enc].
  - rewrite HasSuffix_snoc. apply bodyByte_facts in H as (H & _).
    apply Z.eqb_neq. congruence.
  - apply itemOK_Hex in H.
    replace (encode l ++ [61; hexOf u1 (b / 16); hexOf u2 (b mod 16)])
      with ((encode l ++ [61; hexOf u1 (b / 16)]) ++ [hexOf u2 (b mod 16)])
      by (by rewrite <- (assoc_L (++))).
    rewrite HasSuffix_snoc. apply Z.eqb_neq.
    pose proof (hexOf_not61 u2 (b mod 16) ltac:(apply Z.mod_pos_bound; lia)). congruence.
Qed.

Lemma endsClean_noLF (l : list Z) : endsClean l = true -> HasSuffix l lf = false.
Proof.
  unfold endsClean. destruct (rev l) as [|b t] eqn:E.
  - apply (f_equal (@rev Z)) in E. rewrite rev_involutive in E. by subst l.
  - apply (f_equal (@rev Z)) in E. rewrite rev_involutive in E. cbn in E. subst l.
    unfold lf. rewrite HasSuffix_snoc. unfold isQPDiscardWhitespace.
    intros H. apply negb_true_iff in H. rewrite (Z.eqb_sym 10 b).
    by destruct (b =? 10).
Qed.

Lemma prepare_last (l : list Z) :
  endsClean l = true -> HasSuffix l softSuffix = false -> prepare l = (l, None).
Proof.
  intros He Hs. unfold prepare. by rewrite (endsClean_trim _ He), Hs, (endsClean_noLF _ He).
Qed.

Lemma prepare_hard (l : list Z) (c : bool) :
  endsClean l = true -> HasSuffix l softSuffix = false ->
  prepare (l ++ eol c) = (l ++ eol c, None).
Proof.
  intros He Hs. unfold prepare.
  assert (Ht : TrimRightFunc (l ++ eol c) isQPDiscardWhitespace = l).
  { rewrite TrimRight_app_true; [by apply endsClean_trim|].
    destruct c; [apply isWS_crlf | apply isWS_lf]. }
  rewrite Ht, Hs.
  assert (HLF : HasSuffix (l ++ eol c) lf = true).
  { apply HasSuffix_spec. destruct c; cbn [eol].
    - exists (l ++ [13]). by rewrite <- (assoc_L (++)).
    - by exists l. }
  rewrite HLF.
  assert (HCR : HasSuffix (l ++ eol c) crlf = c).
  { destruct c; cbn [eol].
    - apply HasSuffix_spec. by exists l.
    - unfold HasSuffix, crlf. rewrite rev_app_distr. cbn [rev app HasPrefix].
      destruct (rev l) as [|b t] eqn:E; [done|]. cbn [HasPrefix].
      unfold endsClean in He. rewrite E in He. unfold isQPDiscardWhitespace in He.
      rewrite (Z.eqb_sym 13 b). destruct (b =? 13); [|done].
      by rewrite orb_true_r in He. }
  rewrite HCR. by destruct c.
Qed.

Lemma prepare_softbreak (l : list Z) (c : bool) :
  prepare (l ++ 61 :: eol c) = (l, None).
Proof.
  assert (Ht : TrimRightFunc (l ++ 61 :: eol c) isQPDiscardWhitespace = l ++ [61]).
  { replace (l ++ 61 :: eol c) with ((l ++ [61]) ++ eol c) by (by rewrite <- (assoc_L (++))).
    rewrite TrimRight_app_true; [by apply TrimRight_keep|].
    destruct c; [apply isWS_crlf | apply isWS_lf]. }
  destruct (prepare_soft _ _ Ht) as (_ & _ & ->). f_equal.
  replace (drop (length l + 1) (l ++ 61 :: eol c)) with (eol c).
  - by destruct c.
  - replace (l ++ 61 :: eol c) with ((l ++ [61]) ++ eol c) by (by rewrite <- (assoc_L (++))).
    rewrite drop_app_length'; [done|]. rewrite length_app. cbn. lia.
Qed.

Lemma step_raw (r : Reader) (b : Z) (l : list Z) :
  line r = b :: l -> lastLen r = 0%nat -> benign b = true -> step r = Emit b (set_line r l).
Proof.
  intros Hl Hlast Hb. unfold step. rewrite Hl, Hlast. cbn [Nat.ltb Nat.leb]. unfold scan.
  rewrite Hl. unfold benign in Hb. apply andb_true_iff in Hb as [H61 Hb].
  apply negb_true_iff in H61. rewrite H61, Hlast. cbn [Nat.ltb Nat.leb].
  destruct ((b =? 9) || (b =? 13) || (b =? 10)) eqn:E1; [done|].
  apply orb_false_iff in E1 as [E1 E3]. apply orb_false_iff in E1 as [E1 E2].
  rewrite E1, E2, E3, !orb_false_r in Hb. apply andb_true_iff in Hb as [H1 H2].
  apply Z.leb_le in H1, H2.
  assert (Hr : (b <? 32) || (126 <? b) = false)
    by (apply orb_false_iff; split; apply Z.ltb_ge; lia).
  by rewrite Hr.
Qed.

Lemma step_hex (r : Reader) (u1 u2 : bool) (b : Z) (l : list Z) :
  line r = enc (Hex u1 u2 b) ++ l -> lastLen r = 0%nat -> 0 <= b < 256 ->
  step r = Emit b (set_line r l).
Proof.
  intros Hl Hlast Hb. cbn [enc app] in Hl. unfold step. rewrite Hl, Hlast.
  cbn [Nat.ltb Nat.leb]. unfold scan. rewrite Hl. cbn [Z.eqb Pos.eqb].
  rewrite (readHexByte_hexOf u1 u2 b l Hb).
  unfold lastLen in *. cbn [set_line last line drop]. rewrite Hlast. cbn [Nat.ltb Nat.leb].
  done.
Qed.

(** The bytes of an encoded line go out decoded. *)
Lemma drain_items (its : list item) : forall (r : Reader) (rest : list Z) (f : nat) out e r',
  line r = encode its ++ rest -> lastLen r = 0%nat -> forallb itemOK its = true ->
  drain f (set_line r rest) = Some (out, e, r') ->
  drain (length its + f) r = Some (decode its ++ out, e, r').
Proof.
  induction its as [|i its IH]; intros r rest f out e r' Hl Hlast Hok Hd.
  - cbn [length Nat.add app decode map]. replace r with (set_line r rest); [done|].
    destruct r; cbn in *. by subst.
  - cbn [forallb] in Hok. apply andb_true_iff in Hok as [Hi Hok].
    cbn [length Nat.add drain]. rewrite encode_cons, <- (assoc_L (++)) in Hl.
    assert (Hs : step r = Emit (dec i) (set_line r (encode its ++ rest))).
    { destruct i as [b|u1 u2 b]; cbn [dec].
      - apply step_raw; try done. by apply bodyByte_facts in Hi as (_ & _ & ?).
      - apply (step_hex r u1 u2); try done. by apply itemOK_Hex in Hi. }
    rewrite Hs. by rewrite (IH (set_line r (encode its ++ rest)) rest f out e r').
Qed.

Lemma drain_encoded (ls : list (list item * ending)) (tl : list item) : forall (r : Reader),
  forallb lineOK ls = true -> lineOK (tl, Hard false) = true ->
  idle r -> br r = encText ls tl ->
  exists f r', drain f r = Some (decText ls tl, EOF, r') /\ lastLen r' = 0%nat.
Proof.
  assert (HB : bufSize = 4096%nat) by done.
  induction ls as [|[l k] ls IH]; intros r Hls Htl Hi Hbr.
  - unfold encText, decText in *. cbn [map concat app] in *.
    unfold lineOK in Htl. cbn [fst snd] in Htl. apply andb_true_iff in Htl as [Htl He].
    apply andb_true_iff in Htl as [Hb Hlen]. apply Nat.ltb_lt in Hlen.
    pose proof (idle_Fn Strict r Hi) as HFn. destruct Hi as (Hl & Hlast & Hc & Herr).
    assert (Hacq : acquire r = mkReader (Fn_sel r) [] (addUnrecover (gerr r) (Some EOF))
                                        (Some EOF) (encode tl) (prev r) (last r)).
    { unfold acquire. rewrite Hbr, ReadSlice_tail by (try apply encode_noLF; try lia; done).
      by rewrite prepare_last by (try apply encode_soft; done). }
    set (r1 := mkReader (Fn_sel r) [] (addUnrecover (gerr r) (Some EOF))
                        (Some EOF) (encode tl) (prev r) (last r)) in *.
    exists (S (length tl + 1)), (set_line r1 []). split; [|done].
    cbn [drain]. unfold step at 1. rewrite Hl, HFn, Hacq.
    pose proof (drain_items tl r1 [] 1 [] EOF (set_line r1 [])) as Hp.
    rewrite !app_nil_r in Hp. apply Hp; try done.
    cbn [drain]. unfold step, set_line. cbn [line Fn Fn_sel gerr r1].
    unfold Fn, getErr, addUnrecover. cbn. rewrite Hc. cbn. by destruct (Fn_sel r).
  - cbn [forallb] in Hls. apply andb_true_iff in Hls as [Hl0 Hls].
    unfold lineOK in Hl0. cbn [fst snd] in Hl0. apply andb_true_iff in Hl0 as [Hl0 He].
    apply andb_true_iff in Hl0 as [Hb Hlen]. apply Nat.ltb_lt in Hlen.
    pose proof (idle_Fn Strict r Hi) as HFn. destruct Hi as (Hl & Hlast & Hc & Herr).
    assert (Henc : encText ((l, k) :: ls) tl = (encode l ++ encEnd k) ++ encText ls tl).
    { unfold encText. cbn [map concat fst snd]. by rewrite <- !(assoc_L (++)). }
    assert (Hdec : decText ((l, k) :: ls) tl = decode l ++ decEnd k ++ decText ls tl).
    { unfold decText. cbn [map concat fst snd]. by rewrite <- !(assoc_L (++)). }
    assert (Hrs : ReadSlice ((encode l ++ encEnd k) ++ encText ls tl)
                  = (encode l ++ encEnd k, None, encText ls tl)).
    { pose proof (encode_noLF l Hb) as Hno.
      assert (Hgen : forall mid, forallb (fun b => negb (b =? 10)) mid = true ->
                (length mid <= 2)%nat ->
                ReadSlice ((encode l ++ mid ++ [10]) ++ encText ls tl)
                = (encode l ++ mid ++ [10], None, encText ls tl)).
      { intros mid Hmid Hml.
        replace ((encode l ++ mid ++ [10]) ++ encText ls tl)
          with ((encode l ++ mid) ++ 10 :: encText ls tl)
          by (by rewrite <- !(assoc_L (++))).
        replace (encode l ++ mid ++ [10]) with ((encode l ++ mid) ++ [10])
          by (by rewrite <- !(assoc_L (++))).
        apply ReadSlice_line.
        - rewrite forallb_app. by apply andb_true_iff.
        - rewrite length_app. lia. }
      destruct k as [[|]|[|]]; cbn [encEnd eol].
      - apply (Hgen [61; 13]); [done | cbn; lia].
      - apply (Hgen [61]); [done | cbn; lia].
      - apply (Hgen [13]); [done | cbn; lia].
      - apply (Hgen []); [done | cbn; lia]. }
    assert (Hacq : acquire r = mkReader (Fn_sel r) (encText ls tl) (gerr r)
                                        None (encode l ++ decEnd k) (prev r) (last r)).
    { unfold acquire. rewrite Hbr, Henc, Hrs. destruct k as [c|c]; cbn [encEnd decEnd].
      - rewrite prepare_softbreak. by rewrite app_nil_r.
      - by rewrite prepare_hard by (try apply encode_soft; done). }
    set (r1 := mkReader (Fn_sel r) (encText ls tl) (gerr r) None (encode l ++ decEnd k)
                        (prev r) (last r)) in *.
    destruct (IH (set_line r1 []) Hls Htl) as (f & r' & Hd & Hl').
    { done. }
    { done. }
    exists (S (length l + (length (decEnd k) + f))), r'. split; [|done].
    cbn [drain]. unfold step at 1. rewrite Hl, HFn, Hacq, Hdec.
    apply (drain_items l r1 (decEnd k)); try done.
    apply (drain_plain (decEnd k)); try done.
    by destruct k as [c|[|]].
Qed.

(** X16: a text encoded in quoted-printable is decoded to the text it came
    from, with no error, by the strict reader and by the lenient one,
    whatever the sizes of the buffers it is read with.  The encoded text is
    made of lines shorter than 4094 bytes, each ended by a soft line break
    or by the end of a line of the text, and of a last line without end; a
    byte is written as it is when it is printable and is not [=], or as
    [=XY] with hex digits in upper or lower case; the space, tab or CR
    before the end of a line of the text is written [=XY]. *)
Theorem decode_encoded (ls : list (list item * ending)) (tl : list item) (sz : nat -> nat)
    (Hls : forallb lineOK ls = true) (Htl : lineOK (tl, Hard false) = true) :
  Copy sz (NewStrictReader (encText ls tl)) = Some (decText ls tl, None)
  /\ Copy sz (NewReader (encText ls tl)) = Some (decText ls tl, None).
Proof.
  split.
  - destruct (drain_encoded ls tl (NewStrictReader (encText ls tl)) Hls Htl) as (f & r' & Hd & Hl);
      [done | done |].
    apply (Copy_drain sz f _ _ EOF r'); [apply Inv_getReader | done | done].
  - destruct (drain_encoded ls tl (NewReader (encText ls tl)) Hls Htl) as (f & r' & Hd & Hl);
      [done | done |].
    apply (Copy_drain sz f _ _ EOF r'); [apply Inv_getReader | done | done].
Qed.

(** The theorem on three lines, the first one cut by a soft line break. *)
Lemma decode_encoded_witness :
  let ls := [([Raw 97; Hex true false 250; Raw 32], Soft true);
             ([Raw 98; Hex false false 32], Hard false);
             ([], Hard true)] in
  let tl := [Hex true true 61; Raw 99] in
  encText ls tl = B "a=Fa =\r\nb=20\n\r\n=3Dc"
  /\ decText ls tl = B "a\xfa b \n\r\n=c"
  /\ Copy (fun _ => 0%nat) (NewStrictReader (encText ls tl)) = Some (decText ls tl, None)
  /\ Copy (fun _ => 0%nat) (NewReader (encText ls tl)) = Some (decText ls tl, None).
Proof.
  cbv zeta.
  assert (H1 : forallb lineOK [([Raw 97; Hex true false 250; Raw 32], Soft true);
                               ([Raw 98; Hex false false 32], Hard false);
                               ([], Hard true)] = true) by (vm_compute; reflexivity).
  assert (H2 : lineOK ([Hex true true 61; Raw 99], Hard false) = true)
    by (vm_compute; reflexivity).
  split; [vm_compute; reflexivity|]. split; [vm_compute; reflexivity|].
  exact (decode_encoded _ _ (fun _ => 0%nat) H1 H2).
Defined.

(** X17: [readHexByte] gives back the byte that two hex digits stand for,
    each digit in upper or in lower case, whatever follows them. *)
Theorem readHexByte_roundtrip (u1 u2 : bool) (b : Z) (rest : list Z) (Hb : 0 <= b < 256) :
  readHexByte (hexOf u1 (b / 16) :: hexOf u2 (b mod 16) :: rest) = inl b
  /\ hexDigit (hexOf u1 (b / 16)) = true /\ hexDigit (hexOf u2 (b mod 16)) = true.
Proof.
  split; [by apply readHexByte_hexOf|].
  assert (H1 : 0 <= b / 16 < 16) by (split; [apply Z.div_pos | apply Z.div_lt_upper_bound]; lia).
  assert (H2 : 0 <= b mod 16 < 16) by (apply Z.mod_pos_bound; lia).
  unfold hexDigit, hexOf.
  split; [destruct (Z.ltb_spec (b / 16) 10), u1 | destruct (Z.ltb_spec (b mod 16) 10), u2];
    rewrite !orb_true_iff, !andb_true_iff, !Z.leb_le; lia.
Qed.

(** The theorem on the byte 0xfa written [Fa]. *)
Lemma readHexByte_roundtrip_witness :
  [hexOf true (250 / 16); hexOf false (250 mod 16)] = B "Fa"
  /\ readHexByte (hexOf true (250 / 16) :: hexOf false (250 mod 16) :: B "xyz") = inl 250.
Proof.
  split; [vm_compute; reflexivity|].
  assert (Hb : 0 <= 250 < 256) by lia.
  exact (proj1 (readHexByte_roundtrip true false 250 (B "xyz") Hb)).
Defined.

End QPFacts.

(** ** The UTF-8 rejoiner *)

Module UTF8Facts.
Import UTF8 UTF8Spec.

Ltac simp_q :=
  unfold set_state, set_pos, set_pco, set_cco, set_last, set_pcb_ccb in *;
  cbn [r state pos pco cco own pcb ccb buf last err] in *.

Section RejoinerFacts.
Context {R : Type}.
Implicit Types q : @qpUTF8 R.

Lemma release_loop_spec (n : nat) : forall q (out : list Z) (max : nat) (restart : bool),
  n = (pco q - cco q)%nat -> (cco q <= pco q <= 6)%nat -> length (own q) = 6%nat ->
  (length out < max)%nat -> restart = bool_decide (state q = stReleaseRestart) ->
  exists fin q' out',
    release_loop n q out max restart = Some (fin, q', out')
    /\ out' ++ held q' = out ++ held q
    /\ same q q' /\ pcb q' = pcb q /\ ccb q' = ccb q /\ length (own q') = 6%nat
    /\ (if fin then
          (length out' < max)%nat /\ cco q' = 0%nat
          /\ (if restart then state q' = stStart /\ pco q' = 1%nat
              else state q' = stNormal /\ pco q' = 0%nat)
        else
          length out' = max /\ state q' = state q /\ pco q' = pco q /\ pos q' = pos q
          /\ (cco q' <= pco q')%nat).
Proof.
  induction n as [|n IH]; intros q out max restart Hn Hc Ho Hl Hr.
  - cbn [release_loop]. destruct restart.
    + unfold set_own. simp_q. rewrite Ho. cbn [Nat.ltb Nat.leb].
      eexists true, _, out. split; [done|]. unfold held, same. simp_q.
      rewrite <- Hr, <- Hn. cbn [bool_decide decide_rel]. rewrite length_insert.
      split_and!; try done.
      destruct (own q) as [|o0 l]; [done|]. by cbn.
    + eexists true, _, out. split; [done|]. unfold held, same. simp_q.
      rewrite <- Hr, <- Hn. by cbn.
  - cbn [release_loop].
    destruct (lookup_lt_is_Some_2 (own q) (cco q)) as [b Hb]; [lia|].
    rewrite Hb. unfold put. assert (Hlt : (length out <? max)%nat = true) by (apply Nat.ltb_lt; lia).
    rewrite Hlt.
    assert (Hh : held q = b :: held (set_cco q (S (cco q)))).
    { unfold held. simp_q. rewrite <- Hn. rewrite (drop_S _ _ _ Hb). cbn [take app].
      do 2 f_equal. f_equal. lia. }
    destruct (max <=? length (out ++ [b]))%nat eqn:E.
    + eexists false, _, _. split; [done|]. rewrite Hh. unfold same. simp_q.
      rewrite <- (assoc_L (++)). split_and!; try done.
      * apply Nat.leb_le in E. rewrite length_app in *. cbn in *. lia.
      * lia.
    + apply Nat.leb_gt in E.
      destruct (IH (set_cco q (S (cco q))) (out ++ [b]) max restart) as
        (fin & q' & out' & H1 & H2 & H3 & H4 & H5 & H6 & H7); simp_q; try done; try lia.
      exists fin, q', out'. rewrite Hh. split; [done|].
      rewrite H2, <- (assoc_L (++)). split_and!; try done.
Qed.

Lemma take_push (l : list Z) (n : nat) (b : Z) :
  (n < length l)%nat -> take (S n) (<[n := b]> l) = take n l ++ [b].
Proof.
  intros H. rewrite (take_S_r _ _ b) by (by apply list_lookup_insert_eq).
  by rewrite take_insert_ge.
Qed.

Lemma held_idle (u : R) (s : st) (p pc : nat) (ow : list Z) (pb cb : nat) (bf : list Z)
    (la : Z) (er : option error) :
  held (mkQ u s p pc 0 ow pb cb bf la er)
  = take pc ow ++ (if bool_decide (s = stReleaseRestart) then [la] else []).
Proof. unfold held. cbn. by rewrite Nat.sub_0_r. Qed.

Lemma held_idle' q :
  cco q = 0%nat ->
  held q = take (pco q) (own q) ++ (if bool_decide (state q = stReleaseRestart) then [last q] else []).
Proof. intros H. unfold held. rewrite H. cbn. by rewrite Nat.sub_0_r. Qed.

Lemma held_restart q (b : Z) :
  state q <> stReleaseRestart ->
  held (set_state (set_last q b) stReleaseRestart) = held q ++ [b].
Proof.
  intros H. unfold held. simp_q. rewrite bool_decide_eq_true_2 by done.
  rewrite (bool_decide_eq_false_2 _ H). by rewrite app_nil_r.
Qed.

Lemma switch_spec q (b : Z) (out : list Z) (max : nat) :
  okst q -> (length out < max)%nat ->
  exists res,
    switch q b out max = Some res
    /\ let '(q', out') := match res with inl x | inr x => x end in
       okst q' /\ same q q' /\ pcb q' = pcb q /\ ccb q' = ccb q
       /\ out' ++ held q' `sublist_of` out ++ held q ++ [b]
       /\ match res with
          | inl _ => length out' = max
          | inr _ => (length out' < max)%nat
          end.
Proof.
  intros [Ho Hs] Hl. unfold switch.
  assert (Hput : put out max b = Some (out ++ [b])).
  { unfold put. by rewrite (proj2 (Nat.ltb_lt _ _) Hl). }
  destruct (state q) eqn:Es.
  - (* stNormal *)
    destruct Hs as [Hp Hc]. destruct (c0mask b =? 192).
    + unfold set_own. simp_q. rewrite Ho. cbn [Nat.ltb Nat.leb].
      eexists (inr _). split; [done|]. cbv beta iota zeta. unfold okst, same. simp_q.
      rewrite length_insert, Hc. split_and!; try done; try lia.
      rewrite held_idle, (held_idle' q Hc), Hp, Es. cbn.
      destruct (own q); [done|]. by cbn.
    + rewrite Hput. destruct (max <=? length (out ++ [b]))%nat eqn:E.
      * eexists (inl _). split; [done|]. cbv beta iota zeta. unfold okst, same. rewrite Es.
        split_and!; try done.
        -- rewrite (held_idle' q Hc), Hp, Es. cbn. by rewrite app_nil_r.
        -- apply Nat.leb_le in E. rewrite length_app in *. cbn in *. lia.
      * eexists (inr _). split; [done|]. cbv beta iota zeta. unfold okst, same. rewrite Es.
        split_and!; try done.
        -- rewrite (held_idle' q Hc), Hp, Es. cbn. by rewrite app_nil_r.
        -- by apply Nat.leb_gt in E.
  - (* stStart *)
    destruct Hs as [Hc Hp]. destruct (c0mask b =? 192).
    + eexists (inr _). split; [done|]. cbv beta iota zeta.
      rewrite held_restart by (by rewrite Es). unfold okst, same. simp_q.
      split_and!; try done; try lia.
    + unfold push_own, set_own. rewrite (proj2 (Nat.ltb_lt (pco q) _)) by lia. simp_q.
      assert (Hh : forall s p, s <> stReleaseRestart ->
        out ++ held (mkQ (r q) s p (S (pco q)) (cco q) (<[pco q := b]> (own q))
                         (pcb q) (ccb q) (buf q) (last q) (err q))
        `sublist_of` out ++ held q ++ [b]).
      { intros s p Hne. rewrite Hc, held_idle, (held_idle' q Hc), Es, take_push by lia.
        rewrite (bool_decide_eq_false_2 _ Hne). cbn. by rewrite !app_nil_r. }
      destruct (b =? 13); [|destruct (b =? 10); [|destruct (_ || _) eqn:E]];
        (eexists (inr _); split; [done|]); cbv beta iota zeta; unfold okst, same; simp_q;
        rewrite length_insert; (split_and!; try done; try lia; try (by apply Hh)).
      * rewrite Es. apply orb_false_iff in E as [_ E]. apply Nat.leb_gt in E.
        unfold UTFMax in E. lia.
      * apply Hh. by rewrite Es.
  - (* st0x0D *)
    destruct Hs as [Hc Hp]. destruct (c0mask b =? 192).
    + eexists (inr _). split; [done|]. cbv beta iota zeta.
      rewrite held_restart by (by rewrite Es). unfold okst, same. simp_q.
      split_and!; try done; try lia.
    + unfold push_own, set_own. rewrite (proj2 (Nat.ltb_lt (pco q) _)) by lia. simp_q.
      assert (Hh : forall s p, s <> stReleaseRestart ->
        out ++ held (mkQ (r q) s p (S (pco q)) (cco q) (<[pco q := b]> (own q))
                         (pcb q) (ccb q) (buf q) (last q) (err q))
        `sublist_of` out ++ held q ++ [b]).
      { intros s p Hne. rewrite Hc, held_idle, (held_idle' q Hc), Es, take_push by lia.
        rewrite (bool_decide_eq_false_2 _ Hne). cbn. by rewrite !app_nil_r. }
      destruct (b =? 10);
        (eexists (inr _); split; [done|]); cbv beta iota zeta; unfold okst, same; simp_q;
        rewrite length_insert; (split_and!; try done; try lia; try (by apply Hh)).
  - (* st0x0A *)
    destruct Hs as [Hc Hp]. destruct (c0mask b =? 192).
    + eexists (inr _). split; [done|]. cbv beta iota zeta.
      rewrite held_restart by (by rewrite Es). unfold okst, same. simp_q.
      split_and!; try done; try lia.
    + destruct (c0mask b =? 128).
      * unfold set_own. rewrite (proj2 (Nat.ltb_lt (pos q) _)) by lia. simp_q.
        eexists (inr _). split; [done|]. cbv beta iota zeta. unfold okst, same. simp_q.
        rewrite length_insert. split_and!; try done; try lia.
        rewrite Hc, held_idle, (held_idle' q Hc), Es. cbn [bool_decide decide_rel st_eq_dec].
        rewrite !app_nil_r. replace (pos q + 1)%nat with (S (pos q)) by lia.
        rewrite take_push by lia. apply sublist_app; [done|]. apply sublist_app; [|done].
        replace (take (pos q) (own q)) with (take (pos q) (take (pco q) (own q)))
          by (rewrite take_take; f_equal; lia).
        apply sublist_take.
      * unfold push_own, set_own. rewrite (proj2 (Nat.ltb_lt (pco q) _)) by lia. simp_q.
        eexists (inr _). split; [done|]. cbv beta iota zeta. unfold okst, same. simp_q.
        rewrite length_insert. split_and!; try done; try lia.
        rewrite Hc, held_idle, (held_idle' q Hc), Es, take_push by lia.
        cbn. by rewrite !app_nil_r.
  - (* st0x10XXXXXX *)
    destruct Hs as [Hc Hp]. destruct (c0mask b =? 192).
    + eexists (inr _). split; [done|]. cbv beta iota zeta.
      rewrite held_restart by (by rewrite Es). unfold okst, same. simp_q.
      split_and!; try done; try lia.
    + unfold push_own, set_own. rewrite (proj2 (Nat.ltb_lt (pco q) _)) by lia. simp_q.
      assert (Hh : forall s p, s <> stReleaseRestart ->
        out ++ held (mkQ (r q) s p (S (pco q)) (cco q) (<[pco q := b]> (own q))
                         (pcb q) (ccb q) (buf q) (last q) (err q))
        `sublist_of` out ++ held q ++ [b]).
      { intros s p Hne. rewrite Hc, held_idle, (held_idle' q Hc), Es, take_push by lia.
        rewrite (bool_decide_eq_false_2 _ Hne). cbn. by rewrite !app_nil_r. }
      destruct (_ || _) eqn:E;
        (eexists (inr _); split; [done|]); cbv beta iota zeta; unfold okst, same; simp_q;
        rewrite length_insert; (split_and!; try done; try lia; try (by apply Hh)).
      * rewrite Es. apply orb_false_iff in E as [_ E]. apply Nat.eqb_neq in E. lia.
      * apply Hh. by rewrite Es.
  - (* stRelease *)
    eexists (inr _). split; [done|]. cbv beta iota zeta. unfold okst, same. rewrite Es.
    split_and!; try done; try lia. apply sublist_app; [done|]. by apply sublist_inserts_r.
  - (* stReleaseRestart *)
    eexists (inr _). split; [done|]. cbv beta iota zeta. unfold okst, same. rewrite Es.
    split_and!; try done; try lia. apply sublist_app; [done|]. by apply sublist_inserts_r.
Qed.

Lemma held_set_pcb_ccb q (n m : nat) : held (set_pcb_ccb q n m) = held q.
Proof. done. Qed.

Lemma okst_release q :
  okst q -> state q = stRelease \/ state q = stReleaseRestart ->
  (cco q <= pco q <= 6)%nat /\ length (own q) = 6%nat.
Proof. intros [Ho Hs] [E|E]; rewrite E in Hs; done. Qed.

Lemma cycle_loop_spec (bs : list Z) : forall (i n : nat) q (out : list Z) (max : nat),
  okst q -> (length out < max)%nat ->
  exists fin q' out',
    cycle_loop bs i n q out max = Some (fin, q', out')
    /\ okst q' /\ same q q'
    /\ (if fin then
          pcb q' = pcb q /\ ccb q' = ccb q /\ (length out' < max)%nat
          /\ out' ++ held q' `sublist_of` out ++ held q ++ bs
        else
          exists k, (k < length bs)%nat /\ pcb q' = n /\ ccb q' = (i + k + 1)%nat
            /\ length out' = max
            /\ out' ++ held q' ++ drop (S k) bs `sublist_of` out ++ held q ++ bs).
Proof.
  induction bs as [|b bs IH]; intros i n q out max Hok Hl.
  - exists true, q, out. cbn [cycle_loop]. split_and!; try done.
    by rewrite app_nil_r.
  - cbn [cycle_loop].
    destruct (switch_spec q b out max Hok Hl) as (res & Hsw & Hres). rewrite Hsw.
    assert (Hcomb : forall (x y : list Z), x `sublist_of` out ++ held q ++ [b] ->
              y `sublist_of` bs -> x ++ y `sublist_of` out ++ held q ++ b :: bs).
    { intros x y Hx Hy. replace (out ++ held q ++ b :: bs) with ((out ++ held q ++ [b]) ++ bs)
        by (by rewrite <- !(assoc_L (++))). by apply sublist_app. }
    destruct res as [[q1 out1]|[q1 out1]]; cbv beta iota zeta in Hres;
      destruct Hres as (Hok1 & Hsame1 & Hpcb1 & Hccb1 & Hsub1 & Hlen1).
    + exists false, (set_pcb_ccb q1 n (i + 1)), out1. split; [done|].
      split; [done|]. split; [done|]. exists 0%nat. cbn [length drop]. rewrite held_set_pcb_ccb. simp_q.
      split_and!; try done; try lia.
      rewrite (assoc_L (++)). by apply Hcomb.
    + set (rst := bool_decide (state q1 = stReleaseRestart)).
      destruct (rst || bool_decide (state q1 = stRelease)) eqn:Erel.
      * assert (Hst : state q1 = stRelease \/ state q1 = stReleaseRestart).
        { apply orb_true_iff in Erel as [E|E]; apply bool_decide_eq_true in E; auto. }
        destruct (okst_release q1 Hok1 Hst) as [Hc1 Ho1].
        destruct (release_loop_spec (pco q1 - cco q1) q1 out1 max rst eq_refl Hc1 Ho1 Hlen1 eq_refl)
          as (fin & q2 & out2 & Hrel & Heq & Hsame2 & Hpcb2 & Hccb2 & Ho2 & Hfin).
        unfold release. rewrite Hrel.
        assert (Hs2 : same q q2).
        { destruct Hsame1 as (?&?&?), Hsame2 as (?&?&?). unfold same. split_and!; congruence. }
        destruct fin.
        -- destruct Hfin as (Hlen2 & Hcco2 & Hst2).
           assert (Hok2 : okst q2).
           { unfold okst. split; [done|]. destruct rst; destruct Hst2 as [-> ->]; lia. }
           destruct (IH (S i) n q2 out2 max Hok2 Hlen2) as (fin & q3 & out3 & Hcy & Hok3 & Hs3 & Hf3).
           exists fin, q3, out3. split; [done|]. split; [done|]. split.
           { destruct Hs2 as (?&?&?), Hs3 as (?&?&?). unfold same. split_and!; congruence. }
           destruct fin.
           ++ destruct Hf3 as (?&?&?&Hsub3). split_and!; try congruence; try done.
              etrans; [apply Hsub3|]. rewrite (assoc_L (++)), Heq. by apply Hcomb.
           ++ destruct Hf3 as (k & Hk & ? & ? & ? & Hsub3). exists (S k). cbn [length].
              split_and!; try done; try lia.
              change (drop (S (S k)) (b :: bs)) with (drop (S k) bs).
              etrans; [apply Hsub3|]. rewrite (assoc_L (++)), Heq. by apply Hcomb.
        -- destruct Hfin as (Hlen2 & Hst2 & Hpco2 & Hpos2 & Hcc2).
           exists false, (set_pcb_ccb q2 n (i + 1)), out2. split; [done|]. split.
           { unfold okst. simp_q. split; [done|]. rewrite Hst2.
             destruct Hst as [-> | ->]; lia. }
           split; [done|]. exists 0%nat. cbn [length drop]. rewrite held_set_pcb_ccb. simp_q.
           split_and!; try done; try lia.
           rewrite (assoc_L (++)), Heq. by apply Hcomb.
      * destruct (IH (S i) n q1 out1 max Hok1 Hlen1) as (fin & q3 & out3 & Hcy & Hok3 & Hs3 & Hf3).
        exists fin, q3, out3. split; [done|]. split; [done|]. split.
        { destruct Hsame1 as (?&?&?), Hs3 as (?&?&?). unfold same. split_and!; congruence. }
        destruct fin.
        -- destruct Hf3 as (?&?&?&Hsub3). split_and!; try congruence; try done.
           etrans; [apply Hsub3|]. rewrite (assoc_L (++)). by apply Hcomb.
        -- destruct Hf3 as (k & Hk & ? & ? & ? & Hsub3). exists (S k). cbn [length].
           split_and!; try done; try lia.
           change (drop (S (S k)) (b :: bs)) with (drop (S k) bs).
           etrans; [apply Hsub3|]. rewrite (assoc_L (++)). by apply Hcomb.
Qed.

End RejoinerFacts.

Section RejoinerRunFacts.
Context {R : Type}.
Variable rd : R -> nat -> list Z * option error * R.
Variable content : R -> list Z.
Hypothesis Hrd : upstream_ok rd content.
Implicit Types q : @qpUTF8 R.

Lemma unproc_drop (l bs : list Z) (i n k : nat) :
  bs = take (n - i) (drop i l) -> (k < length bs)%nat ->
  take (n - (i + k + 1)) (drop (i + k + 1) l) = drop (S k) bs.
Proof.
  intros -> Hk. rewrite length_take in Hk.
  replace (i + k + 1)%nat with (i + S k)%nat by lia.
  rewrite <- drop_drop, take_drop_commute. do 2 f_equal. lia.
Qed.

Lemma Read_spec q (max : nat) :
  wf q -> (0 < max)%nat ->
  exists out e q',
    Read rd q max = Some (out, e, q')
    /\ (length out <= max)%nat
    /\ out `sublist_of` rest content q
    /\ (e = None -> wf q' /\ out ++ rest content q' `sublist_of` rest content q).
Proof.
  intros (Hok & Hbuf & Hcb) Hmax. unfold Read.
  assert (H1 : exists fin q1 out1,
    (if (ccb q <? pcb q)%nat then cycle q [] (ccb q) (pcb q) max else Some (true, q, []))
      = Some (fin, q1, out1)
    /\ okst q1 /\ same q q1
    /\ (if fin then
          pcb q1 = pcb q /\ ccb q1 = ccb q /\ (length out1 < max)%nat
          /\ out1 ++ held q1 `sublist_of` held q ++ unproc q
        else
          exists k, (k < length (unproc q))%nat /\ pcb q1 = pcb q
            /\ ccb q1 = (ccb q + k + 1)%nat /\ length out1 = max
            /\ out1 ++ held q1 ++ drop (S k) (unproc q) `sublist_of` held q ++ unproc q)).
  { destruct (ccb q <? pcb q)%nat.
    - unfold cycle. rewrite (proj2 (Nat.ltb_ge _ _)) by lia.
      apply (cycle_loop_spec (unproc q) (ccb q) (pcb q) q [] max Hok). cbn. lia.
    - exists true, q, []. split; [done|]. split; [done|]. split; [done|].
      split_and!; try done. cbn. by apply sublist_inserts_r. }
  destruct H1 as (fin & q1 & out1 & -> & Hok1 & Hsame1 & Hf1).
  destruct Hsame1 as (Hr1 & Hb1 & He1).
  destruct fin.
  2:{ destruct Hf1 as (k & Hk & Hp & Hc & Hl & Hsub).
      exists out1, None, q1. split; [done|]. split; [lia|].
      assert (Hu : unproc q1 = drop (S k) (unproc q)).
      { unfold unproc at 1. rewrite Hp, Hc, Hb1. by apply unproc_drop. }
      assert (Hs : out1 ++ rest content q1 `sublist_of` rest content q).
      { unfold rest. rewrite Hu, Hr1, !(assoc_L (++)). apply sublist_app; [|done].
        by rewrite <- !(assoc_L (++)). }
      split; [|intros _; split; [|done]].
      - etrans; [|apply Hs]. by apply sublist_inserts_r.
      - unfold wf. rewrite Hb1, Hp, Hc. split_and!; try done; try lia.
        unfold unproc in Hk. rewrite length_take in Hk. lia. }
  destruct Hf1 as (Hp1 & Hc1 & Hl1 & Hsub1).
  assert (Hsub1' : forall x, out1 ++ held q1 ++ x `sublist_of` held q ++ unproc q ++ x).
  { intros x. rewrite !(assoc_L (++)). by apply sublist_app. }
  destruct (err q1) as [e|] eqn:Ee.
  - (* the upstream has failed *)
    assert (Ho1 : out1 `sublist_of` rest content q).
    { etrans; [|apply (Hsub1' (content (r q)))]. by apply sublist_inserts_r. }
    destruct (_ || _) eqn:Ec.
    + assert (Hst : (cco q1 <= pco q1 <= 6)%nat /\ state q1 <> stReleaseRestart).
      { destruct Hok1 as [_ Hs]. apply orb_true_iff in Ec as [E|E].
        - apply bool_decide_eq_true in E. rewrite E in *. split; [lia | done].
        - apply andb_true_iff in E as [E _]. apply bool_decide_eq_true in E.
          rewrite E in *. split; [lia | done]. }
      destruct Hst as [Hc Hne].
      destruct (release_loop_spec (pco q1 - cco q1) q1 out1 max false eq_refl Hc
                  (proj1 Hok1) Hl1) as (fin & q2 & out2 & Hrel & Heq & _ & _ & _ & _ & Hfin).
      { by rewrite bool_decide_eq_false_2. }
      unfold release. rewrite Hrel. exists out2, (Some e), q2. split; [done|].
      split; [destruct fin; lia|]. split; [|done].
      etrans; [|apply (Hsub1' (content (r q)))]. rewrite (assoc_L (++)), <- Heq.
      rewrite <- (assoc_L (++)). by apply sublist_inserts_r.
    + exists out1, (Some e), q1. split; [done|]. split; [lia|]. done.
  - (* a read from the upstream *)
    set (allowed := Z.of_nat max - Z.of_nat (length out1)
                    - (Z.of_nat (pco q1) - Z.of_nat (cco q1))).
    assert (Hread : exists d e u',
      (if 0 <? allowed then
         if 512 <? allowed then rd (r q1) 512 else rd (r q1) (Z.to_nat allowed)
       else ([], None, r q1)) = (d, e, u')
      /\ (length d <= 512)%nat /\ content (r q1) = d ++ content u').
    { destruct (0 <? allowed).
      - destruct (512 <? allowed) eqn:E5.
        + destruct (rd (r q1) 512) as [[d e] u'] eqn:E. exists d, e, u'. split; [done|].
          by apply Hrd in E.
        + destruct (rd (r q1) (Z.to_nat allowed)) as [[d e] u'] eqn:E. exists d, e, u'.
          split; [done|]. apply Hrd in E as [E1 E2]. apply Z.ltb_ge in E5. split; [lia|done].
      - exists [], None, (r q1). split; [done|]. split; [cbn; lia | done]. }
    destruct Hread as (d & e & u' & -> & Hd & Hcont).
    set (q2 := mkQ u' (state q1) (pos q1) (pco q1) (cco q1) (own q1) (pcb q1) (ccb q1)
                   (d ++ drop (length d) (buf q1)) (last q1) e).
    assert (Hok2 : okst q2) by done.
    assert (Hb2 : length (buf q2) = 512%nat).
    { cbn. rewrite length_app, length_drop, Hb1. lia. }
    assert (Hbs : take (length d - 0) (drop 0 (buf q2)) = d).
    { unfold q2. cbn [drop buf]. rewrite Nat.sub_0_r. rewrite drop_0. by rewrite take_app_length. }
    unfold cycle. rewrite (proj2 (Nat.ltb_ge _ _)) by lia. rewrite Hbs.
    destruct (cycle_loop_spec d 0 (length d) q2 out1 max Hok2 Hl1)
      as (fin & q3 & out3 & -> & Hok3 & (Hr3 & Hb3 & He3) & Hf3).
    assert (Hh2 : held q2 = held q1) by done.
    assert (Hr2 : r q2 = u') by done.
    assert (Hbase : out1 ++ held q1 ++ d ++ content u' `sublist_of` rest content q).
    { unfold rest. rewrite <- Hcont, Hr1. apply Hsub1'. }
    destruct fin.
    + destruct Hf3 as (Hp3 & Hc3 & Hl3 & Hsub3).
      set (q4 := set_pcb_ccb q3 0 0).
      assert (Hs : out3 ++ rest content q4 `sublist_of` rest content q).
      { etrans; [|apply Hbase]. unfold rest, unproc, q4. rewrite held_set_pcb_ccb.
        cbn [set_pcb_ccb pcb ccb r]. rewrite Hr3, Hr2. cbn [Nat.sub]. rewrite take_0.
        cbn [app]. rewrite !(assoc_L (++)). apply sublist_app; [|done].
        rewrite <- !(assoc_L (++)). by rewrite Hh2 in Hsub3. }
      assert (Hw : wf q4).
      { unfold wf. cbn [q4 set_pcb_ccb pcb ccb buf]. rewrite Hb3. split_and!; try done; lia. }
      assert (Ho : out3 `sublist_of` rest content q).
      { etrans; [|apply Hs]. by apply sublist_inserts_r. }
      destruct (pco q4 <=? cco q4)%nat.
      * exists out3, (err q4), q4. split; [done|]. split; [lia|]. done.
      * exists out3, None, q4. split; [done|]. split; [lia|]. done.
    + destruct Hf3 as (k & Hk & Hp3 & Hc3 & Hl3 & Hsub3).
      exists out3, None, q3. split; [done|]. split; [lia|].
      assert (Hu : unproc q3 = drop (S k) d).
      { unfold unproc. rewrite Hp3, Hc3, Hb3. apply unproc_drop; [|done]. by rewrite Hbs. }
      assert (Hs : out3 ++ rest content q3 `sublist_of` rest content q).
      { etrans; [|apply Hbase]. unfold rest. rewrite Hu, Hr3, Hr2.
        rewrite !(assoc_L (++)). apply sublist_app; [|done].
        rewrite <- !(assoc_L (++)). by rewrite Hh2 in Hsub3. }
      split; [|intros _; split; [|done]].
      * etrans; [|apply Hs]. by apply sublist_inserts_r.
      * unfold wf. rewrite Hb3, Hb2, Hp3, Hc3. split_and!; try done; lia.
Qed.

Lemma readUntil_spec (sched : list nat) : forall q,
  wf q -> Forall (fun m => (0 < m)%nat) sched ->
  exists out e, readUntil rd sched q = Some (out, e) /\ out `sublist_of` rest content q.
Proof.
  induction sched as [|m sched IH]; intros q Hw Hs.
  - exists [], None. split; [done|]. apply sublist_nil_l.
  - apply Forall_cons in Hs as [Hm Hs]. cbn [readUntil].
    destruct (Read_spec q m Hw Hm) as (out & e & q' & -> & _ & Ho & He).
    destruct e as [e|].
    + by exists out, (Some e).
    + destruct (He eq_refl) as [Hw' Hsub].
      destruct (IH q' Hw' Hs) as (out' & e' & -> & Ho').
      exists (out ++ out'), e'. split; [done|]. etrans; [|apply Hsub].
      by apply sublist_app.
Qed.

End RejoinerRunFacts.

Section RejoinerSteps.
Context {R : Type}.
Implicit Types q : @qpUTF8 R.

(** [release] with room for all it has to write. *)
Lemma release_all q (out : list Z) (max : nat) (restart : bool) :
  (cco q <= pco q <= 6)%nat -> length (own q) = 6%nat ->
  (length out + (pco q - cco q) < max)%nat ->
  release q out max restart
  = Some (true,
          if restart
          then mkQ (r q) stStart (pos q) 1 0 (<[0%nat := last q]> (own q)) (pcb q) (ccb q)
                   (buf q) (last q) (err q)
          else mkQ (r q) stNormal (pos q) 0 0 (own q) (pcb q) (ccb q) (buf q) (last q) (err q),
          out ++ take (pco q - cco q) (drop (cco q) (own q))).
Proof.
  unfold release. remember (pco q - cco q)%nat as n eqn:Hn.
  revert q out Hn. induction n as [|n IH]; intros q out Hn Hc Ho Hl.
  - cbn [release_loop take]. rewrite app_nil_r. destruct restart; [|done].
    unfold set_own. simp_q. rewrite Ho. done.
  - cbn [release_loop].
    destruct (lookup_lt_is_Some_2 (own q) (cco q)) as [b Hb]; [lia|].
    rewrite Hb. unfold put. rewrite (proj2 (Nat.ltb_lt _ _)) by lia.
    rewrite (proj2 (Nat.leb_gt _ _)) by (rewrite length_app; cbn; lia).
    rewrite (IH (set_cco q (S (cco q)))); simp_q; try done; try lia.
    2:{ rewrite length_app. cbn. lia. }
    rewrite (drop_S _ _ _ Hb). cbn [take]. by rewrite <- (assoc_L (++)).
Qed.

Lemma cont_facts (c : Z) :
  c0mask c = 128 ->
  (c0mask c =? 192) = false /\ (c0mask c =? 128) = true
  /\ (c =? 13) = false /\ (c =? 10) = false.
Proof.
  intros H. rewrite H. split_and!; try done; apply Z.eqb_neq; intros ->; done.
Qed.

Lemma c0mask_CR : c0mask 13 = 0.
Proof. reflexivity. Qed.

Lemma c0mask_LF : c0mask 10 = 0.
Proof. reflexivity. Qed.

Local Opaque c0mask.

(** C5: from the state [stNormal], a lead byte (top two bits 11) followed by
    at most two continuation bytes and by LF or CR LF leaves the rejoiner in
    [st0x0A], the candidate and the line break held in [own] and [pos] at
    the first byte of the line break.  A continuation byte [b] (top two
    bits 10) then overwrites [own[pos]] and makes [pos + 1] the length of
    what is held, in state [st0x10XXXXXX]: the candidate, [b] and what ends
    the sequence are written without the line break.  Any other byte makes
    the bytes held be written as they are, line break included (a lead byte
    starts the next candidate, another byte is written after them). *)
Theorem line_break_excised q0 (lead : Z) (conts : list Z) (crlf : bool) (b x : Z) (out : list Z)
    (i j n max : nat)
    (Hok : okst q0) (Hst : state q0 = stNormal) (Hlead : c0mask lead = 192)
    (Hconts : Forall (fun c => c0mask c = 128) conts) (Hlen : (length conts <= 2)%nat)
    (Hx : c0mask x <> 128 /\ c0mask x <> 192)
    (Hroom : (length out + length conts + 4 < max)%nat) :
  let cand := lead :: conts in
  exists q1,
    cycle_loop (cand ++ lineBreak crlf) i n q0 out max = Some (true, q1, out)
    /\ state q1 = st0x0A /\ pos q1 = length cand /\ held q1 = cand ++ lineBreak crlf
    /\ (c0mask b = 128 ->
        exists q2 q3,
          switch q1 b out max = Some (inr (q2, out))
          /\ state q2 = st0x10XXXXXX /\ own q2 = <[pos q1 := b]> (own q1)
          /\ pco q2 = S (pos q1) /\ held q2 = cand ++ [b]
          /\ cycle_loop [b; x] j n q1 out max = Some (true, q3, out ++ cand ++ [b; x])
          /\ state q3 = stNormal)
    /\ (c0mask b <> 128 ->
        exists q2,
          cycle_loop [b] j n q1 out max
          = Some (true, q2,
                  out ++ cand ++ lineBreak crlf ++ (if c0mask b =? 192 then [] else [b]))
          /\ state q2 = (if c0mask b =? 192 then stStart else stNormal)
          /\ held q2 = (if c0mask b =? 192 then [b] else [])).
Proof.
  cbv zeta.
  destruct q0 as [u s p pc cc ow pb cb bf la er]. cbn [state] in Hst. subst s.
  destruct Hok as [Ho [Hp Hc]]. cbn [own pco cco] in Ho, Hp, Hc. subst pc cc.
  destruct ow as [|o0 [|o1 [|o2 [|o3 [|o4 [|o5 [|]]]]]]]; try done. clear Ho.
  assert (Hl : (c0mask lead =? 192) = true) by (by rewrite Hlead).
  assert (Hx1 : (c0mask x =? 128) = false) by (apply Z.eqb_neq; tauto).
  assert (Hx2 : (c0mask x =? 192) = false) by (apply Z.eqb_neq; tauto).
  assert (Hc12 : forall c, In c conts ->
            (c0mask c =? 192) = false /\ (c0mask c =? 128) = true
            /\ (c =? 13) = false /\ (c =? 10) = false).
  { intros c Hin. apply cont_facts. rewrite Forall_forall in Hconts. apply Hconts.
    by apply list_elem_of_In. }
  destruct conts as [|c1 [|c2 [|c3 ?]]]; [| | |cbn in Hlen; lia].
  all: try (destruct (Hc12 c1) as (Hc1a & Hc1b & Hc1c & Hc1d); [cbn; tauto|]).
  all: try (destruct (Hc12 c2) as (Hc2a & Hc2b & Hc2c & Hc2d); [cbn; tauto|]).
  all: clear Hc12 Hconts Hlen; cbn [length] in Hroom.
  all: destruct crlf.
  all: eexists; split;
    [ repeat first [ progress cbn -[c0mask release]
                   | progress rewrite ?c0mask_CR, ?c0mask_LF
                   | match goal with H : (_ =? _) = _ |- _ => rewrite H end ];
      reflexivity | ].
  all: split; [done|]; split; [done|]; split; [done|].
  all: split.
  all: try (intros Hb; destruct (cont_facts b Hb) as (Hb1 & Hb2 & _ & _);
    eexists; eexists; split;
    [ repeat first [ progress cbn -[c0mask release]
                   | match goal with H : (_ =? _) = _ |- _ => rewrite H end ];
      reflexivity | ];
    split; [done|]; split; [done|]; split; [done|]; split; [done|];
    split;
    [ repeat first [ progress cbn -[c0mask release]
                   | match goal with H : (_ =? _) = _ |- _ => rewrite H end
                   | rewrite release_all by (cbn; lia) ];
      reflexivity | done ]).
  all: intros Hb; assert (Hb2 : (c0mask b =? 128) = false) by (by apply Z.eqb_neq);
    destruct (c0mask b =? 192) eqn:Hb1; eexists; (split;
    [ repeat first [ progress cbn -[c0mask release]
                   | progress rewrite ?c0mask_CR, ?c0mask_LF
                   | match goal with H : (_ =? _) = _ |- _ => rewrite H end
                   | rewrite release_all by (cbn; lia) ];
      cbn; rewrite ?app_nil_r; reflexivity | done ]).
Qed.

End RejoinerSteps.

(** The theorem on the first two bytes of the euro sign followed by CR LF. *)
Lemma line_break_excised_witness :
  let q0 := newQPUTF8 (@nil Z) in
  okst q0 /\ state q0 = stNormal /\ c0mask 226 = 192
  /\ Forall (fun c => c0mask c = 128) [130] /\ (length [130] <= 2)%nat
  /\ (c0mask 97 <> 128 /\ c0mask 97 <> 192) /\ (length (@nil Z) + length [130] + 4 < 512)%nat
  /\ exists q1,
       cycle_loop ([226; 130] ++ lineBreak true) 0 6 q0 [] 512 = Some (true, q1, [])
       /\ state q1 = st0x0A /\ pos q1 = 2%nat /\ held q1 = [226; 130; 13; 10].
Proof.
  assert (H0 : okst (newQPUTF8 (@nil Z))) by (split; [reflexivity | split; reflexivity]).
  assert (H1 : Forall (fun c => c0mask c = 128) [130]) by (repeat constructor).
  assert (H2 : c0mask 97 <> 128 /\ c0mask 97 <> 192) by (split; discriminate).
  assert (H3 : (length (@nil Z) + length [130] + 4 < 512)%nat) by (cbn; lia).
  split; [exact H0|]. split; [reflexivity|]. split; [reflexivity|]. split; [exact H1|].
  split; [cbn; lia|]. split; [exact H2|]. split; [exact H3|].
  destruct (line_break_excised (newQPUTF8 (@nil Z)) 226 [130] true 172 97 [] 0 4 6 512
              H0 eq_refl eq_refl H1 ltac:(cbn; lia) H2 H3) as (q1 & Hc & Hs & Hp & Hh & _).
  exists q1. split; [exact Hc|]. split; [exact Hs|]. split; [exact Hp | exact Hh].
Defined.

Section RejoinerEnd.
Context {R : Type}.
Variable rd : R -> nat -> list Z * option error * R.
Implicit Types q : @qpUTF8 R.

(** [Read] once the upstream has failed and [buf] is used up. *)
Lemma Read_failed q (max : nat) (e : error) :
  okst q -> (0 < max)%nat -> err q = Some e -> (pcb q <= ccb q)%nat ->
  exists q',
    Read rd q max = Some (if flushes q then take max (held q) else [], Some e, q').
Proof.
  intros Hok Hmax He Hcb. unfold Read. rewrite (proj2 (Nat.ltb_ge _ _)) by lia.
  rewrite He. fold (flushes q). destruct (flushes q) eqn:Ef; [|by eexists].
  assert (Hst : (cco q <= pco q <= 6)%nat /\ state q <> stReleaseRestart).
  { destruct Hok as [_ Hs]. unfold flushes in Ef. apply orb_true_iff in Ef as [E|E].
    - apply bool_decide_eq_true in E. rewrite E in *. split; [lia | done].
    - apply andb_true_iff in E as [E _]. apply bool_decide_eq_true in E.
      rewrite E in *. split; [lia | done]. }
  destruct Hst as [Hc Hne].
  destruct (release_loop_spec (pco q - cco q) q [] max false eq_refl Hc (proj1 Hok))
    as (fin & q2 & out2 & Hrel & Heq & _ & _ & _ & _ & Hfin).
  { cbn. lia. }
  { by rewrite bool_decide_eq_false_2. }
  unfold release. rewrite Hrel. exists q2. do 2 f_equal. f_equal.
  cbn [app] in Heq. rewrite <- Heq. destruct fin.
  - destruct Hfin as (Hl & Hc2 & Hs2 & Hp2). unfold held. rewrite Hs2, Hp2, Hc2. cbn.
    rewrite app_nil_r. rewrite take_ge; [done | lia].
  - destruct Hfin as (Hl & _). by rewrite take_app_length'.
Qed.

End RejoinerEnd.

Lemma stringsRead_ok : upstream_ok stringsRead id.
Proof.
  intros u k d e u' H. unfold stringsRead in H. destruct u as [|b u].
  - injection H as <- <- <-. split; [cbn; lia | done].
  - injection H as <- <- <-. split; [rewrite length_take; lia|].
    unfold id. by rewrite take_drop.
Qed.




Lemma forallb_take_drop (f : Z -> bool) (n : nat) (l : list Z) :
  forallb f l = true -> forallb f (take n l) = true /\ forallb f (drop n l) = true.
Proof.
  intros H. rewrite <- (take_drop n l), forallb_app in H. by apply andb_true_iff in H.
Qed.

Section RejoinerPlain.
Context {R : Type}.
Implicit Types q : @qpUTF8 R.

Lemma cycle_loop_plain (bs : list Z) : forall (i n : nat) q (out : list Z) (max : nat),
  state q = stNormal -> forallb plain bs = true ->
  (length out < max)%nat -> (length out + length bs <= max)%nat ->
  cycle_loop bs i n q out max
  = Some (if (length out + length bs <? max)%nat then (true, q, out ++ bs)
          else (false, set_pcb_ccb q n (i + length bs), out ++ bs)).
Proof.
  induction bs as [|b bs IH]; intros i n q out max Hst Hp Hl Hle.
  - cbn [cycle_loop length]. rewrite Nat.add_0_r, (proj2 (Nat.ltb_lt _ _) Hl).
    by rewrite app_nil_r.
  - cbn [forallb] in Hp. apply andb_true_iff in Hp as [Hb Hp].
    unfold plain in Hb. apply negb_true_iff in Hb.
    cbn [cycle_loop length] in *. unfold switch. rewrite Hst, Hb. unfold put.
    rewrite (proj2 (Nat.ltb_lt _ _) Hl), length_app. cbn [length].
    destruct (Nat.leb_spec max (length out + 1)) as [Hm|Hm].
    + assert (Hbs : bs = []) by (destruct bs; [done | cbn in Hle; lia]). subst bs.
      cbn [length]. rewrite (proj2 (Nat.ltb_ge _ _)) by lia. done.
    + rewrite Hst. cbn [bool_decide decide_rel orb].
      rewrite bool_decide_eq_false_2 by done. rewrite bool_decide_eq_false_2 by done.
      cbn [orb]. rewrite (IH (S i) n q (out ++ [b]) max Hst Hp).
      * rewrite length_app. cbn [length].
        replace (length out + 1 + length bs)%nat with (length out + S (length bs))%nat by lia.
        replace (S i + length bs)%nat with (i + S (length bs))%nat by lia.
        by rewrite <- (assoc_L (++)).
      * rewrite length_app. cbn. lia.
      * rewrite length_app. cbn. lia.
Qed.

End RejoinerPlain.

Lemma Read_plain (q : @qpUTF8 (list Z)) (max : nat) :
  clear q -> (0 < max)%nat -> forallb plain (r q) = true -> r q <> [] ->
  exists q',
    Read stringsRead q max = Some (take (max `min` 512) (r q), None, q')
    /\ clear q' /\ r q' = drop (max `min` 512) (r q).
Proof.
  intros (Hst & Hpco & Hcco & Hcb & Hbuf & Herr) Hmax Hp Hne. unfold Read.
  rewrite (proj2 (Nat.ltb_ge _ _) Hcb). cbv beta iota. rewrite Herr, Hpco, Hcco. cbn [length].
  replace (Z.of_nat max - Z.of_nat 0 - (Z.of_nat 0 - Z.of_nat 0)) with (Z.of_nat max) by lia.
  rewrite (proj2 (Z.ltb_lt 0 (Z.of_nat max))) by lia.
  set (k := (max `min` 512)%nat).
  assert (Hrd : (if 512 <? Z.of_nat max then stringsRead (r q) 512
                 else stringsRead (r q) (Z.to_nat (Z.of_nat max)))
                = (take k (r q), None, drop k (r q))).
  { unfold stringsRead, k. destruct (r q) as [|x s] eqn:Es; [done|].
    destruct (Z.ltb_spec 512 (Z.of_nat max)).
    - by replace (max `min` 512)%nat with 512%nat by lia.
    - rewrite Nat2Z.id. by replace (max `min` 512)%nat with max by lia. }
  rewrite Hrd. set (d := take k (r q)).
  assert (Hd : (length d <= k)%nat) by (unfold d; rewrite length_take; lia).
  assert (Hk : (k <= 512 /\ k <= max)%nat) by (unfold k; lia).
  unfold cycle. cbn [buf]. rewrite length_app, length_drop, Hbuf.
  rewrite (proj2 (Nat.ltb_ge _ _)) by lia.
  rewrite drop_0, Nat.sub_0_r, take_app_length.
  rewrite cycle_loop_plain; try done.
  - cbn [length Nat.add app].
    destruct (Nat.ltb_spec (length d) max).
    + unfold set_pcb_ccb. cbn [pco cco r state pos own buf last err Nat.leb]. eexists. split; [done|]. unfold clear. cbn.
      rewrite length_app, length_drop, Hbuf. split_and!; try done. lia.
    + eexists. split; [done|]. unfold clear, set_pcb_ccb. cbn.
      rewrite length_app, length_drop, Hbuf. split_and!; try done. lia.
  - by apply forallb_take_drop.
  - cbn. lia.
Qed.

Lemma Read_plain_end (q : @qpUTF8 (list Z)) (max : nat) :
  clear q -> (0 < max)%nat -> r q = [] ->
  exists q', Read stringsRead q max = Some ([], Some QP.EOF, q').
Proof.
  intros (Hst & Hpco & Hcco & Hcb & Hbuf & Herr) Hmax Hr. unfold Read.
  rewrite (proj2 (Nat.ltb_ge _ _) Hcb). cbv beta iota. rewrite Herr, Hpco, Hcco, Hr. cbn [length].
  replace (Z.of_nat max - Z.of_nat 0 - (Z.of_nat 0 - Z.of_nat 0)) with (Z.of_nat max) by lia.
  rewrite (proj2 (Z.ltb_lt 0 (Z.of_nat max))) by lia.
  assert (Hrd : (if 512 <? Z.of_nat max then stringsRead [] 512
                 else stringsRead [] (Z.to_nat (Z.of_nat max)))
                = ([], Some QP.EOF, [])) by (by destruct (512 <? Z.of_nat max)).
  rewrite Hrd. unfold cycle. cbn [buf length app take drop Nat.sub Nat.ltb Nat.leb cycle_loop].
  unfold set_pcb_ccb. cbn [pco cco err Nat.leb]. by eexists.
Qed.

Lemma readUntil_plain (sched : list nat) : forall (q : @qpUTF8 (list Z)),
  clear q -> forallb plain (r q) = true -> Forall (fun m => (0 < m)%nat) sched ->
  (length (r q) < length sched)%nat ->
  readUntil stringsRead sched q = Some (r q, Some QP.EOF).
Proof.
  induction sched as [|m sched IH]; intros q Hc Hp Hs Hl; [cbn in Hl; lia|].
  apply Forall_cons in Hs as [Hm Hs]. cbn [readUntil].
  destruct (decide (r q = [])) as [Es|Es].
  - destruct (Read_plain_end q m Hc Hm Es) as (q' & ->). by rewrite Es.
  - destruct (Read_plain q m Hc Hm Hp Es) as (q' & -> & Hc' & Hr').
    rewrite (IH q' Hc').
    + by rewrite Hr', take_drop.
    + rewrite Hr'. by apply forallb_take_drop.
    + done.
    + rewrite Hr', length_drop. destruct (r q); [done|]. cbn [length] in *. lia.
Qed.

Lemma ReadAll_plain (n m : nat) : forall (q : @qpUTF8 (list Z)),
  clear q -> forallb plain (r q) = true -> (0 < m)%nat -> (length (r q) < n)%nat ->
  ReadAll stringsRead n m q = Some (r q, None).
Proof.
  induction n as [|n IH]; intros q Hc Hp Hm Hl; [lia|]. cbn [ReadAll].
  destruct (decide (r q = [])) as [Es|Es].
  - destruct (Read_plain_end q m Hc Hm Es) as (q' & ->). by rewrite Es.
  - destruct (Read_plain q m Hc Hm Hp Es) as (q' & -> & Hc' & Hr').
    rewrite (IH q' Hc').
    + by rewrite Hr', take_drop.
    + rewrite Hr'. by apply forallb_take_drop.
    + done.
    + rewrite Hr', length_drop. destruct (r q); [done|]. cbn [length] in *. lia.
Qed.

(** X18: a text with no byte that starts a multi-byte sequence (top two
    bits 11) goes through the rejoiner as it is, whatever the sizes of the
    buffers it is read with: the bytes come out unchanged and in order, and
    the end of the text is reported as [io.EOF]. *)
Theorem plain_text_unchanged (s : list Z) (sched : list nat) (n m : nat)
    (Hplain : forallb plain s = true)
    (Hsched : Forall (fun m => (0 < m)%nat) sched) (Hlen : (length s < length sched)%nat)
    (Hm : (0 < m)%nat) (Hn : (length s < n)%nat) :
  readUntil stringsRead sched (newQPUTF8 s) = Some (s, Some QP.EOF)
  /\ ReadAll stringsRead n m (newQPUTF8 s) = Some (s, None).
Proof.
  assert (Hc : clear (newQPUTF8 s)) by (unfold clear; cbn; split_and!; try done; lia).
  split.
  - by apply (readUntil_plain sched (newQPUTF8 s)).
  - by apply (ReadAll_plain n m (newQPUTF8 s)).
Qed.

(** The theorem on a text of two lines, read into buffers of 1, 2, 3, ...
    bytes. *)
Lemma plain_text_unchanged_witness :
  forallb plain (B "ab\r\ncd\x80") = true
  /\ readUntil stringsRead (seq 1 8) (newQPUTF8 (B "ab\r\ncd\x80"))
     = Some (B "ab\r\ncd\x80", Some QP.EOF)
  /\ ReadAll stringsRead 8 3 (newQPUTF8 (B "ab\r\ncd\x80")) = Some (B "ab\r\ncd\x80", None).
Proof.
  assert (H1 : forallb plain (B "ab\r\ncd\x80") = true) by (vm_compute; reflexivity).
  assert (H2 : Forall (fun m => (0 < m)%nat) (seq 1 8)) by (repeat constructor).
  assert (H3 : (length (B "ab\r\ncd\x80") < length (seq 1 8))%nat) by (vm_compute; lia).
  assert (H4 : (0 < 3)%nat) by lia.
  assert (H5 : (length (B "ab\r\ncd\x80") < 8)%nat) by (vm_compute; lia).
  split; [exact H1|].
  exact (plain_text_unchanged (B "ab\r\ncd\x80") (seq 1 8) 8 3 H1 H2 H3 H4 H5).
Defined.

Section RejoinerStall.
Context {R : Type}.
Variable rd : R -> nat -> list Z * option error * R.
Implicit Types q : @qpUTF8 R.

(** [Read] into a buffer that is no larger than what is held takes nothing
    from the upstream and writes nothing. *)
Lemma Read_stalls q (max : nat) :
  err q = None -> (pcb q <= ccb q)%nat -> (max <= pco q - cco q)%nat ->
  (cco q < pco q)%nat ->
  Read rd q max = Some ([], None, set_pcb_ccb q 0 0).
Proof.
  intros Herr Hcb Hmax Hheld. unfold Read.
  rewrite (proj2 (Nat.ltb_ge _ _) Hcb). cbv beta iota. rewrite Herr. cbn [length].
  rewrite (proj2 (Z.ltb_ge _ _)) by lia.
  unfold cycle. cbn [buf length app Nat.sub Nat.ltb Nat.leb]. rewrite take_0.
  cbn [cycle_loop]. unfold set_pcb_ccb. cbn [pco cco err r state pos own buf last pcb ccb].
  rewrite (proj2 (Nat.leb_gt _ _) Hheld). rewrite drop_0, Herr. done.
Qed.


End RejoinerStall.


Section RejoinerUnbroken.
Context {R : Type}.
Implicit Types q : @qpUTF8 R.

Lemma steady_held q : steady q -> held q = take (pco q) (own q) /\ length (held q) = pco q.
Proof.
  intros (Ho & Hc & Hs). rewrite (held_idle' q Hc).
  assert (Hne : state q <> stReleaseRestart) by (destruct Hs as [[-> _]|[-> _]]; done).
  rewrite (bool_decide_eq_false_2 _ Hne), app_nil_r. split; [done|].
  rewrite length_take. destruct Hs as [[_ ->]|[_ ?]]; lia.
Qed.

Lemma cycle_step_unbroken q (b : Z) (bs : list Z) (i n : nat) (out : list Z) (max : nat) :
  steady q -> inLine b = true -> (length out + length (held q) + 1 < max)%nat ->
  exists q' out',
    cycle_loop (b :: bs) i n q out max = cycle_loop bs (S i) n q' out' max
    /\ steady q' /\ same q q' /\ pcb q' = pcb q /\ ccb q' = ccb q
    /\ out' ++ held q' = out ++ held q ++ [b]
    /\ (plain b = true -> settled q').
Proof.
  intros Hst Hb Hroom. destruct (steady_held q Hst) as [Hh Hhl]. rewrite Hhl in Hroom.
  rewrite Hh. destruct Hst as (Ho & Hc & Hs).
  unfold inLine in Hb. apply andb_true_iff in Hb as [H13 H10].
  apply negb_true_iff in H13, H10.
  cbn [cycle_loop]. unfold switch.
  destruct Hs as [[Hs Hp]|[Hs Hp]]; rewrite Hs.
  - (* stNormal *)
    rewrite Hp. cbn [take app]. destruct (c0mask b =? 192) eqn:E192.
    + unfold set_own. simp_q. rewrite Ho. cbn [Nat.ltb Nat.leb].
      rewrite !bool_decide_eq_false_2 by done. cbn [orb].
      eexists _, _. split; [reflexivity|]. unfold steady, same, settled. simp_q.
      rewrite length_insert, Hc. split_and!; try done.
      * right. split; [done | lia].
      * rewrite held_idle. cbn. destruct (own q); [done|]. by cbn.
      * unfold plain. by rewrite E192.
    + unfold put. rewrite (proj2 (Nat.ltb_lt _ _)) by lia.
      rewrite (proj2 (Nat.leb_gt _ _)) by (rewrite length_app; cbn; lia).
      rewrite Hs. rewrite !bool_decide_eq_false_2 by done. cbn [orb].
      eexists _, _. split; [reflexivity|]. unfold steady, same, settled.
      split_and!; try done.
      * by left.
      * rewrite (held_idle' q Hc), Hp, Hs. cbn. by rewrite app_nil_r.
      * by left.
  - (* stStart *)
    destruct (c0mask b =? 192) eqn:E192.
    + simp_q. rewrite bool_decide_eq_true_2 by done. cbn [orb].
      rewrite release_all; simp_q; try done; try lia.
      rewrite Hc, Nat.sub_0_r, drop_0.
      eexists _, _. split; [reflexivity|]. unfold steady, same, settled. simp_q.
      rewrite length_insert. split_and!; try done.
      * right. split; [done | lia].
      * rewrite held_idle. cbn. rewrite <- (assoc_L (++)). do 2 f_equal.
        destruct (own q); [done|]. by cbn.
      * unfold plain. by rewrite E192.
    + unfold push_own, set_own. rewrite (proj2 (Nat.ltb_lt (pco q) _)) by lia. simp_q.
      rewrite H13, H10.
      destruct (negb (c0mask b =? 128) || (UTFMax <=? S (pco q))%nat) eqn:E.
      * simp_q. rewrite bool_decide_eq_false_2 by done.
        rewrite bool_decide_eq_true_2 by done. cbn [orb].
        rewrite release_all; simp_q; rewrite ?length_insert; try done; try lia.
        rewrite Hc, Nat.sub_0_r, drop_0, take_push by lia.
        eexists _, _. split; [reflexivity|]. unfold steady, same, settled. simp_q.
        rewrite length_insert. split_and!; try done.
        -- by left.
        -- rewrite held_idle, take_0. rewrite bool_decide_eq_false_2 by done.
           by rewrite !app_nil_r.
        -- by left.
      * rewrite Hs. rewrite !bool_decide_eq_false_2 by done. cbn [orb].
        apply orb_false_iff in E as [_ E]. apply Nat.leb_gt in E. unfold UTFMax in E.
        eexists _, _. split; [reflexivity|]. unfold steady, same, settled. simp_q.
        rewrite length_insert. split_and!; try done.
        -- right. split; [done | lia].
        -- rewrite Hc, held_idle, take_push by lia.
           rewrite bool_decide_eq_false_2 by done. by rewrite app_nil_r.
        -- right. lia.
Qed.

Lemma cycle_loop_unbroken (bs : list Z) : forall (i n : nat) q (out : list Z) (max : nat),
  steady q -> forallb inLine bs = true ->
  (length out + length (held q) + length bs < max)%nat ->
  exists q' out',
    cycle_loop bs i n q out max = Some (true, q', out')
    /\ steady q' /\ same q q' /\ pcb q' = pcb q /\ ccb q' = ccb q
    /\ out' ++ held q' = out ++ held q ++ bs
    /\ (endsPlain bs = true -> bs <> [] -> settled q')
    /\ (bs = [] -> q' = q /\ out' = out).
Proof.
  induction bs as [|b bs IH]; intros i n q out max Hst Hb Hroom.
  - exists q, out. cbn [cycle_loop]. rewrite app_nil_r. split_and!; try done.
  - cbn [forallb] in Hb. apply andb_true_iff in Hb as [Hb Hbs]. cbn [length] in Hroom.
    destruct (cycle_step_unbroken q b bs i n out max Hst Hb ltac:(lia))
      as (q1 & out1 & -> & Hst1 & Hsame1 & Hp1 & Hc1 & Heq1 & Hset1).
    assert (Hlen : (length out1 + length (held q1) = length out + length (held q) + 1)%nat).
    { apply (f_equal length) in Heq1. rewrite !length_app in Heq1. cbn in Heq1. lia. }
    destruct (IH (S i) n q1 out1 max Hst1 Hbs ltac:(lia))
      as (q' & out' & -> & Hst' & Hsame' & Hp' & Hc' & Heq' & Hset' & Hnil').
    exists q', out'. split; [done|]. split; [done|].
    split; [destruct Hsame1 as (?&?&?), Hsame' as (?&?&?); unfold same; split_and!; congruence|].
    split; [congruence|]. split; [congruence|]. split.
    { rewrite Heq'. rewrite (assoc_L (++) out1), Heq1. by rewrite <- !(assoc_L (++)). }
    split; [|done]. intros He _. destruct bs as [|b' bs'].
    + destruct (Hnil' eq_refl) as [-> _]. apply Hset1. by cbn in He.
    + apply Hset'; [|done]. unfold endsPlain in *. cbn [rev] in *.
      destruct (rev bs' ++ [b']) as [|x l] eqn:Er.
      * by destruct (rev bs').
      * by cbn in He.
Qed.

End RejoinerUnbroken.

Lemma Read_unbroken (q : @qpUTF8 (list Z)) (max : nat) :
  ready q -> (515 < max)%nat -> forallb inLine (r q) = true -> r q <> [] ->
  exists out q',
    Read stringsRead q max = Some (out, None, q')
    /\ ready q' /\ r q' = drop 512 (r q)
    /\ out ++ held q' = held q ++ take 512 (r q)
    /\ (endsPlain (take 512 (r q)) = true -> settled q').
Proof.
  intros (Hst & Hcb & Hbuf & Herr) Hmax Hp Hne. unfold Read.
  rewrite (proj2 (Nat.ltb_ge _ _) Hcb). cbv beta iota. rewrite Herr. cbn [length].
  destruct (steady_held q Hst) as [Hh Hhl].
  assert (Hpco : (pco q <= 3)%nat /\ cco q = 0%nat).
  { destruct Hst as (_ & Hc & [[_ ->]|[_ ?]]); lia. }
  rewrite (proj2 (Z.ltb_lt 0 _)) by lia. rewrite (proj2 (Z.ltb_lt 512 _)) by lia.
  assert (Hrd : stringsRead (r q) 512 = (take 512 (r q), None, drop 512 (r q))).
  { unfold stringsRead. by destruct (r q). }
  rewrite Hrd. set (d := take 512 (r q)).
  assert (Hd : (length d <= 512)%nat) by (unfold d; rewrite length_take; lia).
  assert (Hdne : d <> []) by (unfold d; destruct (r q); done).
  unfold cycle. cbn [buf]. rewrite length_app, length_drop, Hbuf.
  rewrite (proj2 (Nat.ltb_ge _ _)) by lia.
  rewrite drop_0, Nat.sub_0_r, take_app_length.
  set (q2 := mkQ (drop 512 (r q)) (state q) (pos q) (pco q) (cco q) (own q) (pcb q) (ccb q)
                 (d ++ drop (length d) (buf q)) (last q) None).
  assert (Hst2 : steady q2) by done.
  assert (Hh2 : held q2 = held q) by done.
  destruct (cycle_loop_unbroken d 0 (length d) q2 [] max Hst2)
    as (q3 & out3 & -> & Hst3 & (Hr3 & Hb3 & He3) & Hp3 & Hc3 & Heq3 & Hset3 & _).
  { by apply forallb_take_drop. }
  { rewrite Hh2, Hhl. cbn [length]. lia. }
  cbn [app] in Heq3. rewrite Hh2 in Heq3.
  assert (Hres : (if (pco (set_pcb_ccb q3 0 0) <=? cco (set_pcb_ccb q3 0 0))%nat
                  then Some (out3, err (set_pcb_ccb q3 0 0), set_pcb_ccb q3 0 0)
                  else Some (out3, None, set_pcb_ccb q3 0 0))
                 = Some (out3, None, set_pcb_ccb q3 0 0)).
  { cbn [err set_pcb_ccb]. rewrite He3. cbn [err q2]. by destruct (_ <=? _)%nat. }
  rewrite Hres. exists out3, (set_pcb_ccb q3 0 0). split; [done|].
  split; [|split; [unfold set_pcb_ccb; cbn [r]; by rewrite Hr3|split; [done|]]].
  - unfold ready. cbn [set_pcb_ccb pcb ccb buf err]. rewrite Hb3, He3. cbn [buf err q2].
    rewrite length_app, length_drop, Hbuf. split_and!; try done. lia.
  - intros He. unfold settled. cbn [set_pcb_ccb state pco]. by apply Hset3.
Qed.

(** At the end of the upstream, what is held is written by the [Read] that
    returns [io.EOF]. *)
Lemma ReadAll_unbroken_end (q : @qpUTF8 (list Z)) (n max : nat) :
  ready q -> (515 < max)%nat -> r q = [] -> settled q ->
  ReadAll stringsRead (S (S n)) max q = Some (held q, None).
Proof.
  intros (Hst & Hcb & Hbuf & Herr) Hmax Hr Hset.
  destruct (steady_held q Hst) as [Hh Hhl].
  assert (Hpco : (pco q <= 3)%nat /\ cco q = 0%nat).
  { destruct Hst as (_ & Hc & [[_ ->]|[_ ?]]); lia. }
  assert (Hread : Read stringsRead q max
                  = if (pco q <=? cco q)%nat
                    then Some ([], Some QP.EOF,
                               mkQ [] (state q) (pos q) (pco q) (cco q) (own q) 0 0
                                   (buf q) (last q) (Some QP.EOF))
                    else Some ([], None,
                               mkQ [] (state q) (pos q) (pco q) (cco q) (own q) 0 0
                                   (buf q) (last q) (Some QP.EOF))).
  { unfold Read. rewrite (proj2 (Nat.ltb_ge _ _) Hcb). cbv beta iota. rewrite Herr, Hr.
    cbn [length]. rewrite (proj2 (Z.ltb_lt 0 _)) by lia. rewrite (proj2 (Z.ltb_lt 512 _)) by lia.
    unfold stringsRead. unfold cycle. cbn [buf length app Nat.sub Nat.ltb Nat.leb].
    rewrite take_0. cbn [cycle_loop]. unfold set_pcb_ccb.
    cbn [pco cco err r state pos own buf last pcb ccb]. by rewrite drop_0. }
  cbn [ReadAll]. rewrite Hread. destruct (Nat.leb_spec (pco q) (cco q)) as [Hle|Hgt].
  - rewrite Hh. replace (pco q) with 0%nat by lia. done.
  - set (q4 := mkQ [] (state q) (pos q) (pco q) (cco q) (own q) 0 0 (buf q) (last q)
                   (Some QP.EOF)).
    assert (Hs : state q = stStart /\ (1 < pco q)%nat).
    { destruct Hst as (_ & _ & [[_ ?]|[? ?]]); [lia|]. destruct Hset as [Hn|?]; [congruence|done]. }
    destruct Hs as [Hs Hp1].
    destruct (Read_failed stringsRead q4 max QP.EOF) as (q' & Hrf); try done; try lia.
    { destruct Hst as (Ho & Hc & _). unfold okst. cbn [own state q4 cco pco]. rewrite Hs.
      split; [done|]. lia. }
    cbn [ReadAll]. rewrite Hrf.
    assert (Hfl : flushes q4 = true).
    { unfold flushes. cbn [state pco cco q4]. rewrite Hs.
      rewrite bool_decide_eq_false_2 by done. rewrite bool_decide_eq_true_2 by done.
      cbn [orb andb]. apply Nat.ltb_lt. lia. }
    rewrite Hfl. change (held q4) with (held q). rewrite take_ge by lia. done.
Qed.

Lemma endsPlain_take_drop (s : list Z) (k : nat) :
  endsPlain s = true ->
  (drop k s = [] -> endsPlain (take k s) = true) /\ endsPlain (drop k s) = true.
Proof.
  intros H. split.
  - intros Hd. rewrite <- (take_drop k s), Hd, app_nil_r in H. done.
  - rewrite <- (take_drop k s) in H. unfold endsPlain in *. rewrite rev_app_distr in H.
    destruct (rev (drop k s)) as [|x l]; [done|]. by cbn in H.
Qed.

Lemma ReadAll_unbroken (n max : nat) : forall (q : @qpUTF8 (list Z)),
  ready q -> (515 < max)%nat -> forallb inLine (r q) = true -> endsPlain (r q) = true ->
  (r q = [] -> settled q) -> (length (r q) + 1 < n)%nat ->
  ReadAll stringsRead n max q = Some (held q ++ r q, None).
Proof.
  induction n as [|n IH]; intros q Hq Hmax Hp He Hset Hn; [lia|].
  destruct (decide (r q = [])) as [Hr|Hr].
  - destruct n as [|n]; [lia|]. rewrite Hr, app_nil_r.
    apply ReadAll_unbroken_end; auto.
  - destruct (Read_unbroken q max Hq Hmax Hp Hr) as (out & q' & Hread & Hq' & Hr' & Heq & Hs').
    cbn [ReadAll]. rewrite Hread.
    destruct (endsPlain_take_drop (r q) 512 He) as [He1 He2].
    rewrite (IH q' Hq' Hmax).
    + rewrite (assoc_L (++)), Heq, Hr', <- (assoc_L (++)). by rewrite take_drop.
    + rewrite Hr'. by apply forallb_take_drop.
    + by rewrite Hr'.
    + rewrite Hr'. intros Hd. by apply Hs', He1.
    + rewrite Hr', length_drop. destruct (r q); [done|]. cbn [length] in *. lia.
Qed.

(** X20: a text without CR and LF that does not end with a byte that
    starts a multi-byte sequence goes through the rejoiner as it is, when it
    is read to its end with buffers of more than 515 bytes: multi-byte
    sequences that no line break cuts are left alone. *)
Theorem unbroken_text_unchanged (s : list Z) (n m : nat)
    (Hline : forallb inLine s = true) (Hend : endsPlain s = true)
    (Hm : (515 < m)%nat) (Hn : (length s + 1 < n)%nat) :
  ReadAll stringsRead n m (newQPUTF8 s) = Some (s, None).
Proof.
  assert (Hq : ready (newQPUTF8 s)).
  { unfold ready, steady. cbn. split_and!; try done; try lia. by left. }
  rewrite (ReadAll_unbroken n m (newQPUTF8 s) Hq Hm Hline Hend); [done| |done].
  intros _. by left.
Qed.

(** The theorem on a text with sequences of two, three and four bytes. *)
Lemma unbroken_text_unchanged_witness :
  forallb inLine (B "a\xc3\xa9\xe2\x82\xac\xf0\x9f\x98\x80\xc3\xa9") = true
  /\ endsPlain (B "a\xc3\xa9\xe2\x82\xac\xf0\x9f\x98\x80\xc3\xa9") = true
  /\ ReadAll stringsRead 14 516 (newQPUTF8 (B "a\xc3\xa9\xe2\x82\xac\xf0\x9f\x98\x80\xc3\xa9"))
     = Some (B "a\xc3\xa9\xe2\x82\xac\xf0\x9f\x98\x80\xc3\xa9", None).
Proof.
  assert (H1 : forallb inLine (B "a\xc3\xa9\xe2\x82\xac\xf0\x9f\x98\x80\xc3\xa9") = true)
    by (vm_compute; reflexivity).
  assert (H2 : endsPlain (B "a\xc3\xa9\xe2\x82\xac\xf0\x9f\x98\x80\xc3\xa9") = true)
    by (vm_compute; reflexivity).
  assert (H3 : (515 < 516)%nat) by lia.
  assert (H4 : (length (B "a\xc3\xa9\xe2\x82\xac\xf0\x9f\x98\x80\xc3\xa9") + 1 < 14)%nat)
    by (vm_compute; lia).
  split; [exact H1|]. split; [exact H2|].
  exact (unbroken_text_unchanged _ 14 516 H1 H2 H3 H4).
Defined.

End UTF8Facts.

(** ** Media types *)

Module MimeFacts.
Import Mime MimeSpec.
Local Open Scope string_scope.
Local Open Scope list_scope.
Local Open Scope Z_scope.

Lemma str_app_cons (c : ascii) (a b : string) : String c a +:+ b = String c (a +:+ b).
Proof. reflexivity. Qed.

Lemma str_app_nil_l (b : string) : "" +:+ b = b.
Proof. reflexivity. Qed.

Ltac sapp := rewrite ?str_app_cons, ?str_app_nil_l.

Lemma str_length_app (a b : string) :
  String.length (a +:+ b) = (String.length a + String.length b)%nat.
Proof. induction a as [|c a IH]; sapp; cbn; [done | by rewrite IH]. Qed.

Lemma str_app_nil_r (a : string) : a +:+ "" = a.
Proof. induction a as [|c a IH]; sapp; [done | by rewrite IH]. Qed.

Lemma str_app_assoc (a b c : string) : (a +:+ b) +:+ c = a +:+ b +:+ c.
Proof. induction a as [|x a IH]; sapp; [done | by rewrite IH]. Qed.

Lemma substring_all (s : string) : substring 0 (String.length s) s = s.
Proof. induction s as [|c s IH]; cbn; [done | by rewrite IH]. Qed.

Lemma from_0 (s : string) : from 0 s = s.
Proof. unfold from. rewrite Nat.sub_0_r. apply substring_all. Qed.

Lemma from_S (i : nat) (c : ascii) (s : string) : from (S i) (String c s) = from i s.
Proof. reflexivity. Qed.

Lemma upto_app (a r : string) : upto (String.length a) (a +:+ r) = a.
Proof.
  unfold upto. induction a as [|c a IH]; sapp; cbn.
  - by destruct r.
  - by rewrite IH.
Qed.

Lemma from_app (a r : string) : from (String.length a) (a +:+ r) = r.
Proof.
  induction a as [|c a IH]; sapp; cbn [String.length].
  - apply from_0.
  - by rewrite from_S.
Qed.

Lemma Index_app (a r : string) (c : ascii) :
  Index a c = None -> Index (a +:+ String c r) c = Some (String.length a).
Proof.
  induction a as [|x a IH]; sapp; cbn; intros H.
  - by rewrite Ascii.eqb_refl.
  - destruct (Ascii.eqb x c); [done|].
    destruct (Index a c); [done|]. by rewrite IH.
Qed.

Lemma from_S_app (x y : string) (c : ascii) :
  from (S (String.length x)) (x +:+ String c y) = y.
Proof.
  induction x as [|d x IH]; sapp; cbn [String.length]; rewrite from_S; [apply from_0 | done].
Qed.

Lemma SplitN3_app (a b r : string) :
  Index a "'" = None -> Index b "'" = None ->
  SplitN3 (a +:+ "'" +:+ b +:+ "'" +:+ r) = Some (a, b, r).
Proof.
  intros Ha Hb. unfold SplitN3. sapp.
  rewrite (Index_app a _ _ Ha), from_S_app.
  by rewrite (Index_app b _ _ Hb), !upto_app, from_S_app.
Qed.



Lemma byte_of_ascii_range (c : ascii) : 0 <= byte_of_ascii c < 256.
Proof.
  unfold byte_of_ascii. pose proof (N_ascii_bounded c). lia.
Qed.

Lemma decode_ascii (c : ascii) (s : string) :
  byte_of_ascii c < 128 -> DecodeRuneInString (String c s) = (byte_of_ascii c, 1%nat).
Proof.
  intros H. unfold DecodeRuneInString.
  destruct (Z.ltb_spec (byte_of_ascii c) 128); [done|lia].
Qed.

Lemma decode_width (c : ascii) (s : string) :
  (1 <= snd (DecodeRuneInString (String c s)) <= String.length (String c s))%nat.
Proof.
  unfold DecodeRuneInString.
  repeat case_match; simplify_eq; cbn [snd String.length]; lia.
Qed.

Lemma substring_from (w : nat) (s : string) :
  (w <= String.length s)%nat -> substring 0 w s +:+ from w s = s.
Proof.
  revert w; induction s as [|c s IH]; intros [|w] Hw; cbn in Hw; try lia.
  - done.
  - cbn [substring]. sapp. apply from_0.
  - cbn [substring]. sapp. rewrite from_S. f_equal. apply IH. lia.
Qed.

Lemma unrunes_runes_from (s : string) (skip : nat) :
  (skip <= String.length s)%nat -> unrunes (runes_from s skip) = from skip s.
Proof.
  revert skip; induction s as [|c s IH]; intros skip Hs.
  - cbn in Hs. by replace skip with 0%nat by lia.
  - cbn [runes_from]. destruct skip as [|k].
    + pose proof (decode_width c s) as Hw.
      destruct (DecodeRuneInString (String c s)) as [r w]. cbn [snd] in Hw.
      cbn [unrunes foldr snd]. fold (unrunes (runes_from s (w - 1))).
      rewrite IH by (cbn in Hw; lia).
      rewrite from_0. destruct w as [|w]; [lia|].
      replace (S w - 1)%nat with w by lia.
      rewrite <- (from_S w c s). apply substring_from. lia.
    + rewrite from_S. apply IH. cbn in Hs. lia.
Qed.

Lemma unrunes_runes (s : string) : unrunes (runes s) = s.
Proof. unfold runes. rewrite unrunes_runes_from by lia. apply from_0. Qed.

Lemma runes_cons_ascii (c : ascii) (s : string) :
  byte_of_ascii c < 128 ->
  runes (String c s) = (byte_of_ascii c, String c "") :: runes s.
Proof.
  intros H. unfold runes. cbn [runes_from]. rewrite decode_ascii by done.
  cbn [substring]. by destruct s.
Qed.

Lemma TrimLeftSpace_nonspace (c : ascii) (s : string) :
  byte_of_ascii c < 128 -> IsSpace (byte_of_ascii c) = false ->
  TrimLeftSpace (String c s) = String c s.
Proof.
  intros Ha Hs. unfold TrimLeftSpace. rewrite runes_cons_ascii by done.
  cbn [dropSpaces fst]. rewrite Hs, <- runes_cons_ascii by done. apply unrunes_runes.
Qed.

Lemma TrimLeftSpace_space (c : ascii) (s : string) :
  byte_of_ascii c < 128 -> IsSpace (byte_of_ascii c) = true ->
  TrimLeftSpace (String c s) = TrimLeftSpace s.
Proof.
  intros Ha Hs. unfold TrimLeftSpace. rewrite runes_cons_ascii by done.
  cbn [dropSpaces fst]. by rewrite Hs.
Qed.

(** Token characters. *)
Lemma isTokenChar_spec (b : Z) :
  isTokenChar b = true ->
  32 < b < 127 /\ IsSpace b = false /\ b <> 59 /\ b <> 61 /\ b <> 47 /\ b <> 34
  /\ b <> 92 /\ b <> 13 /\ b <> 10.
Proof.
  unfold isTokenChar, isTSpecial. cbn [existsb].
  rewrite !andb_true_iff, negb_true_iff, !orb_false_iff, !Z.eqb_neq, !Z.ltb_lt.
  intros [[H1 H2] H3]. repeat split; try lia.
  unfold IsSpace.
  destruct (Z.leb_spec b 255); [|lia].
  destruct (Z.leb_spec 9 b); [|lia].
  destruct (Z.leb_spec b 13); [lia|].
  destruct (Z.eqb_spec b 32); [lia|].
  destruct (Z.eqb_spec b 133); [lia|].
  destruct (Z.eqb_spec b 160); [lia|]. done.
Qed.

Lemma byte_ascii_of_byte (z : Z) : 0 <= z < 256 -> byte_of_ascii (ascii_of_byte z) = z.
Proof.
  intros H. unfold byte_of_ascii, ascii_of_byte.
  rewrite N_ascii_embedding by lia. lia.
Qed.

Lemma isTokenChar_lower (c : ascii) :
  isTokenChar (byte_of_ascii c) = true -> isTokenChar (byte_of_ascii (lowerByte c)) = true.
Proof.
  intros H. unfold lowerByte.
  destruct ((65 <=? byte_of_ascii c) && (byte_of_ascii c <=? 90)) eqn:E; [|done].
  apply andb_true_iff in E as [E1%Z.leb_le E2%Z.leb_le].
  rewrite byte_ascii_of_byte by lia.
  unfold isTokenChar, isTSpecial. cbn [existsb].
  rewrite !andb_true_iff, negb_true_iff, !orb_false_iff, !Z.eqb_neq, !Z.ltb_lt.
  repeat split; lia.
Qed.

Lemma tokens_nil : tokens "".
Proof. done. Qed.

Lemma tokens_cons (c : ascii) (s : string) :
  tokens (String c s) <-> isTokenChar (byte_of_ascii c) = true /\ tokens s.
Proof.
  unfold tokens. cbn [IndexNotToken]. unfold isNotTokenChar.
  destruct (isTokenChar (byte_of_ascii c)); cbn [negb].
  - destruct (IndexNotToken s); naive_solver.
  - naive_solver.
Qed.

Lemma isToken_spec (s : string) : isToken s = true <-> s <> "" /\ tokens s.
Proof.
  unfold isToken, tokens. destruct s as [|c s]; [naive_solver|].
  destruct (IndexNotToken (String c s)); naive_solver.
Qed.

Lemma tokens_ToLower (s : string) : tokens s -> tokens (ToLower s).
Proof.
  induction s as [|c s IH]; [done|]. cbn [ToLower].
  rewrite !tokens_cons. intros [H1 H2]. split; [by apply isTokenChar_lower | auto].
Qed.

Lemma ToLower_app (a b : string) : ToLower (a +:+ b) = ToLower a +:+ ToLower b.
Proof. induction a as [|c a IH]; sapp; cbn [ToLower]; sapp; [done | by rewrite IH]. Qed.

Lemma ToLower_nil_iff (s : string) : ToLower s = "" <-> s = "".
Proof. by destruct s. Qed.

Lemma tokens_Index (s : string) (c : ascii) :
  tokens s -> isTokenChar (byte_of_ascii c) = false -> Index s c = None.
Proof.
  induction s as [|x s IH]; [done|]. rewrite tokens_cons. intros [H1 H2] Hc.
  cbn [Index]. destruct (Ascii.eqb_spec x c) as [->|]; [congruence|].
  by rewrite IH.
Qed.

Lemma Index_app_None (a b : string) (c : ascii) :
  Index a c = None -> Index b c = None -> Index (a +:+ b) c = None.
Proof.
  induction a as [|x a IH]; sapp; [done|]. cbn [Index].
  destruct (Ascii.eqb x c); [done|]. destruct (Index a c); [done|].
  intros _ Hb. by rewrite IH.
Qed.

Lemma IndexNotToken_app (a r : string) (c : ascii) :
  tokens a -> isTokenChar (byte_of_ascii c) = false ->
  IndexNotToken (a +:+ String c r) = Some (String.length a).
Proof.
  intros Ha Hc. induction a as [|x a IH]; sapp; cbn [IndexNotToken String.length].
  - unfold isNotTokenChar. by rewrite Hc.
  - apply tokens_cons in Ha as [H1 H2]. unfold isNotTokenChar. rewrite H1. cbn [negb].
    by rewrite IH.
Qed.

Lemma consumeToken_app (a r : string) (c : ascii) :
  a <> "" -> tokens a -> isTokenChar (byte_of_ascii c) = false ->
  consumeToken (a +:+ String c r) = (a, String c r).
Proof.
  intros Hne Ha Hc. unfold consumeToken. rewrite IndexNotToken_app by done.
  destruct a as [|x a]; [done|]. cbn [String.length].
  change (S (String.length a)) with (String.length (String x a)).
  by rewrite upto_app, from_app.
Qed.

Lemma consumeToken_all (a : string) : tokens a -> consumeToken a = (a, "").
Proof. intros Ha. unfold consumeToken. by rewrite Ha. Qed.

Lemma dropSpaces_app_keep (l m : list (Z * string)) (x : Z * string) :
  IsSpace (fst x) = false -> exists k, dropSpaces (l ++ x :: m) = k ++ x :: m.
Proof.
  intros Hx. induction l as [|y l IH]; cbn [dropSpaces app].
  - exists []. by rewrite Hx.
  - destruct (IsSpace (fst y)); [done|]. by exists (y :: l).
Qed.

(** Trimming keeps a string that starts and ends with a byte that is no space. *)
Lemma TrimSpace_keep (c : ascii) (s : string) (x : Z * string) (l : list (Z * string)) :
  byte_of_ascii c < 128 -> IsSpace (byte_of_ascii c) = false ->
  runes s = l ++ [x] -> IsSpace (fst x) = false ->
  TrimSpace (String c s) = String c s.
Proof.
  intros Hc Hs Hl Hx. unfold TrimSpace. rewrite runes_cons_ascii by done.
  cbn [dropSpaces fst]. rewrite Hs, Hl.
  change ((byte_of_ascii c, String c "") :: l ++ [x])
    with (((byte_of_ascii c, String c "") :: l) ++ [x]).
  rewrite rev_unit. cbn [dropSpaces]. rewrite Hx.
  rewrite <- rev_unit, rev_involutive. cbn [app].
  rewrite <- Hl, <- runes_cons_ascii by done. apply unrunes_runes.
Qed.

Lemma TrimSpace_single (c : ascii) :
  byte_of_ascii c < 128 -> IsSpace (byte_of_ascii c) = false ->
  TrimSpace (String c "") = String c "".
Proof.
  intros Hc Hs. unfold TrimSpace. rewrite runes_cons_ascii by done.
  cbn [dropSpaces fst runes runes_from]. rewrite Hs. cbn [rev app dropSpaces fst].
  by rewrite Hs.
Qed.

Lemma runes_tokens_last (c : ascii) (s : string) :
  tokens (String c s) ->
  exists l x, runes (String c s) = l ++ [x] /\ IsSpace (fst x) = false.
Proof.
  revert c; induction s as [|d s IH]; intros c Hc.
  - apply tokens_cons in Hc as [Hc _]. apply isTokenChar_spec in Hc as (?&?&_).
    exists [], (byte_of_ascii c, String c ""). split; [|done].
    rewrite runes_cons_ascii by lia. done.
  - apply tokens_cons in Hc as [Hc Hs]. apply isTokenChar_spec in Hc as (?&?&_).
    destruct (IH d Hs) as (l & x & Hl & Hx).
    exists ((byte_of_ascii c, String c "") :: l), x. split; [|done].
    rewrite runes_cons_ascii by lia. by rewrite Hl.
Qed.

Lemma runes_app_last (a : string) (c : ascii) :
  byte_of_ascii c < 128 ->
  (forall x, In x (list_ascii_of_string a) -> byte_of_ascii x < 128) ->
  runes (a +:+ String c "") =
  map (fun x => (byte_of_ascii x, String x "")) (list_ascii_of_string a)
  ++ [(byte_of_ascii c, String c "")].
Proof.
  intros Hc. induction a as [|x a IH]; intros Ha; sapp.
  - by rewrite runes_cons_ascii.
  - rewrite runes_cons_ascii by (apply Ha; by left).
    cbn [list_ascii_of_string map app]. f_equal. apply IH.
    intros y Hy. apply Ha. by right.
Qed.

Lemma byte_dquote : byte_of_ascii dquote = 34.
Proof. reflexivity. Qed.

Lemma consumeValue_empty_quoted (rest : string) :
  consumeValue (DQ +:+ DQ +:+ rest) = ("", rest).
Proof.
  unfold DQ. sapp. unfold consumeValue. rewrite Ascii.eqb_refl. cbn [negb].
  rewrite from_S, from_0, runes_cons_ascii by (rewrite byte_dquote; lia).
  cbn [consumeQuoted]. rewrite byte_dquote. cbn [Z.eqb Pos.eqb Nat.add].
  by rewrite from_S, from_0.
Qed.

Lemma HasPrefix_cons (c : ascii) (s : string) : HasPrefix (String c s) (String c "") = true.
Proof. unfold HasPrefix. cbn. destruct (ascii_dec c c); [|done]. by destruct s. Qed.

Lemma consumeMediaParam_empty_quoted (name rest : string) :
  isToken name = true ->
  consumeMediaParam ("; " +:+ name +:+ "=" +:+ DQ +:+ DQ +:+ rest)
  = ("", "", "; " +:+ name +:+ "=" +:+ DQ +:+ DQ +:+ rest).
Proof.
  intros [Hne Htok]%isToken_spec. sapp.
  set (v := String ";" (String " " (name +:+ String "=" (DQ +:+ DQ +:+ rest)))).
  unfold consumeMediaParam.
  assert (Hv : TrimLeftSpace v = v) by (by apply TrimLeftSpace_nonspace).
  rewrite Hv. unfold v at 1 2. rewrite HasPrefix_cons. cbn [negb].
  replace (from 1 v) with (String " " (name +:+ String "=" (DQ +:+ DQ +:+ rest)))
    by (unfold v; by rewrite from_S, from_0).
  rewrite TrimLeftSpace_space by done.
  destruct name as [|n0 name]; [done|]. sapp.
  pose proof Htok as Htok'. apply tokens_cons in Htok' as [Hn0 _].
  apply isTokenChar_spec in Hn0 as (?&?&_).
  rewrite TrimLeftSpace_nonspace by (done || lia).
  rewrite <- str_app_cons, consumeToken_app by done.
  destruct (String.eqb_spec (ToLower (String n0 name)) "") as [E|_]; [done|].
  rewrite TrimLeftSpace_nonspace by done.
  rewrite HasPrefix_cons. cbn [negb]. rewrite from_S, from_0.
  unfold DQ at 1. sapp. rewrite TrimLeftSpace_nonspace by done.
  change (String dquote (DQ +:+ rest)) with (DQ +:+ DQ +:+ rest).
  by rewrite consumeValue_empty_quoted.
Qed.

Lemma nospace_app (a b : string) : nospace a -> nospace b -> nospace (a +:+ b).
Proof. induction a as [|c a IH]; sapp; cbn [nospace]; [done | naive_solver]. Qed.

Lemma tokens_nospace (s : string) : tokens s -> nospace s.
Proof.
  induction s as [|c s IH]; [done|]. intros [Hc Hs]%tokens_cons. cbn [nospace].
  apply isTokenChar_spec in Hc as (?&?&_). split; [split; [lia|done] | auto].
Qed.

Lemma runes_nospace_last (c : ascii) (s : string) :
  nospace (String c s) ->
  exists l x, runes (String c s) = l ++ [x] /\ IsSpace (fst x) = false.
Proof.
  revert c; induction s as [|d s IH]; intros c [[Hc1 Hc2] Hs].
  - exists [], (byte_of_ascii c, String c ""). split; [|done].
    by rewrite runes_cons_ascii.
  - destruct (IH d Hs) as (l & x & Hl & Hx).
    exists ((byte_of_ascii c, String c "") :: l), x. split; [|done].
    rewrite runes_cons_ascii by done. by rewrite Hl.
Qed.

Lemma TrimSpace_nospace (s : string) : nospace s -> TrimSpace s = s.
Proof.
  destruct s as [|c s]; [done|]. intros [[Hc1 Hc2] Hs].
  destruct s as [|d s]; [by apply TrimSpace_single|].
  destruct (runes_nospace_last d s Hs) as (l & x & Hl & Hx).
  by eapply TrimSpace_keep.
Qed.

Lemma TrimSpace_param_start (n0 : ascii) (r : string) :
  byte_of_ascii n0 < 128 -> IsSpace (byte_of_ascii n0) = false ->
  TrimSpace (String ";" (String " " (String n0 r))) <> ";".
Proof.
  intros H1 H2. unfold TrimSpace. rewrite !runes_cons_ascii by done.
  cbn [dropSpaces fst]. change (IsSpace (byte_of_ascii ";")) with false. cbn iota.
  cbn [rev]. rewrite <- !(assoc_L (++)). cbn [app].
  destruct (dropSpaces_app_keep (rev (runes r))
              [(byte_of_ascii " ", String " " ""); (byte_of_ascii ";", String ";" "")]
              (byte_of_ascii n0, String n0 "") H2) as [k ->].
  rewrite rev_app_distr. cbn [rev app unrunes foldr snd]. sapp. done.
Qed.

Lemma length_ToLower (s : string) : String.length (ToLower s) = String.length s.
Proof. induction s as [|c s IH]; cbn; [done | by rewrite IH]. Qed.

Lemma slash_not_token : isTokenChar (byte_of_ascii "/") = false.
Proof. reflexivity. Qed.
Lemma semi_not_token : isTokenChar (byte_of_ascii ";") = false.
Proof. reflexivity. Qed.
Lemma eq_not_token : isTokenChar (byte_of_ascii "=") = false.
Proof. reflexivity. Qed.

(** The head [ty/sub] of a media type, as [ParseMediaType] reads it. *)
Lemma lossyCheck_head (p : PMTErr) (ty sub v : string) :
  ty <> "" -> tokens ty -> sub <> "" -> tokens sub -> v <> "" ->
  lossyCheckMediaTypeDisposition p (ty +:+ "/" +:+ sub) v
  = (p, ty +:+ "/" +:+ sub, None).
Proof.
  intros Hty Tty Hsub Tsub Hv. unfold lossyCheckMediaTypeDisposition.
  destruct (String.eqb_spec v "") as [|_]; [done|]. sapp.
  rewrite consumeToken_app by (done || apply slash_not_token).
  destruct (String.eqb_spec ty "") as [|_]; [done|]. cbn [String.eqb].
  rewrite HasPrefix_cons. cbn [negb]. rewrite from_S, from_0, consumeToken_all by done.
  destruct (String.eqb_spec sub "") as [|_]; [done|]. done.
Qed.

Lemma paramLoop_invalid (n : nat) (mt t : string) (st : pstate) :
  (String.length t =? 0)%nat = false -> TrimLeftSpace t = t ->
  consumeMediaParam t = ("", "", t) -> TrimSpace t <> ";" -> mt <> "" ->
  paramLoop (S n) mt t st
  = inl (mt, Some (params st), Some (Merged (add (perr st) mimeInvalidParam))).
Proof.
  intros Hlen Ht Hc Hs Hmt. cbn [paramLoop]. rewrite Hlen, Ht, Hlen, Hc. cbn [String.eqb].
  destruct (String.eqb_spec (TrimSpace t) ";") as [|_]; [done|].
  by destruct (String.eqb_spec mt "") as [|_].
Qed.

Lemma paramLoop_empty_quoted (mt name rest : string) (st : pstate) :
  isToken name = true -> mt <> "" ->
  let tail := "; " +:+ name +:+ "=" +:+ DQ +:+ DQ +:+ rest in
  paramLoop (String.length tail) mt tail st
  = inl (mt, Some (params st), Some (Merged (add (perr st) mimeInvalidParam))).
Proof.
  intros Hname Hmt tail.
  pose proof (consumeMediaParam_empty_quoted name rest Hname) as Hc. fold tail in Hc.
  apply isToken_spec in Hname as [Hne Tn].
  destruct name as [|n0 name]; [done|].
  apply tokens_cons in Tn as [Hn0 _]. apply isTokenChar_spec in Hn0 as (?&?&_).
  assert (Hs : TrimSpace tail <> ";").
  { unfold tail. sapp. apply TrimSpace_param_start; [lia|done]. }
  assert (Ht : TrimLeftSpace tail = tail).
  { unfold tail. sapp. by apply TrimLeftSpace_nonspace. }
  assert (Hl : exists n, String.length tail = S n).
  { unfold tail. sapp. cbn [String.length]. eauto. }
  destruct Hl as [n Hl]. rewrite Hl. apply paramLoop_invalid; try done.
Qed.



Lemma substring_snoc (o n : nat) (v : string) (c : ascii) (pre suf : string) :
  v = pre +:+ String c suf -> (o + n)%nat = String.length pre ->
  substring o (S n) v = substring o n v +:+ String c "".
Proof.
  intros -> Hl. revert o n Hl. induction pre as [|x pre IH]; intros o n Hl; sapp.
  - cbn in Hl. assert (o = 0%nat) by lia. assert (n = 0%nat) by lia. subst.
    cbn. by destruct suf.
  - destruct o as [|o].
    + cbn in Hl. subst n. cbn [substring]. sapp. f_equal.
      apply (IH 0%nat). done.
    + cbn [substring]. apply IH. cbn in Hl. lia.
Qed.

Lemma substring_0_0 (v : string) (o : nat) : substring o 0 v = "".
Proof. revert o; induction v; intros []; cbn; auto. Qed.

Lemma plainValue_cons c t :
  plainValue (String c t) = true ->
  byte_of_ascii c < 128 /\ byte_of_ascii c <> 13 /\ byte_of_ascii c <> 10 /\ plainValue t = true.
Proof.
  cbn [plainValue]. rewrite !andb_true_iff, !negb_true_iff, !Z.eqb_neq, Z.ltb_lt. naive_solver.
Qed.

Lemma runes_ascii_app (a r : string) :
  plainValue a = true ->
  runes (a +:+ r) = map (fun x => (byte_of_ascii x, String x "")) (list_ascii_of_string a) ++ runes r.
Proof.
  induction a as [|x a IH]; sapp; [done|].
  intros (?&?&?&?)%plainValue_cons. rewrite runes_cons_ascii by done.
  cbn [list_ascii_of_string map app]. f_equal. by apply IH.
Qed.

(** The loop of [FormatMediaType] over an ASCII value writes its quoted form. *)
Lemma quoteLoop_escape (v pre suf b : string) (o : nat) :
  v = pre +:+ suf -> plainValue suf = true -> (o <= String.length pre)%nat ->
  exists b' o', quoteLoop v (arunes suf) (String.length pre) o b = Some (b', o')
    /\ b' +:+ from o' v = b +:+ substring o (String.length pre - o) v +:+ escape suf.
Proof.
  revert pre b o. induction suf as [|c suf IH]; intros pre b o Hv Hp Ho.
  - unfold arunes. cbn [list_ascii_of_string map quoteLoop]. exists b, o. split; [done|].
    cbn [escape]. rewrite str_app_nil_r. subst v. rewrite str_app_nil_r. done.
  - apply plainValue_cons in Hp as (Hc & _ & _ & Hp).
    unfold arunes. cbn [list_ascii_of_string map quoteLoop String.length].
    fold (arunes suf).
    assert (Hland : Z.land (byte_of_ascii c) 128 = 0).
    { pose proof (byte_of_ascii_range c). apply Z.bits_inj'. intros n Hn.
      rewrite Z.land_spec, Z.bits_0.
      destruct (Z.eq_dec n 7) as [->|].
      - replace (Z.testbit (byte_of_ascii c) 7) with false; [done|].
        symmetry. rewrite Z.testbit_false by lia. 
        change (2 ^ 7) with 128. rewrite Z.div_small by lia. done.
      - replace (Z.testbit 128 n) with false; [by rewrite andb_false_r|].
        symmetry. change 128 with (2 ^ 7). by rewrite Z.pow2_bits_false. }
    rewrite Hland. cbn [Z.eqb negb].
    assert (Hv' : v = (pre +:+ String c "") +:+ suf) by (by rewrite str_app_assoc).
    assert (Hl' : String.length (pre +:+ String c "") = (String.length pre + 1)%nat)
      by (by rewrite str_length_app).
    destruct ((byte_of_ascii c =? 34) || (byte_of_ascii c =? 92)) eqn:E.
    + destruct (IH (pre +:+ String c "") (b +:+ substring o (String.length pre - o) v +:+ "\")
                   (String.length pre) Hv' Hp ltac:(lia)) as (b' & o' & H1 & H2).
      rewrite Hl' in H1. exists b', o'. split; [done|]. rewrite H2, Hl'.
      replace (String.length pre + 1 - String.length pre)%nat with 1%nat by lia.
      rewrite (substring_snoc _ 0 v c pre suf) by (done || lia).
      rewrite substring_0_0. cbn [escape]. rewrite E. rewrite !str_app_assoc. sapp. done.
    + destruct (IH (pre +:+ String c "") b o Hv' Hp ltac:(lia)) as (b' & o' & H1 & H2).
      rewrite Hl' in H1. exists b', o'. split; [done|]. rewrite H2, Hl'.
      replace (String.length pre + 1 - o)%nat with (S (String.length pre - o)) by lia.
      rewrite (substring_snoc _ _ v c pre suf) by (done || lia).
      cbn [escape]. rewrite E. rewrite !str_app_assoc. sapp. done.
Qed.

Lemma runes_ascii_app' (a r : string) :
  plainValue a = true -> runes (a +:+ r) = arunes a ++ runes r.
Proof. apply runes_ascii_app. Qed.

Lemma runes_ascii (a : string) : plainValue a = true -> runes a = arunes a.
Proof.
  intros H. rewrite <- (str_app_nil_r a) at 1. rewrite runes_ascii_app' by done.
  apply app_nil_r.
Qed.

Lemma ascii_of_byte_of_ascii (c : ascii) : ascii_of_byte (byte_of_ascii c) = c.
Proof. unfold ascii_of_byte, byte_of_ascii. rewrite N2Z.id. apply ascii_N_embedding. Qed.

Lemma EncodeRune_ascii (c : ascii) :
  byte_of_ascii c < 128 -> EncodeRune (byte_of_ascii c) = String c "".
Proof.
  intros H. unfold EncodeRune. destruct (Z.leb_spec (byte_of_ascii c) 127); [|lia].
  by rewrite ascii_of_byte_of_ascii.
Qed.

Lemma plainValue_escape (v : string) : plainValue v = true -> plainValue (escape v) = true.
Proof.
  induction v as [|c v IH]; [done|]. intros H. pose proof H as (?&?&?&?)%plainValue_cons.
  cbn [escape]. destruct ((byte_of_ascii c =? 34) || (byte_of_ascii c =? 92)).
  - cbn [plainValue] in *. rewrite IH by done. rewrite andb_true_r.
    apply andb_true_iff in H as [H _]. by rewrite H.
  - cbn [plainValue] in *. rewrite IH by done.
    apply andb_true_iff in H as [H _]. by rewrite H.
Qed.

(** Reading a quoted string back. *)
Lemma consumeQuoted_escape (v v0 rest0 buffer : string) (R : list (Z * string)) (idx : nat) :
  plainValue v = true ->
  consumeQuoted v0 rest0 (arunes (escape v) ++ (34, DQ) :: R) idx buffer false
  = (buffer +:+ v, from (idx + String.length (escape v) + 1) rest0).
Proof.
  revert idx buffer. induction v as [|c v IH]; intros idx buffer Hp.
  - unfold arunes. cbn [escape list_ascii_of_string map app consumeQuoted String.length].
    cbn [Z.eqb Pos.eqb]. rewrite str_app_nil_r. by rewrite Nat.add_0_r.
  - apply plainValue_cons in Hp as (Hc & H13 & H10 & Hp). cbn [escape].
    destruct ((byte_of_ascii c =? 34) || (byte_of_ascii c =? 92)) eqn:E.
    + unfold arunes. cbn [list_ascii_of_string map app consumeQuoted String.length].
      fold (arunes (escape v)).
      change (byte_of_ascii "\") with 92. cbn [Z.eqb Pos.eqb].
      rewrite EncodeRune_ascii, IH by done. f_equal.
      * rewrite str_app_assoc. by sapp.
      * f_equal. lia.
    + apply orb_false_iff in E as [E1 E2].
      unfold arunes. cbn [list_ascii_of_string map app consumeQuoted String.length].
      fold (arunes (escape v)). rewrite E1, E2.
      destruct (Z.eqb_spec (byte_of_ascii c) 13); [done|].
      destruct (Z.eqb_spec (byte_of_ascii c) 10); [done|]. cbn [negb andb].
      rewrite EncodeRune_ascii, IH by done. f_equal.
      * rewrite str_app_assoc. by sapp.
      * f_equal. lia.
Qed.

Lemma consumeToken_follows (a rest : string) :
  a <> "" -> tokens a -> follows rest -> consumeToken (a +:+ rest) = (a, rest).
Proof.
  intros Hne Ha [->|[r ->]].
  - rewrite str_app_nil_r. by apply consumeToken_all.
  - by apply consumeToken_app.
Qed.

Lemma from_length_app_1 (a r : string) (c : ascii) :
  from (0 + String.length a + 1) (a +:+ String c r) = r.
Proof. replace (0 + String.length a + 1)%nat with (S (String.length a)) by lia. apply from_S_app. Qed.

Lemma consumeValue_render (v rest : string) :
  v <> "" -> plainValue v = true -> follows rest ->
  consumeValue (renderValue v +:+ rest) = (v, rest).
Proof.
  intros Hne Hp Hf. unfold renderValue. destruct (isToken v) eqn:E.
  - apply isToken_spec in E as [_ Ht]. destruct v as [|c v]; [done|]. sapp.
    unfold consumeValue. pose proof Ht as [Hc _]%tokens_cons.
    apply isTokenChar_spec in Hc as (_&_&_&_&_&Hq&_).
    destruct (Ascii.eqb_spec c dquote) as [->|_]; [by rewrite byte_dquote in Hq|].
    cbn [negb]. rewrite <- str_app_cons. by apply consumeToken_follows.
  - change (DQ +:+ escape v +:+ DQ) with (String dquote (escape v +:+ String dquote "")).
    sapp. unfold consumeValue. rewrite Ascii.eqb_refl. cbn [negb].
    rewrite from_S, from_0, str_app_assoc. sapp.
    rewrite runes_ascii_app' by (by apply plainValue_escape).
    rewrite runes_cons_ascii by (rewrite byte_dquote; lia).
    rewrite byte_dquote. fold DQ.
    rewrite consumeQuoted_escape by done. sapp. f_equal.
    apply from_length_app_1.
Qed.

Lemma lowerByte_idem (c : ascii) : lowerByte (lowerByte c) = lowerByte c.
Proof.
  unfold lowerByte at 2.
  destruct ((65 <=? byte_of_ascii c) && (byte_of_ascii c <=? 90)) eqn:E.
  - apply andb_true_iff in E as [E1%Z.leb_le E2%Z.leb_le].
    unfold lowerByte. rewrite byte_ascii_of_byte by lia.
    destruct (Z.leb_spec 65 (byte_of_ascii c + 32)); [|lia].
    destruct (Z.leb_spec (byte_of_ascii c + 32) 90); [lia|].
    by rewrite (proj2 (Z.leb_le _ _) E1), (proj2 (Z.leb_le _ _) E2).
  - unfold lowerByte. by rewrite E.
Qed.

Lemma ToLower_idem (s : string) : ToLower (ToLower s) = ToLower s.
Proof. induction s as [|c s IH]; cbn [ToLower]; [done|]. by rewrite lowerByte_idem, IH. Qed.

Lemma lowerByte_star (c : ascii) : Ascii.eqb (lowerByte c) "*" = Ascii.eqb c "*".
Proof.
  unfold lowerByte.
  destruct ((65 <=? byte_of_ascii c) && (byte_of_ascii c <=? 90)) eqn:E; [|done].
  apply andb_true_iff in E as [E1%Z.leb_le E2%Z.leb_le].
  destruct (Ascii.eqb_spec c "*") as [->|_]; [by vm_compute in E1|].
  destruct (Ascii.eqb_spec (ascii_of_byte (byte_of_ascii c + 32)) "*") as [E|_]; [|done].
  apply (f_equal byte_of_ascii) in E. rewrite byte_ascii_of_byte in E by lia.
  change (byte_of_ascii "*") with 42 in E. lia.
Qed.

Lemma Index_ToLower_star (s : string) : Index (ToLower s) "*" = Index s "*".
Proof.
  induction s as [|c s IH]; [done|]. cbn [ToLower Index].
  by rewrite lowerByte_star, IH.
Qed.

Lemma renderValue_start (v rest : string) :
  v <> "" ->
  exists c r, renderValue v +:+ rest = String c r /\ byte_of_ascii c < 128
              /\ IsSpace (byte_of_ascii c) = false.
Proof.
  intros Hne. unfold renderValue. destruct (isToken v) eqn:E.
  - destruct v as [|c v]; [done|]. apply isToken_spec in E as [_ [Hc _]%tokens_cons].
    apply isTokenChar_spec in Hc as (?&?&_). exists c, (v +:+ rest). sapp. split; [done|].
    split; [lia|done].
  - exists dquote, (escape v +:+ DQ +:+ rest). unfold DQ at 1. sapp.
    rewrite str_app_assoc. done.
Qed.

(** One parameter as [FormatMediaType] writes it, read by [consumeMediaParam]. *)
Lemma consumeMediaParam_render (k v rest : string) :
  isToken k = true -> v <> "" -> plainValue v = true -> follows rest ->
  consumeMediaParam ("; " +:+ ToLower k +:+ "=" +:+ renderValue v +:+ rest)
  = (ToLower k, v, rest).
Proof.
  intros [Hne Htok]%isToken_spec Hv Hp Hf. sapp.
  assert (Hlk : ToLower k <> "") by (by rewrite ToLower_nil_iff).
  assert (Tlk : tokens (ToLower k)) by (by apply tokens_ToLower).
  set (lk := ToLower k) in *.
  set (w := String ";" (String " " (lk +:+ String "=" (renderValue v +:+ rest)))).
  unfold consumeMediaParam.
  assert (Hw : TrimLeftSpace w = w) by (by apply TrimLeftSpace_nonspace).
  rewrite Hw. unfold w at 1. rewrite HasPrefix_cons. cbn [negb].
  replace (from 1 w) with (String " " (lk +:+ String "=" (renderValue v +:+ rest)))
    by (unfold w; by rewrite from_S, from_0).
  rewrite TrimLeftSpace_space by done.
  destruct lk as [|n0 lk'] eqn:El; [done|]. sapp.
  pose proof Tlk as [Hn0 _]%tokens_cons.
  apply isTokenChar_spec in Hn0 as (?&?&_).
  rewrite TrimLeftSpace_nonspace by (done || lia).
  rewrite <- str_app_cons, consumeToken_app by done.
  rewrite <- El. unfold lk. rewrite ToLower_idem. fold lk. rewrite El.
  cbn [String.eqb].
  rewrite TrimLeftSpace_nonspace by done.
  rewrite HasPrefix_cons. cbn [negb]. rewrite from_S, from_0.
  destruct (renderValue_start v rest Hv) as (c & r & Hr & Hc1 & Hc2).
  rewrite Hr, TrimLeftSpace_nonspace by done. rewrite <- Hr.
  rewrite consumeValue_render by done.
  by destruct (String.eqb_spec v "").
Qed.

Lemma render_follows (attrs : list string) (p : gmap string string) :
  follows (render attrs p).
Proof. destruct attrs; [by left|]. right. cbn [render]. sapp. eauto. Qed.

(** The parameters written by [FormatMediaType], read by the loop of
    [ParseMediaType]. *)
Lemma paramLoop_render (mt : string) (p : gmap string string) (attrs : list string) :
  forall (fuel : nat) (st : pstate),
  (length attrs <= fuel)%nat ->
  Forall (fun k => isToken k = true /\ Index k "*" = None
                   /\ default "" (p !! k) <> "" /\ plainValue (default "" (p !! k)) = true) attrs ->
  NoDup (ToLower <$> attrs) ->
  (forall k, k ∈ attrs -> params st !! ToLower k = None) ->
  paramLoop fuel mt (render attrs p) st
  = inr (mkP (list_to_map (kv_of p <$> attrs) ∪ params st) (continuation st)
             (perr st) (gerr_set st)).
Proof.
  induction attrs as [|k attrs IH]; intros fuel st Hfuel Hall Hnd Hfresh.
  - cbn [render]. replace (list_to_map (kv_of p <$> []) ∪ params st) with (params st)
      by (symmetry; apply (left_id_L ∅ (∪))).
    destruct st. by destruct fuel.
  - destruct fuel as [|fuel]; [cbn in Hfuel; lia|].
    apply Forall_cons in Hall as [(Hk & Hstar & Hv & Hp) Hall].
    rewrite fmap_cons in Hnd. apply NoDup_cons in Hnd as [Hnin Hnd].
    cbn [render].
    set (v := default "" (p !! k)) in *.
    set (w := "; " +:+ ToLower k +:+ "=" +:+ renderValue v +:+ render attrs p).
    assert (Hc : consumeMediaParam w = (ToLower k, v, render attrs p))
      by (apply consumeMediaParam_render; try done; apply render_follows).
    assert (Hw : TrimLeftSpace w = w) by (unfold w; sapp; by apply TrimLeftSpace_nonspace).
    assert (Hl : (String.length w =? 0)%nat = false) by (unfold w; by sapp).
    cbn [paramLoop]. rewrite Hl, Hw, Hl, Hc.
    destruct (String.eqb_spec (ToLower k) "") as [E|_].
    { apply (proj1 (ToLower_nil_iff k)) in E. by rewrite E in Hk. }
    rewrite Index_ToLower_star, Hstar, (Hfresh k) by (by left).
    rewrite IH; cbn [params continuation perr gerr_set]; try done.
    + f_equal. f_equal. rewrite fmap_cons. unfold kv_of at 2. fold v.
      change (list_to_map ((ToLower k, v) :: (kv_of p <$> attrs)))
        with (<[ToLower k := v]> (list_to_map (kv_of p <$> attrs) : gmap string string)).
      rewrite <- insert_union_l, <- insert_union_r; [done|].
      apply not_elem_of_list_to_map_1. rewrite <- list_fmap_compose.
      by replace (fst ∘ kv_of p) with ToLower by done.
    + cbn in Hfuel. lia.
    + intros k' Hk'. rewrite lookup_insert_ne.
      * apply Hfresh. by right.
      * intros E. apply Hnin. rewrite E. by apply list_elem_of_fmap_2.
Qed.

Lemma formatAttrs_render (p : gmap string string) (attrs : list string) :
  forall b : string,
  Forall (fun k => plainValue (default "" (p !! k)) = true) attrs ->
  formatAttrs attrs p b <> "" ->
  formatAttrs attrs p b = b +:+ render attrs p /\ Forall (fun k => isToken k = true) attrs.
Proof.
  induction attrs as [|k attrs IH]; intros b Hp Hne.
  - cbn [formatAttrs render]. by rewrite str_app_nil_r.
  - apply Forall_cons in Hp as [Hv Hp]. cbn [formatAttrs render] in *.
    set (v := default "" (p !! k)) in *.
    destruct (isToken k) eqn:Ek; cbn [negb] in *; [|done].
    unfold renderValue. destruct (isToken v) eqn:Ev.
    + destruct (IH _ Hp Hne) as [-> Hall]. split; [|by constructor].
      by rewrite !str_app_assoc.
    + destruct (quoteLoop_escape v "" v
                  (((b +:+ "; ") +:+ (ToLower k +:+ "=")) +:+ DQ) 0 eq_refl Hv ltac:(cbn; lia))
        as (b' & o' & H1 & H2).
      cbn [String.length] in H1. rewrite runes_ascii, H1 in Hne |- * by done.
      rewrite <- str_app_assoc, H2 in Hne |- *. cbn [String.length Nat.sub] in *.
      rewrite substring_0_0 in Hne |- *.
      destruct (IH _ Hp Hne) as [-> Hall]. split; [|by constructor].
      rewrite !str_app_assoc. by sapp.
Qed.

Lemma render_length (p : gmap string string) (attrs : list string) :
  (length attrs <= String.length (render attrs p))%nat.
Proof.
  induction attrs as [|k attrs IH]; [done|]. cbn [render length]. sapp.
  cbn [String.length]. rewrite !str_length_app. cbn [String.length].
  rewrite !str_length_app. lia.
Qed.

Lemma Index_split (t : string) (c : ascii) (i : nat) :
  Index t c = Some i ->
  t = upto i t +:+ String c (from (S i) t) /\ Index (upto i t) c = None.
Proof.
  revert i; induction t as [|x t IH]; intros i; [done|]. cbn [Index].
  destruct (Ascii.eqb_spec x c) as [->|Hx].
  - intros [= <-]. rewrite from_S, from_0. done.
  - destruct (Index t c) as [j|] eqn:E; [|done]. intros [= <-].
    destruct (IH j eq_refl) as [H1 H2]. unfold upto in *. cbn [substring]. sapp.
    rewrite from_S. split; [by rewrite <- H1|]. cbn [Index].
    destruct (Ascii.eqb_spec x c); [done|]. by rewrite H2.
Qed.

Lemma head_tail (head tail : string) :
  Index head ";" = None -> follows tail ->
  let v := head +:+ tail in
  let i := default (String.length v) (Index v ";") in
  upto i v = head /\ from i v = tail.
Proof.
  intros Hh [->|[r ->]]; cbn zeta.
  - rewrite str_app_nil_r, Hh. cbn [default from_option id]. unfold upto, from.
    rewrite Nat.sub_diag, substring_all, substring_0_0. done.
  - rewrite Index_app by done. cbn [default from_option id]. by rewrite upto_app, from_app.
Qed.

Lemma lossyCheck_token (p : PMTErr) (ty v : string) :
  ty <> "" -> tokens ty -> v <> "" ->
  lossyCheckMediaTypeDisposition p ty v = (p, ty, None).
Proof.
  intros Hty Tty Hv. unfold lossyCheckMediaTypeDisposition.
  destruct (String.eqb_spec v "") as [|_]; [done|].
  rewrite consumeToken_all by done.
  by destruct (String.eqb_spec ty "") as [|_].
Qed.

Lemma ParseMediaType_render (h : string) (p : gmap string string) (attrs : list string) :
  goodHead h ->
  Forall (fun k => isToken k = true /\ Index k "*" = None
                   /\ default "" (p !! k) <> "" /\ plainValue (default "" (p !! k)) = true) attrs ->
  NoDup (ToLower <$> attrs) ->
  ParseMediaType (h +:+ render attrs p)
  = (h, Some (list_to_map (kv_of p <$> attrs)), None).
Proof.
  intros (Hne & Hsemi & Hns & Hlow & Hchk) Hall Hnd.
  destruct (head_tail h (render attrs p) Hsemi (render_follows attrs p)) as [Hu Hf].
  cbn zeta in Hu, Hf. unfold ParseMediaType. rewrite Hu, Hf, Hlow, TrimSpace_nospace by done.
  rewrite Hchk by (by destruct h).
  replace (bool_decide (@None merror <> None)) with false by done. cbn [andb].
  rewrite (paramLoop_render h p attrs); try done.
  - cbn [params continuation perr gerr_set]. rewrite map_fold_empty.
    by rewrite (right_id_L ∅ (∪)).
  - apply render_length.
Qed.

Lemma goodHead_token (t : string) : isToken t = true -> goodHead (ToLower t).
Proof.
  intros [Hne Ht]%isToken_spec. repeat split.
  - by rewrite ToLower_nil_iff.
  - apply tokens_Index; [by apply tokens_ToLower | apply semi_not_token].
  - by apply tokens_nospace, tokens_ToLower.
  - apply ToLower_idem.
  - intros p v Hv. apply lossyCheck_token; [by rewrite ToLower_nil_iff | by apply tokens_ToLower | done].
Qed.

Lemma goodHead_slash (major sub : string) :
  isToken major = true -> isToken sub = true ->
  goodHead (ToLower major +:+ "/" +:+ ToLower sub).
Proof.
  intros [Hne Ht]%isToken_spec [Hne' Ht']%isToken_spec. repeat split.
  - destruct major; [done|]. cbn [ToLower]. by sapp.
  - sapp. apply Index_app_None; [apply tokens_Index; [by apply tokens_ToLower | apply semi_not_token]|].
    cbn [Index]. change (Ascii.eqb "/" ";") with false. cbn iota.
    rewrite tokens_Index; [done | by apply tokens_ToLower | apply semi_not_token].
  - repeat apply nospace_app; try (apply tokens_nospace, tokens_ToLower; done). by vm_compute.
  - rewrite !ToLower_app, !ToLower_idem. done.
  - intros p v Hv. apply lossyCheck_head; try (by apply tokens_ToLower); try (by rewrite ToLower_nil_iff); done.
Qed.

Lemma lowerKeys_sorted (p : gmap string string) (attrs : list string) :
  attrs ≡ₚ (map_to_list p).*1 -> NoDup (ToLower <$> attrs) ->
  list_to_map (kv_of p <$> attrs) = lowerKeys p.
Proof.
  intros Hperm Hnd. unfold lowerKeys.
  assert (He : prod_map ToLower id <$> map_to_list p = kv_of p <$> (map_to_list p).*1).
  { rewrite <- list_fmap_compose. apply list_fmap_ext. intros i [k v] Hi.
    apply list_elem_of_lookup_2, elem_of_map_to_list in Hi.
    unfold kv_of. cbn. by rewrite Hi. }
  rewrite He. apply list_to_map_proper.
  - rewrite <- list_fmap_compose. by replace (fst ∘ kv_of p) with ToLower by done.
  - by rewrite Hperm.
Qed.

(** C6, as the code has it: when the keys of [p] stay different in lower
    case and have no [*], and the values of [p] are not empty and are ASCII
    without CR and LF, [ParseMediaType] reads what [FormatMediaType] wrote,
    if it wrote something, without error: the media type in lower case and
    the parameters of [p] under their keys in lower case. *)
Theorem format_parse_roundtrip (t : string) (p : gmap string string) :
  roundtrips p -> FormatMediaType t p <> "" ->
  ParseMediaType (FormatMediaType t p) = (ToLower t, Some (lowerKeys p), None).
Proof.
  intros [Hnd Hall] Hne. unfold FormatMediaType in *.
  set (attrs := sortStrings (map_to_list p).*1) in *.
  assert (Hperm : attrs ≡ₚ (map_to_list p).*1) by apply merge_sort_Permutation.
  assert (Hnd' : NoDup (ToLower <$> attrs)) by (by rewrite Hperm).
  assert (Hvals : Forall (fun k => Index k "*" = None
                   /\ default "" (p !! k) <> "" /\ plainValue (default "" (p !! k)) = true) attrs).
  { apply Forall_forall. intros k Hk. rewrite Hperm in Hk.
    apply list_elem_of_fmap in Hk as ([k' v] & -> & Hkv).
    rewrite Forall_forall in Hall. pose proof (Hall _ Hkv) as (H1 & H2 & H3).
    apply elem_of_map_to_list in Hkv. cbn in *. by rewrite Hkv. }
  assert (Hplain : Forall (fun k => plainValue (default "" (p !! k)) = true) attrs)
    by (eapply Forall_impl; [apply Hvals | naive_solver]).
  assert (Hmain : forall h, goodHead h -> formatAttrs attrs p h <> "" ->
            ParseMediaType (formatAttrs attrs p h) = (h, Some (lowerKeys p), None)).
  { intros h Hh Hf. destruct (formatAttrs_render p attrs h Hplain Hf) as [-> Htok].
    rewrite ParseMediaType_render; try done.
    - by rewrite lowerKeys_sorted.
    - rewrite Forall_forall in Hvals, Htok |- *. intros k Hk.
      split; [by apply Htok | by apply Hvals]. }
  destruct (Index t "/") as [slash|] eqn:Ei.
  - destruct (isToken (upto slash t)) eqn:E1; [|done].
    destruct (isToken (from (slash + 1) t)) eqn:E2; [|done]. cbn [negb orb] in *.
    rewrite Hmain; [|by apply goodHead_slash|done].
    destruct (Index_split t "/" slash Ei) as [Ht _].
    rewrite Ht at 3. rewrite ToLower_app. cbn [ToLower]. sapp.
    by replace (S slash) with (slash + 1)%nat by lia.
  - destruct (isToken t) eqn:E1; [|done]. cbn [negb] in *.
    by rewrite Hmain; [|apply goodHead_token|].
Qed.

(** The theorem on Text/HTML with the parameter Charset. *)
Lemma format_parse_roundtrip_witness :
  let p : gmap string string := {[ "Charset" := "utf 8" ]} in
  roundtrips p /\ FormatMediaType "Text/HTML" p <> ""
  /\ ParseMediaType (FormatMediaType "Text/HTML" p)
     = (ToLower "Text/HTML", Some (lowerKeys p), None).
Proof.
  assert (H1 : roundtrips ({[ "Charset" := "utf 8" ]} : gmap string string)).
  { unfold roundtrips. rewrite map_to_list_singleton. split.
    - apply NoDup_singleton.
    - repeat constructor. discriminate. }
  assert (H2 : FormatMediaType "Text/HTML" ({[ "Charset" := "utf 8" ]} : gmap string string)
               <> "") by (vm_compute; discriminate).
  split; [exact H1|]. split; [exact H2|].
  exact (format_parse_roundtrip "Text/HTML" {[ "Charset" := "utf 8" ]} H1 H2).
Defined.

(** C6 does not hold as it is worded: [FormatMediaType] writes an empty
    value as an empty quoted string, which [ParseMediaType] does not
    accept. *)
Lemma empty_value_does_not_roundtrip :
  let p : gmap string string := {[ "charset" := "" ]} in
  FormatMediaType "text/html" p = "text/html; charset=" +:+ DQ +:+ DQ
  /\ ParseMediaType (FormatMediaType "text/html" p)
     = ("text/html", Some ∅, Some (Merged (mkPMTErr [mimeInvalidParam] false)))
  /\ lowerKeys p <> ∅.
Proof.
  cbv zeta. split; [vm_compute; reflexivity|]. split; [vm_compute; reflexivity|].
  unfold lowerKeys. rewrite map_to_list_singleton. cbn. apply insert_non_empty.
Qed.

Lemma IndexNotToken_split (s : string) (n : nat) :
  IndexNotToken s = Some n ->
  upto n s +:+ from n s = s /\ tokens (upto n s) /\ String.length (upto n s) = n
  /\ exists c r, from n s = String c r /\ isTokenChar (byte_of_ascii c) = false.
Proof.
  revert n. induction s as [|c s IH]; intros n; cbn [IndexNotToken]; [done|].
  unfold isNotTokenChar. destruct (isTokenChar (byte_of_ascii c)) eqn:Ec; cbn [negb].
  - destruct (IndexNotToken s) as [i|] eqn:Ei; [|done]. intros [= <-].
    destruct (IH i eq_refl) as (H1 & H2 & H3 & c' & r & H4 & H5).
    rewrite from_S. unfold upto in *. cbn [substring]. sapp. rewrite H1.
    split; [done|]. split; [by apply tokens_cons|]. split; [cbn; by rewrite H3|].
    by exists c', r.
  - intros [= <-]. rewrite from_0. unfold upto. cbn. destruct s; cbn; sapp.
    + split; [done|]. split; [apply tokens_nil|]. split; [done|]. by exists c, "".
    + split; [done|]. split; [apply tokens_nil|]. split; [done|]. by exists c, (String a s).
Qed.

(** What [consumeToken] gives: the longest token at the head of [v] and
    what follows it. *)
Lemma consumeToken_split (v t r : string) :
  consumeToken v = (t, r) ->
  v = t +:+ r /\ tokens t
  /\ (r = "" \/ exists c r', r = String c r' /\ isTokenChar (byte_of_ascii c) = false).
Proof.
  unfold consumeToken. destruct (IndexNotToken v) as [n|] eqn:E.
  - destruct (IndexNotToken_split v n E) as (H1 & H2 & H3 & c & r' & H4 & H5).
    destruct n as [|n].
    + intros [= <- <-]. sapp. split; [done|]. split; [apply tokens_nil|]. right.
      rewrite from_0 in H4. by exists c, r'.
    + intros [= <- <-]. split; [done|]. split; [done|]. right. by exists c, r'.
  - intros [= <- <-]. rewrite str_app_nil_r. split; [done|]. split; [done|]. by left.
Qed.

Lemma eqb_nil_false (s : string) : s <> "" -> String.eqb s "" = false.
Proof. intros H. by apply String.eqb_neq. Qed.

Lemma tokens_app_inv (a b : string) : tokens (a +:+ b) -> tokens a /\ tokens b.
Proof.
  induction a as [|c a IH]; sapp; intros H; [split; [apply tokens_nil | done]|].
  apply tokens_cons in H as [H1 H2]. destruct (IH H2). split; [by apply tokens_cons | done].
Qed.

Lemma tokens_app (a b : string) : tokens a -> tokens b -> tokens (a +:+ b).
Proof.
  induction a as [|c a IH]; sapp; intros Ha Hb; [done|].
  apply tokens_cons in Ha as [H1 H2]. apply tokens_cons. auto.
Qed.

Lemma consumeToken_nil_l (v r : string) :
  consumeToken v = ("", r) -> r = v /\ ~ isToken v = true.
Proof.
  intros H. destruct (consumeToken_split _ _ _ H) as (Hv & _ & Hr). rewrite str_app_nil_l in Hv.
  split; [done|]. subst r. intros Ht. apply isToken_spec in Ht as [Hne Ht].
  destruct Hr as [->|(c & r' & -> & Hc)]; [done|].
  apply tokens_cons in Ht as [Ht _]. congruence.
Qed.

Lemma HasPrefix_1 (s : string) (c : ascii) :
  HasPrefix s (String c "") = true <-> exists r, s = String c r.
Proof.
  unfold HasPrefix. destruct s as [|a s]; simpl.
  - split; [discriminate | intros [r ?]; discriminate].
  - destruct (ascii_dec c a) as [->|Hne].
    + split; [by exists s | by destruct s].
    + split; [discriminate | intros [r [= -> _]]; done].
Qed.

Lemma from_1_cons (c : ascii) (s : string) : from 1 (String c s) = s.
Proof. by rewrite from_S, from_0. Qed.

(** X1: the media types that [checkMediaTypeDisposition] accepts are the
    tokens and the pairs of tokens with a slash between them. *)
Theorem checkMediaTypeDisposition_accepts (s : string) :
  checkMediaTypeDisposition s = None
  <-> isToken s = true
      \/ exists a b, s = a +:+ "/" +:+ b /\ isToken a = true /\ isToken b = true.
Proof.
  unfold checkMediaTypeDisposition. split.
  - destruct (consumeToken s) as [typ rest] eqn:E1.
    destruct (consumeToken_split _ _ _ E1) as (Hs & Ht & Hr).
    destruct (String.eqb_spec typ "") as [->|Hne]; [done|].
    destruct (String.eqb_spec rest "") as [->|Hre].
    + intros _. left. rewrite str_app_nil_r in Hs. subst. by apply isToken_spec.
    + destruct (HasPrefix rest "/") eqn:Hp; [|done]. cbn [negb].
      apply HasPrefix_1 in Hp as [r1 ->]. rewrite from_1_cons.
      destruct (consumeToken r1) as [sub rest2] eqn:E2.
      destruct (consumeToken_split _ _ _ E2) as (Hs2 & Ht2 & Hr2).
      destruct (String.eqb_spec sub "") as [->|Hsub]; [done|].
      destruct (String.eqb_spec rest2 "") as [->|Hr2']; [|done].
      intros _. right. exists typ, sub. rewrite str_app_nil_r in Hs2. subst.
      split; [by sapp|]. split; by apply isToken_spec.
  - intros [Ht|(a & b & -> & Ha & Hb)].
    + apply isToken_spec in Ht as [Hne Ht]. rewrite (consumeToken_all _ Ht).
      by rewrite (eqb_nil_false _ Hne).
    + apply isToken_spec in Ha as [Hane Ha]. apply isToken_spec in Hb as [Hbne Hb].
      sapp. rewrite (consumeToken_app a b "/" Hane Ha slash_not_token).
      rewrite (eqb_nil_false _ Hane). cbn [String.eqb]. rewrite HasPrefix_cons. cbn [negb].
      rewrite from_1_cons, (consumeToken_all _ Hb), (eqb_nil_false _ Hbne). done.
Qed.

Lemma lossyCheck_cases (p : PMTErr) (s v : string) (Hv : v <> "") :
  let '(p', m, e) := lossyCheckMediaTypeDisposition p s v in
  e = checkMediaTypeDisposition s
  /\ m <> ""
  /\ bad p' = bad p
  /\ match e with
     | None => m = s /\ p' = p
     | Some x => p' = add p x
     end.
Proof.
  unfold lossyCheckMediaTypeDisposition, checkMediaTypeDisposition.
  rewrite (eqb_nil_false _ Hv).
  destruct (consumeToken s) as [typ rest] eqn:E1.
  destruct (consumeToken_split _ _ _ E1) as (Hs & Ht & Hr).
  destruct (String.eqb_spec typ "") as [->|Hne]; [done|].
  destruct (String.eqb_spec rest "") as [->|Hre].
  { rewrite str_app_nil_r in Hs. by subst. }
  assert (Hty : forall x, typ +:+ x <> "") by (intros x; destruct typ; [done | by sapp]).
  destruct (HasPrefix rest "/") eqn:Hp; cbn [negb]; [|done].
  apply HasPrefix_1 in Hp as [r1 ->]. rewrite from_1_cons.
  destruct (consumeToken r1) as [sub rest2] eqn:E2.
  destruct (String.eqb_spec sub "") as [->|Hsub]; [done|].
  destruct (String.eqb_spec rest2 "") as [->|Hr2]; cbn [negb]; [|done].
  split_and!; try done. subst s. apply Hty.
Qed.

(** X2: for an input that is not empty, the lossy check finds the error that
    [checkMediaTypeDisposition] finds and records it as one that can be
    ignored; it keeps the media type it was given when there is no error,
    and always gives a media type to go on with. *)
Theorem lossyCheck_agrees (p : PMTErr) (s v : string) (Hv : v <> "") :
  let '(p', m, e) := lossyCheckMediaTypeDisposition p s v in
  e = checkMediaTypeDisposition s
  /\ m <> ""
  /\ (IsOkPMTError (Some (Merged p)) = None -> IsOkPMTError (Some (Merged p')) = None)
  /\ match e with
     | None => m = s /\ p' = p
     | Some x => p' = add p x
     end.
Proof.
  pose proof (lossyCheck_cases p s v Hv) as H.
  destruct (lossyCheckMediaTypeDisposition p s v) as [[p' m] e].
  destruct H as (H1 & H2 & H3 & H4). split_and!; try done.
  cbn [IsOkPMTError]. rewrite H3. by destruct (bad p).
Qed.

(** The theorem on a media type without subtype. *)
Lemma lossyCheck_agrees_witness :
  "x" <> ""
  /\ lossyCheckMediaTypeDisposition (mkPMTErr [] false) "text/" "x"
     = (mkPMTErr [mimeTokenSlash] false, "text/unknown", Some mimeTokenSlash)
  /\ checkMediaTypeDisposition "text/" = Some mimeTokenSlash.
Proof.
  split; [discriminate|].
  pose proof (lossyCheck_agrees (mkPMTErr [] false) "text/" "x" ltac:(discriminate)) as H.
  split; [reflexivity|]. vm_compute in H. symmetry. exact (proj1 H).
Defined.

Lemma byte_cases (P : Z -> bool) :
  forallb P (map Z.of_nat (seq 0 256)) = true -> forall b, 0 <= b < 256 -> P b = true.
Proof.
  intros H b Hb. rewrite forallb_forall in H. apply H. apply in_map_iff.
  exists (Z.to_nat b). split; [lia|]. apply in_seq. lia.
Qed.

Lemma hexChar_spec (u : bool) (n : Z) :
  0 <= n < 16 ->
  ishex (byte_of_ascii (hexChar u n)) = true /\ unhex (byte_of_ascii (hexChar u n)) = n.
Proof.
  intros H.
  pose proof (byte_cases (fun k => (16 <=? k) || (ishex (byte_of_ascii (hexChar u k))
                                     && (unhex (byte_of_ascii (hexChar u k)) =? k)))) as Hall.
  cbv beta in Hall. specialize (Hall ltac:(destruct u; vm_compute; reflexivity) n ltac:(lia)).
  rewrite (proj2 (Z.leb_gt 16 n)) in Hall by lia. cbn [orb] in Hall.
  apply andb_true_iff in Hall as [H1 H2]. by apply Z.eqb_eq in H2.
Qed.

Lemma percentsOk_esc (h l : ascii) (rest : string) :
  ishex (byte_of_ascii h) = true -> ishex (byte_of_ascii l) = true ->
  percentsOk (String "%" (String h (String l rest))) 0 = percentsOk rest 0.
Proof. intros Hh Hl. cbn [percentsOk Ascii.eqb Bool.eqb]. by rewrite Hh, Hl. Qed.

Lemma percentDecode_esc (h l : ascii) (rest : string) :
  percentDecode (String "%" (String h (String l rest))) 0
  = String (ascii_of_byte (Z.lor (Z.shiftl (unhex (byte_of_ascii h)) 4 mod 256)
                                 (unhex (byte_of_ascii l))))
           (percentDecode rest 0).
Proof. done. Qed.

Lemma nibbles (b : Z) : 0 <= b < 256 -> Z.lor (Z.shiftl (b / 16) 4 mod 256) (b mod 16) = b.
Proof.
  intros H. apply Z.eqb_eq.
  apply (byte_cases (fun b => Z.lor (Z.shiftl (b / 16) 4 mod 256) (b mod 16) =? b)); [|done].
  by vm_compute.
Qed.

(** X3: [percentHexUnescape] gives back the bytes that were written as [%]
    and two hex digits, whatever the case of the digits, keeps the bytes
    written as they are, and returns no error. *)
Theorem percentHexUnescape_encode (l : list piece) (Hl : forallb pieceOK l = true) :
  percentHexUnescape (pctEncode l) = (pctPlain l, None).
Proof.
  unfold percentHexUnescape.
  assert (H : percentsOk (pctEncode l) 0 = true /\ percentDecode (pctEncode l) 0 = pctPlain l).
  { induction l as [|[c|u b] l IH]; [done| |]; cbn [forallb pieceOK] in Hl;
      apply andb_true_iff in Hl as [Hx Hl]; destruct (IH Hl) as [IH1 IH2].
    - cbn [pctEncode pctPlain percentsOk percentDecode].
      apply negb_true_iff in Hx. rewrite Hx. by rewrite IH1, IH2.
    - apply andb_true_iff in Hx as [H0 H1]. apply Z.leb_le in H0. apply Z.ltb_lt in H1.
      assert (Hd : 0 <= b / 16 < 16)
        by (split; [apply Z.div_pos; lia | apply Z.div_lt_upper_bound; lia]).
      assert (Hm : 0 <= b mod 16 < 16) by (apply Z.mod_pos_bound; lia).
      destruct (hexChar_spec u _ Hd) as [Hd1 Hd2]. destruct (hexChar_spec u _ Hm) as [Hm1 Hm2].
      cbn [pctEncode pctPlain]. rewrite percentsOk_esc, percentDecode_esc by done.
      rewrite Hd2, Hm2, nibbles by lia. by rewrite IH1, IH2. }
  destruct H as [-> ->]. done.
Qed.

(** The text of the test of RFC 2231: UTF-8 bytes escaped in lower case
    between letters. *)
Lemma percentHexUnescape_encode_witness :
  let l := [Lit "f"; Esc false 195; Esc true 164; Lit "."] in
  forallb pieceOK l = true
  /\ pctEncode l = "f%c3%A4."
  /\ percentHexUnescape "f%c3%A4." = (pctPlain l, None).
Proof.
  split; [reflexivity|]. split; [reflexivity|].
  exact (percentHexUnescape_encode [Lit "f"; Esc false 195; Esc true 164; Lit "."] eq_refl).
Defined.

(** A [%] that is the last byte or the last but one is an error, whatever
    comes before it. *)
Lemma percentsOk_tail (a : string) (t : string) : forall (skip : nat),
  (String.length t <= 1)%nat -> (skip <= String.length a)%nat ->
  percentsOk (a +:+ String "%" t) skip = false.
Proof.
  induction a as [|c a IH]; intros skip Ht Hs.
  - cbn in Hs. assert (skip = 0%nat) as -> by lia. sapp. cbn [percentsOk Ascii.eqb Bool.eqb].
    destruct t as [|h [|l t]]; [done|done|]. cbn in Ht. lia.
  - sapp. cbn [percentsOk]. destruct skip as [|k].
    + destruct (Ascii.eqb c "%").
      * destruct a as [|h [|l a]].
        -- sapp. destruct t as [|x [|y t]]; [done| |cbn in Ht; lia].
           destruct (ishex (byte_of_ascii "%") && _) eqn:E; [|done]. by vm_compute in E.
        -- sapp. destruct (ishex (byte_of_ascii h) && ishex (byte_of_ascii "%")) eqn:E; [|done].
           rewrite andb_comm in E. by vm_compute in E.
        -- sapp. destruct (_ && _); [|done].
           replace (String h (String l (a +:+ String "%" t)))
             with ((String h (String l a)) +:+ String "%" t) by (by sapp).
           apply IH; [done | cbn; lia].
      * apply IH; [done | lia].
    + apply IH; [done | cbn in Hs; lia].
Qed.

(** X11: [percentHexUnescape] gives the empty string and the error "bogus
    characters after %" when a [%] is the last byte or the last but one,
    whatever comes before it: nothing of the text is kept. *)
Theorem percentHexUnescape_truncated (a t : string) (Ht : (String.length t <= 1)%nat) :
  percentHexUnescape (a +:+ String "%" t) = ("", Some tt).
Proof.
  unfold percentHexUnescape. rewrite percentsOk_tail; [done | done | lia].
Qed.

(** The theorem on a text cut in its last escape. *)
Lemma percentHexUnescape_truncated_witness :
  (String.length "4" <= 1)%nat /\ percentHexUnescape "a%20b%4" = ("", Some tt).
Proof.
  split; [cbn; lia|]. exact (percentHexUnescape_truncated "a%20b" "4" ltac:(cbn; lia)).
Defined.

Lemma tail_of_refl (v : string) : tail_of v v.
Proof. by exists "". Qed.

Lemma tail_of_trans (a b c : string) : tail_of a b -> tail_of b c -> tail_of a c.
Proof. intros [p ->] [q ->]. exists (q +:+ p). by rewrite str_app_assoc. Qed.

Lemma shorter_tail (a b c : string) : shorter a b -> tail_of b c -> shorter a c.
Proof.
  intros (p & Hp & ->) [q ->]. exists (q +:+ p). split; [|by rewrite str_app_assoc].
  destruct q; [by sapp | by sapp].
Qed.

Lemma tail_shorter (a b c : string) : tail_of a b -> shorter b c -> shorter a c.
Proof.
  intros [p ->] (q & Hq & ->). exists (q +:+ p). split; [|by rewrite str_app_assoc].
  destruct q; [done | by sapp].
Qed.

Lemma shorter_length (rest v : string) :
  shorter rest v -> (String.length rest < String.length v)%nat.
Proof.
  intros (p & Hp & ->). rewrite str_length_app. destruct p; [done | cbn; lia].
Qed.

Lemma unrunes_app (l m : list (Z * string)) : unrunes (l ++ m) = unrunes l +:+ unrunes m.
Proof.
  induction l as [|x l IH]; [by sapp|]. cbn [app unrunes foldr].
  fold (unrunes (l ++ m)). fold (unrunes l). by rewrite IH, str_app_assoc.
Qed.

Lemma dropSpaces_tail (l : list (Z * string)) : exists k, l = k ++ dropSpaces l.
Proof.
  induction l as [|x l [k IH]]; [by exists []|]. cbn [dropSpaces].
  destruct (IsSpace (fst x)); [|by exists []]. exists (x :: k). cbn. by rewrite <- IH.
Qed.

Lemma TrimLeftSpace_tail (s : string) : tail_of (TrimLeftSpace s) s.
Proof.
  unfold TrimLeftSpace. destruct (dropSpaces_tail (runes s)) as [k Hk].
  exists (unrunes k). rewrite <- unrunes_app, <- Hk. by rewrite unrunes_runes.
Qed.

Lemma from_1_shorter (c : ascii) (s : string) : shorter (from 1 (String c s)) (String c s).
Proof. exists (String c ""). rewrite from_1_cons. split; [done | by sapp]. Qed.

Lemma consumeToken_tail (v t r : string) : consumeToken v = (t, r) -> tail_of r v.
Proof. intros H. destruct (consumeToken_split _ _ _ H) as (-> & _). by exists t. Qed.

Lemma from_tail (n : nat) (s : string) : (n <= String.length s)%nat -> tail_of (from n s) s.
Proof. intros H. exists (substring 0 n s). by rewrite substring_from. Qed.

Lemma length_substr (s : string) : forall (n m : nat),
  String.length (substring n m s) = Nat.min m (String.length s - n).
Proof.
  induction s as [|c s IH]; intros n m.
  - destruct n, m; done.
  - destruct n as [|n].
    + destruct m as [|m]; [done|]. cbn [substring String.length Nat.sub Nat.min].
      rewrite IH. by rewrite Nat.sub_0_r.
    + cbn [substring String.length Nat.sub]. apply IH.
Qed.

Lemma length_from (n : nat) (s : string) :
  String.length (from n s) = (String.length s - n)%nat.
Proof. unfold from. rewrite length_substr. lia. Qed.

Lemma from_from (s : string) : forall (i n : nat), from n (from i s) = from (i + n) s.
Proof.
  induction s as [|c s IH]; intros i n.
  - destruct i, n; done.
  - destruct i as [|i].
    + by rewrite from_0.
    + rewrite from_S. cbn [Nat.add]. rewrite from_S. apply IH.
Qed.

Lemma runes_from_nonempty (s : string) : forall (skip : nat),
  Forall (fun x => snd x <> "") (runes_from s skip).
Proof.
  induction s as [|c s IH]; intros skip; cbn [runes_from]; [constructor|].
  destruct skip as [|k]; [|apply IH].
  pose proof (decode_width c s) as Hw.
  destruct (DecodeRuneInString (String c s)) as [r w]. cbn [snd] in Hw.
  constructor; [|apply IH]. cbn [snd]. destruct w as [|w]; [lia|]. done.
Qed.

(** The loop over a quoted string gives up with [("", v)] or stops after a
    closing quote inside [rest]. *)
Lemma consumeQuoted_tail (v rest : string) (rs : list (Z * string)) :
  forall (idx : nat) (buffer : string) (lit : bool) val r',
  Forall (fun x => snd x <> "") rs -> unrunes rs = from idx rest ->
  consumeQuoted v rest rs idx buffer lit = (val, r') ->
  (val = "" /\ r' = v) \/ shorter r' rest.
Proof.
  induction rs as [|[r bytes] rs IH]; intros idx buffer lit val r' Hne Hu H.
  - cbn in H. injection H as <- <-. by left.
  - apply Forall_cons in Hne as [Hb Hne]. cbn [snd] in Hb.
    cbn [unrunes foldr snd] in Hu. fold (unrunes rs) in Hu.
    assert (Hlen : (idx < String.length rest)%nat).
    { apply (f_equal String.length) in Hu. rewrite str_length_app, length_from in Hu.
      destruct bytes; [done|]. cbn in Hu. lia. }
    assert (Hu' : unrunes rs = from (idx + String.length bytes) rest).
    { rewrite <- from_from, <- Hu. by rewrite from_app. }
    cbn [consumeQuoted] in H. destruct lit.
    + by apply IH in H.
    + destruct (r =? 34).
      * injection H as <- <-. right.
        destruct (from_tail (idx + 1) rest ltac:(lia)) as [pre Hpre].
        exists pre. split; [|done]. intros ->. rewrite str_app_nil_l in Hpre.
        apply (f_equal String.length) in Hpre. rewrite length_from in Hpre. lia.
      * destruct (r =? 92); [by apply IH in H|].
        destruct (negb (r =? 13) && negb (r =? 10)); [by apply IH in H|].
        injection H as <- <-. by left.
Qed.

Lemma consumeValue_tail (v val r' : string) :
  consumeValue v = (val, r') -> (val = "" /\ r' = v) \/ (val <> "" /\ tail_of r' v) \/ shorter r' v.
Proof.
  unfold consumeValue. destruct v as [|c v]; [intros [= <- <-]; by left|].
  destruct (Ascii.eqb c dquote) eqn:Ec; cbn [negb].
  - rewrite from_1_cons. intros H. apply consumeQuoted_tail in H.
    + destruct H as [H|H]; [by left|]. right; right.
      eapply shorter_tail; [done|]. by exists (String c "").
    + apply runes_from_nonempty.
    + by rewrite unrunes_runes, from_0.
  - intros H. destruct (consumeToken_split _ _ _ H) as (Hv & _ & _).
    destruct val as [|x val].
    + left. rewrite str_app_nil_l in Hv. done.
    + right; left. split; [done|]. by exists (String x val).
Qed.

Lemma consumeMediaParam_cases (v : string) :
  let '(param, value, rest) := consumeMediaParam v in
  (param = "" /\ value = "" /\ rest = v)
  \/ (param <> "" /\ value <> "" /\ ToLower param = param /\ tokens param
      /\ shorter rest v).
Proof.
  unfold consumeMediaParam.
  pose proof (TrimLeftSpace_tail v) as T0.
  destruct (HasPrefix (TrimLeftSpace v) ";") eqn:Hp; cbn [negb]; [|by left].
  apply HasPrefix_1 in Hp as [r0 Hr0]. rewrite Hr0 in *. rewrite from_1_cons.
  pose proof (TrimLeftSpace_tail r0) as T1.
  destruct (consumeToken (TrimLeftSpace r0)) as [param r1] eqn:E1.
  destruct (consumeToken_split _ _ _ E1) as (_ & Htok & _).
  pose proof (consumeToken_tail _ _ _ E1) as T2.
  destruct (String.eqb_spec (ToLower param) "") as [|Hparam]; [by left|].
  pose proof (TrimLeftSpace_tail r1) as T3.
  destruct (HasPrefix (TrimLeftSpace r1) "=") eqn:Hq; cbn [negb]; [|by left].
  apply HasPrefix_1 in Hq as [r2 Hr2]. rewrite Hr2 in *. rewrite from_1_cons.
  pose proof (TrimLeftSpace_tail r2) as T4.
  destruct (consumeValue (TrimLeftSpace r2)) as [value r3] eqn:E2.
  destruct (String.eqb_spec value "") as [|Hval]; [by left|].
  right. split; [done|]. split; [done|]. split; [apply ToLower_idem|].
  split; [by apply tokens_ToLower|].
  assert (T5 : tail_of r3 (TrimLeftSpace r2)).
  { apply consumeValue_tail in E2 as [[? _]|[[_ ?]|H]]; [done|done|].
    destruct H as (pre & _ & ->). by exists pre. }
  assert (S0 : shorter r0 v).
  { eapply shorter_tail; [|apply T0]. exists ";". split; [done | by sapp]. }
  eapply tail_shorter; [|apply S0].
  eapply tail_of_trans; [|apply T1]. eapply tail_of_trans; [|apply T2].
  eapply tail_of_trans; [|apply T3]. eapply tail_of_trans; [|by exists "="].
  eapply tail_of_trans; [|apply T4]. done.
Qed.

(** X4: [consumeMediaParam] gives no parameter and the string it was given,
    or a name made of token characters in lower case, a value that is not
    empty, and a rest that is an end of [v] and shorter than [v]: the loop of
    [ParseMediaType] over the parameters comes to an end. *)
Theorem consumeMediaParam_progress (v : string) :
  let '(param, value, rest) := consumeMediaParam v in
  (param = "" /\ value = "" /\ rest = v)
  \/ (param <> "" /\ value <> "" /\ ToLower param = param /\ tokens param
      /\ tail_of rest v /\ (String.length rest < String.length v)%nat).
Proof.
  pose proof (consumeMediaParam_cases v) as H.
  destruct (consumeMediaParam v) as [[param value] rest].
  destruct H as [H|(H1 & H2 & H3 & H4 & H5)]; [by left|]. right.
  split_and!; try done.
  - destruct H5 as (pre & _ & ->). by exists pre.
  - by apply shorter_length.
Qed.

Lemma length_TrimLeftSpace (v : string) :
  (String.length (TrimLeftSpace v) <= String.length v)%nat.
Proof.
  destruct (TrimLeftSpace_tail v) as [pre H]. rewrite H at 2. rewrite str_length_app. lia.
Qed.

(** More turns than the string has bytes change nothing. *)
Lemma paramLoop_fuel (f1 : nat) : forall (f2 : nat) (mt v : string) (s : pstate),
  (String.length v <= f1)%nat -> (String.length v <= f2)%nat ->
  paramLoop f1 mt v s = paramLoop f2 mt v s.
Proof.
  induction f1 as [|f1 IH]; intros f2 mt v s H1 H2.
  - assert (String.length v = 0%nat) as Hv by lia. destruct f2; [done|].
    cbn [paramLoop]. by rewrite Hv.
  - destruct f2 as [|f2].
    + assert (String.length v = 0%nat) as Hv by lia. cbn [paramLoop]. by rewrite Hv.
    + cbn [paramLoop]. destruct (String.length v =? 0)%nat; [done|].
      destruct (String.length (TrimLeftSpace v) =? 0)%nat; [done|].
      pose proof (consumeMediaParam_cases (TrimLeftSpace v)) as Hc.
      pose proof (length_TrimLeftSpace v) as Ht.
      destruct (consumeMediaParam (TrimLeftSpace v)) as [[key value] rest].
      destruct (String.eqb_spec key "") as [|Hk]; [done|].
      destruct Hc as [(? & _)|(_ & _ & _ & _ & Hs)]; [done|].
      apply shorter_length in Hs. apply IH; lia.
Qed.

Lemma lowerKeyed_empty {A : Type} : lowerKeyed (∅ : gmap string A).
Proof. intros k [x Hx]. by rewrite lookup_empty in Hx. Qed.

Lemma lowerKeyed_insert {A : Type} (m : gmap string A) (k : string) (x : A) :
  ToLower k = k -> tokens k -> lowerKeyed m -> lowerKeyed (<[k := x]> m).
Proof.
  intros H1 H2 Hm k' Hk'. destruct (decide (k = k')) as [<-|Hne]; [done|].
  rewrite lookup_insert_ne in Hk' by done. by apply Hm.
Qed.

Lemma ToLower_upto (s : string) : forall (n : nat), ToLower (upto n s) = upto n (ToLower s).
Proof.
  unfold upto. induction s as [|c s IH]; intros n; [by destruct n|].
  destruct n as [|n]; [done|]. cbn [substring ToLower]. by rewrite IH.
Qed.

Lemma tokens_upto (s : string) : forall (n : nat), tokens s -> tokens (upto n s).
Proof.
  unfold upto. induction s as [|c s IH]; intros n Hs; [by destruct n|].
  destruct n as [|n]; [apply tokens_nil|]. cbn [substring].
  apply tokens_cons in Hs as [H1 H2]. apply tokens_cons. auto.
Qed.

Lemma paramLoop_ok (fuel : nat) : forall (mt v : string) (s : pstate),
  mt <> "" -> pstate_ok s ->
  match paramLoop fuel mt v s with
  | inl (m, ps, e) =>
      m = mt /\ (exists p, ps = Some p /\ lowerKeyed p) /\ IsOkPMTError e = None
  | inr s' => pstate_ok s'
  end.
Proof.
  induction fuel as [|fuel IH]; intros mt v s Hmt Hs; [done|].
  cbn [paramLoop]. destruct (String.length v =? 0)%nat; [done|].
  destruct (String.length (TrimLeftSpace v) =? 0)%nat; [done|].
  pose proof (consumeMediaParam_cases (TrimLeftSpace v)) as Hc.
  destruct (consumeMediaParam (TrimLeftSpace v)) as [[key value] rest].
  destruct Hs as (Hb & Hp & Hk).
  destruct (String.eqb_spec key "") as [->|Hkey].
  - destruct (String.eqb (TrimSpace rest) ";").
    + split; [done|]. split; [by exists (params s)|]. unfold gerr_of.
      destruct (gerr_set s); [|done]. cbn. by rewrite Hb.
    + rewrite (eqb_nil_false _ Hmt). cbn [negb]. split; [done|].
      split; [by exists (params s)|]. cbn. by rewrite Hb.
  - destruct Hc as [(? & _)|(_ & _ & Hlow & Htok & _)]; [done|].
    apply IH; [done|]. destruct (Index key "*") as [idx|].
    + destruct (default ∅ (continuation s !! upto idx key) !! key).
      * done.
      * split; [done|]. split; [done|]. cbn [continuation].
        apply lowerKeyed_insert; [|by apply tokens_upto|done].
        by rewrite ToLower_upto, Hlow.
    + destruct (params s !! key).
      * done.
      * split; [done|]. split; [|done]. cbn [params]. by apply lowerKeyed_insert.
Qed.

Lemma stitch_lowerKeyed (key : string) (pieceMap params : gmap string string) :
  ToLower key = key -> tokens key -> lowerKeyed params ->
  lowerKeyed (stitch key pieceMap params).
Proof.
  intros H1 H2 Hp. unfold stitch. destruct (pieceMap !! (key +:+ "*")).
  - by apply lowerKeyed_insert.
  - destruct (pieces _ _ _ _ _ _) as [buf valid]. destruct valid; [|done].
    by apply lowerKeyed_insert.
Qed.

Lemma map_fold_stitch_lowerKeyed (c : gmap string (gmap string string))
    (params : gmap string string) :
  lowerKeyed c -> lowerKeyed params -> lowerKeyed (map_fold stitch params c).
Proof.
  intros Hc Hp. revert Hc.
  apply (map_fold_weak_ind (fun r m => lowerKeyed m -> lowerKeyed r)); [done|].
  intros i x m r Hi IH Hm.
  destruct (Hm i) as [H1 H2]; [by rewrite lookup_insert_eq|].
  apply stitch_lowerKeyed; [done|done|]. apply IH. intros k Hk. apply Hm.
  rewrite lookup_insert_ne; [done|]. intros <-. rewrite Hi in Hk. by destruct Hk.
Qed.

(** What [ParseMediaType] gives for an input that is not empty. *)
Lemma ParseMediaType_shape (v : string) :
  v <> "" ->
  exists m ps e,
    ParseMediaType v = (m, Some ps, e) /\ m <> "" /\ IsOkPMTError e = None
    /\ lowerKeyed ps.
Proof.
  intros Hv. unfold ParseMediaType.
  set (i := default (String.length v) (Index v ";")).
  pose proof (lossyCheck_cases (mkPMTErr [] false) (TrimSpace (ToLower (upto i v))) v Hv) as Hl.
  destruct (lossyCheckMediaTypeDisposition _ _ v) as [[p mt] err].
  destruct Hl as (_ & Hmt & Hbad & _). cbn [bad] in Hbad. rewrite Hbad, andb_false_r.
  pose proof (paramLoop_ok (String.length (from i v)) mt (from i v)
                (mkP ∅ ∅ p (bool_decide (err <> None))) Hmt) as Hp.
  destruct (paramLoop _ _ _ _) as [[[m ps] e]|s].
  - destruct Hp as (-> & (q & -> & Hq) & He).
    { split; [done|]. split; apply lowerKeyed_empty. }
    by exists mt, q, e.
  - destruct Hp as (Hb & Hps & Hc).
    { split; [done|]. split; apply lowerKeyed_empty. }
    eexists mt, _, _. split; [done|]. split; [done|]. split.
    + unfold gerr_of. destruct (gerr_set s); [|done]. cbn. by rewrite Hb.
    + by apply map_fold_stitch_lowerKeyed.
Qed.

(** X5: [ParseMediaType] gives an error that cannot be ignored for the empty
    input only, and then no media type and no map.  For any other input it
    gives a media type that is not empty and a map, with no error or with a
    [*PMTErr] that [IsOkPMTError] turns into nil. *)
Theorem ParseMediaType_bad_only_empty (v : string) :
  (v = "" /\ ParseMediaType v = ("", None, Some (Plain mimeNoMediaType))
   /\ IsOkPMTError (Some (Plain mimeNoMediaType)) <> None)
  \/ (v <> "" /\ exists m ps e,
        ParseMediaType v = (m, Some ps, e) /\ m <> "" /\ IsOkPMTError e = None).
Proof.
  destruct (String.eqb_spec v "") as [->|Hv].
  - left. split; [done|]. split; [by vm_compute | done].
  - right. split; [done|].
    destruct (ParseMediaType_shape v Hv) as (m & ps & e & H1 & H2 & H3 & _).
    by exists m, ps, e.
Qed.

(** X6: the keys of the map that [ParseMediaType] gives are in lower case and
    made of token characters only. *)
Theorem ParseMediaType_keys_lower (v m : string) (ps : gmap string string)
    (e : option goerror) (k : string)
    (Hparse : ParseMediaType v = (m, Some ps, e)) (Hk : is_Some (ps !! k)) :
  ToLower k = k /\ tokens k.
Proof.
  destruct (String.eqb_spec v "") as [->|Hv]; [by vm_compute in Hparse|].
  destruct (ParseMediaType_shape v Hv) as (m' & ps' & e' & H1 & _ & _ & H4).
  rewrite H1 in Hparse. injection Hparse as <- <- <-. by apply H4.
Qed.

(** The theorem on a name given in upper case and a section of RFC 2231. *)
Lemma ParseMediaType_keys_lower_witness :
  ParseMediaType "Text/HTML; CharSet=UTF-8; Name*0=a"
  = ("text/html", Some {[ "charset" := "UTF-8"; "name" := "a" ]}, None)
  /\ is_Some (({[ "charset" := "UTF-8"; "name" := "a" ]} : gmap string string) !! "charset")
  /\ ToLower "charset" = "charset".
Proof.
  assert (H1 : ParseMediaType "Text/HTML; CharSet=UTF-8; Name*0=a"
               = ("text/html", Some {[ "charset" := "UTF-8"; "name" := "a" ]}, None))
    by (vm_compute; reflexivity).
  assert (H2 : is_Some (({[ "charset" := "UTF-8"; "name" := "a" ]} : gmap string string)
                          !! "charset")) by (eexists; vm_compute; reflexivity).
  split; [exact H1|]. split; [exact H2|].
  exact (proj1 (ParseMediaType_keys_lower _ _ _ _ "charset" H1 H2)).
Defined.

Lemma stitch_comm (k1 k2 : string) (m1 m2 ps : gmap string string) :
  k1 <> k2 -> stitch k1 m1 (stitch k2 m2 ps) = stitch k2 m2 (stitch k1 m1 ps).
Proof.
  intros Hne. unfold stitch.
  destruct (m1 !! (k1 +:+ "*")), (m2 !! (k2 +:+ "*")).
  - by apply insert_insert_ne.
  - destruct (pieces _ k2 _ _ _ _) as [b2 v2]. destruct v2; [|done]. by apply insert_insert_ne.
  - destruct (pieces _ k1 _ _ _ _) as [b1 v1]. destruct v1; [|done]. by apply insert_insert_ne.
  - destruct (pieces _ k1 _ _ _ _) as [b1 v1], (pieces _ k2 _ _ _ _) as [b2 v2].
    destruct v1, v2; try done. by apply insert_insert_ne.
Qed.

(** X7: the map that [ParseMediaType] gives does not depend on the order in
    which Go walks the map of the continuations: stitching them in any
    order gives the same parameters. *)
Theorem stitch_any_order (c : gmap string (gmap string string)) (ps : gmap string string)
    (l : list (string * gmap string string)) (Hl : l ≡ₚ map_to_list c) :
  foldr (uncurry stitch) ps l = map_fold stitch ps c.
Proof.
  rewrite map_fold_foldr.
  apply (foldr_permutation eq (uncurry stitch) ps l (map_to_list c)); [|done].
  intros j1 [k1 m1] j2 [k2 m2] b Hj H1 H2. cbn [uncurry]. apply stitch_comm.
  intros <-. apply Hj.
  assert (Hnd : NoDup (l.*1)) by (rewrite Hl; apply NoDup_fst_map_to_list).
  apply (NoDup_lookup _ j1 j2 k1 Hnd); rewrite list_lookup_fmap; [by rewrite H1 | by rewrite H2].
Qed.

(** The theorem on two names, walked in the two orders. *)
Lemma stitch_any_order_witness :
  let c : gmap string (gmap string string) :=
    {[ "a" := {[ "a*" := "utf-8''x" ]}; "b" := {[ "b*0" := "y" ]} ]} in
  [("b", {[ "b*0" := "y" ]}); ("a", {[ "a*" := "utf-8''x" ]})] ≡ₚ map_to_list c
  /\ foldr (uncurry stitch) ∅
       [("b", {[ "b*0" := "y" ]}); ("a", {[ "a*" := "utf-8''x" ]})]
     = map_fold stitch ∅ c.
Proof.
  cbv zeta.
  assert (H : [("b", ({[ "b*0" := "y" ]} : gmap string string));
               ("a", {[ "a*" := "utf-8''x" ]})]
              ≡ₚ map_to_list ({[ "a" := {[ "a*" := "utf-8''x" ]}; "b" := {[ "b*0" := "y" ]} ]}
                               : gmap string (gmap string string))).
  { rewrite map_to_list_insert by done. rewrite map_to_list_singleton. apply Permutation_swap. }
  split; [exact H|]. exact (stitch_any_order _ ∅ _ H).
Defined.

Lemma quoteLoop_cases (value : string) (rs : list (Z * string)) :
  forall (index offset : nat) (b : string),
  match quoteLoop value rs index offset b with
  | None => forallb (fun x => Z.land (fst x) 128 =? 0) rs = false
  | Some (b', _) =>
      forallb (fun x => Z.land (fst x) 128 =? 0) rs = true /\ exists x, b' = b +:+ x
  end.
Proof.
  induction rs as [|[ch bytes] rs IH]; intros index offset b.
  - cbn. split; [done|]. exists "". by rewrite str_app_nil_r.
  - cbn [quoteLoop forallb fst].
    destruct ((ch =? 34) || (ch =? 92)).
    + destruct (Z.land ch 128 =? 0); cbn [negb andb]; [|done].
      specialize (IH (index + String.length bytes)%nat index
                     (b +:+ substring offset (index - offset) value +:+ "\")).
      destruct (quoteLoop _ _ _ _ _) as [[b' o']|]; [|done].
      destruct IH as [H [x ->]]. split; [done|]. eexists. by rewrite !str_app_assoc.
    + destruct (Z.land ch 128 =? 0); cbn [negb andb]; [|done]. apply IH.
Qed.

Lemma formatAttrs_cases (attrs : list string) (param : gmap string string) :
  forall (b : string), b <> "" ->
  (formatAttrs attrs param b <> "" <-> forallb (attrOK param) attrs = true).
Proof.
  assert (Hne : forall a x : string, a <> "" -> a +:+ x <> "").
  { intros a x Ha. destruct a; [done | by sapp]. }
  induction attrs as [|k attrs IH]; intros b Hb; [done|].
  cbn [formatAttrs forallb]. unfold attrOK at 1.
  destruct (isToken k); cbn [negb andb].
  2:{ split; [intros H; exfalso; apply H; reflexivity | intros Hf; discriminate Hf]. }
  destruct (isToken (default "" (param !! k))); cbn [orb].
  - apply IH. rewrite <- !str_app_assoc. by repeat apply Hne.
  - pose proof (quoteLoop_cases (default "" (param !! k)) (runes (default "" (param !! k)))
                  0 0 (((b +:+ "; ") +:+ ToLower k +:+ "=") +:+ DQ)) as Hq.
    unfold runesOK. destruct (quoteLoop _ _ _ _ _) as [[b' o']|].
    + destruct Hq as [-> [x ->]]. apply IH. rewrite <- !str_app_assoc. by repeat apply Hne.
    + rewrite Hq. split; [intros H; exfalso; apply H; reflexivity | intros Hf; discriminate Hf].
Qed.

(** X8: [FormatMediaType] gives the empty string in these cases and no
    other: the media type is no token and no pair of tokens around its
    first slash, or a name of [param] is no token, or a value that is no
    token has a rune with the bit [0x80] set. *)
Theorem FormatMediaType_empty_iff (t : string) (param : gmap string string) :
  FormatMediaType t param <> ""
  <-> headOK t = true
      /\ forall k v, param !! k = Some v ->
           isToken k = true /\ (isToken v = true \/ runesOK v = true).
Proof.
  assert (Hattrs : forallb (attrOK param) (sortStrings (map_to_list param).*1) = true
                   <-> forall k v, param !! k = Some v ->
                         isToken k = true /\ (isToken v = true \/ runesOK v = true)).
  { rewrite forallb_forall. unfold sortStrings. split.
    - intros H k v Hk. specialize (H k). unfold attrOK in H. rewrite Hk in H. cbn in H.
      rewrite andb_true_iff, orb_true_iff in H. apply H.
      apply list_elem_of_In. rewrite merge_sort_Permutation.
      apply list_elem_of_fmap. exists (k, v). split; [done|]. by apply elem_of_map_to_list.
    - intros H k Hin. apply list_elem_of_In in Hin. rewrite merge_sort_Permutation in Hin.
      apply list_elem_of_fmap in Hin as [[k' v] [-> Hkv]]. apply elem_of_map_to_list in Hkv.
      cbn [fst]. unfold attrOK. rewrite Hkv. cbn. rewrite andb_true_iff, orb_true_iff.
      by apply H. }
  assert (Hlow : forall s, isToken s = true -> ToLower s <> "").
  { intros s Hs Hl. apply ToLower_nil_iff in Hl as ->. done. }
  unfold FormatMediaType, headOK. destruct (Index t "/") as [slash|].
  - destruct (isToken (upto slash t)) eqn:E1; cbn [negb orb andb].
    + destruct (isToken (from (slash + 1) t)) eqn:E2; cbn [negb].
      * rewrite formatAttrs_cases, Hattrs; [tauto|].
        specialize (Hlow _ E1). destruct (ToLower (upto slash t)); [done | by sapp].
      * split; [intros H; exfalso; apply H; reflexivity | intros [? _]; done].
    + split; [intros H; exfalso; apply H; reflexivity | intros [? _]; done].
  - destruct (isToken t) eqn:E1; cbn [negb].
    + rewrite formatAttrs_cases, Hattrs; [tauto | by apply Hlow].
    + split; [intros H; exfalso; apply H; reflexivity | intros [? _]; done].
Qed.

Lemma paramLoop_step (fuel : nat) (mt k v rest : string) (st : pstate) :
  isToken k = true -> v <> "" -> plainValue v = true -> follows rest ->
  paramLoop (S fuel) mt (param1 k v +:+ rest) st
  = paramLoop fuel mt rest (record st (ToLower k) v).
Proof.
  intros Hk Hv Hp Hf. unfold param1. rewrite !str_app_assoc.
  set (w := "; " +:+ ToLower k +:+ "=" +:+ renderValue v +:+ rest).
  assert (Hc : consumeMediaParam w = (ToLower k, v, rest))
    by (by apply consumeMediaParam_render).
  assert (Hw : TrimLeftSpace w = w) by (unfold w; sapp; by apply TrimLeftSpace_nonspace).
  assert (Hl : (String.length w =? 0)%nat = false) by (unfold w; by sapp).
  cbn [paramLoop]. rewrite Hl, Hw, Hl, Hc.
  destruct (String.eqb_spec (ToLower k) "") as [E|_].
  { apply (proj1 (ToLower_nil_iff k)) in E. by rewrite E in Hk. }
  done.
Qed.

Lemma paramLoop_semicolon (fuel : nat) (mt : string) (st : pstate) :
  paramLoop (S fuel) mt ";" st = inl (mt, Some (params st), gerr_of st).
Proof. done. Qed.

Lemma paramLoop_end (fuel : nat) (mt : string) (st : pstate) :
  paramLoop fuel mt "" st = inr st.
Proof. by destruct fuel. Qed.

(** [ParseMediaType] on a media type of two tokens followed by parameters. *)
Lemma ParseMediaType_head (ty sub tail : string) (fuel : nat) :
  isToken ty = true -> isToken sub = true -> follows tail -> tail <> "" ->
  (String.length tail <= fuel)%nat ->
  ParseMediaType (ty +:+ "/" +:+ sub +:+ tail)
  = let mt := ToLower ty +:+ "/" +:+ ToLower sub in
    match paramLoop fuel mt tail (mkP ∅ ∅ (mkPMTErr [] false) false) with
    | inl res => res
    | inr s => (mt, Some (map_fold stitch (params s) (continuation s)), gerr_of s)
    end.
Proof.
  intros Hty Hsub Hf Hne Hfuel.
  apply isToken_spec in Hty as [Hty Tty]. apply isToken_spec in Hsub as [Hsub Tsub].
  set (head := ty +:+ "/" +:+ sub).
  assert (Hv : ty +:+ "/" +:+ sub +:+ tail = head +:+ tail)
    by (unfold head; by rewrite !str_app_assoc).
  rewrite Hv.
  assert (Hsemi : Index head ";" = None).
  { unfold head. sapp. apply Index_app_None; [by apply tokens_Index|].
    cbn [Index]. change (Ascii.eqb "/" ";") with false. cbn iota. by rewrite tokens_Index. }
  destruct (head_tail head tail Hsemi Hf) as [Hu Hfr]. cbn zeta in Hu, Hfr.
  unfold ParseMediaType. rewrite Hu, Hfr.
  assert (Hl : ToLower head = ToLower ty +:+ "/" +:+ ToLower sub)
    by (unfold head; by rewrite !ToLower_app).
  rewrite Hl, TrimSpace_nospace.
  2:{ repeat apply nospace_app; try (apply tokens_nospace, tokens_ToLower; done).
      by vm_compute. }
  rewrite lossyCheck_head;
    try (by apply tokens_ToLower); try (by rewrite ToLower_nil_iff).
  2:{ destruct head; [done | by sapp]. }
  replace (bool_decide (@None merror <> None)) with false by done. cbn [andb]. cbv zeta.
  by rewrite (paramLoop_fuel (String.length tail) fuel).
Qed.

Lemma param1_start (k v rest : string) : exists r, param1 k v +:+ rest = String ";" r.
Proof. unfold param1. sapp. by eexists. Qed.

Lemma param1_length (k v rest : string) :
  exists n, String.length (param1 k v +:+ rest) = S (S (n + String.length rest)).
Proof.
  exists (String.length (ToLower k) + 1 + String.length (renderValue v))%nat.
  unfold param1. sapp. cbn [String.length]. rewrite !str_length_app. cbn [String.length]. lia.
Qed.

(** X9: when a name comes twice, [ParseMediaType] keeps the first value and
    gives the error "duplicate parameter name" as one that can be
    ignored. *)
Theorem duplicate_keeps_first (ty sub name v1 v2 : string)
    (Hty : isToken ty = true) (Hsub : isToken sub = true)
    (Hname : isToken name = true) (Hstar : Index name "*" = None)
    (Hv1 : v1 <> "" /\ plainValue v1 = true) (Hv2 : v2 <> "" /\ plainValue v2 = true) :
  ParseMediaType (ty +:+ "/" +:+ sub +:+ param1 name v1 +:+ param1 name v2)
  = (ToLower ty +:+ "/" +:+ ToLower sub, Some {[ ToLower name := v1 ]},
     Some (Merged (mkPMTErr [mimeDuplicateParam] false))).
Proof.
  destruct Hv1 as [Hv1 Hp1], Hv2 as [Hv2 Hp2].
  destruct (param1_start name v2 "") as [r2 Hr2]. rewrite str_app_nil_r in Hr2.
  destruct (param1_start name v1 (param1 name v2)) as [r1 Hr1].
  destruct (param1_length name v1 (param1 name v2)) as [n1 Hn1].
  destruct (param1_length name v2 "") as [n2 Hn2]. rewrite str_app_nil_r in Hn2.
  rewrite (ParseMediaType_head ty sub _ (String.length (param1 name v1 +:+ param1 name v2))
             Hty Hsub); [|right; by exists r1|by rewrite Hr1|done].
  cbv zeta. rewrite Hn1.
  rewrite (paramLoop_step _ _ name v1 (param1 name v2)); [|done|done|done|right; by exists r2].
  rewrite <- (str_app_nil_r (param1 name v2)) at 2.
  rewrite (paramLoop_step _ _ name v2 ""); [|done|done|done|by left].
  rewrite paramLoop_end.
  assert (H1 : record (mkP ∅ ∅ (mkPMTErr [] false) false) (ToLower name) v1
               = mkP {[ ToLower name := v1 ]} ∅ (mkPMTErr [] false) false).
  { unfold record. rewrite Index_ToLower_star, Hstar. cbn [params]. rewrite lookup_empty.
    cbn [params continuation perr gerr_set]. by rewrite insert_empty. }
  rewrite H1.
  assert (H2 : record (mkP {[ ToLower name := v1 ]} ∅ (mkPMTErr [] false) false) (ToLower name) v2
               = mkP {[ ToLower name := v1 ]} ∅ (mkPMTErr [mimeDuplicateParam] false) true).
  { unfold record. rewrite Index_ToLower_star, Hstar. cbn [params].
    by rewrite lookup_singleton_eq. }
  rewrite H2. cbn [params continuation gerr_of gerr_set perr]. by rewrite map_fold_empty.
Qed.

(** The theorem on two values of a charset, the second one quoted. *)
Lemma duplicate_keeps_first_witness :
  isToken "text" = true /\ isToken "html" = true /\ isToken "Charset" = true
  /\ Index "Charset" "*" = None
  /\ ("utf-8" <> "" /\ plainValue "utf-8" = true) /\ ("latin 1" <> "" /\ plainValue "latin 1" = true)
  /\ param1 "Charset" "utf-8" +:+ param1 "Charset" "latin 1"
     = "; charset=utf-8; charset=" +:+ DQ +:+ "latin 1" +:+ DQ
  /\ ParseMediaType ("text" +:+ "/" +:+ "html" +:+ param1 "Charset" "utf-8"
                     +:+ param1 "Charset" "latin 1")
     = (ToLower "text" +:+ "/" +:+ ToLower "html", Some {[ ToLower "Charset" := "utf-8" ]},
        Some (Merged (mkPMTErr [mimeDuplicateParam] false))).
Proof.
  split; [reflexivity|]. split; [reflexivity|]. split; [reflexivity|]. split; [reflexivity|].
  split; [split; [discriminate | reflexivity]|].
  split; [split; [discriminate | reflexivity]|].
  split; [vm_compute; reflexivity|].
  assert (H1 : "utf-8" <> "" /\ plainValue "utf-8" = true)
    by (split; [discriminate | reflexivity]).
  assert (H2 : "latin 1" <> "" /\ plainValue "latin 1" = true)
    by (split; [discriminate | reflexivity]).
  assert (Ht : isToken "text" = true) by reflexivity.
  assert (Hh : isToken "html" = true) by reflexivity.
  assert (Hc : isToken "Charset" = true) by reflexivity.
  assert (Hs : Index "Charset" "*" = None) by reflexivity.
  exact (duplicate_keeps_first "text" "html" "Charset" "utf-8" "latin 1" Ht Hh Hc Hs H1 H2).
Defined.

Lemma isToken_star (name : string) : isToken name = true -> isToken (name +:+ "*") = true.
Proof.
  intros [Hne Ht]%isToken_spec. apply isToken_spec. split; [by destruct name|].
  apply tokens_app; [done|]. apply tokens_cons. split; [by vm_compute | apply tokens_nil].
Qed.

Lemma record_star (st : pstate) (name v : string) :
  Index name "*" = None -> continuation st = ∅ ->
  record st (ToLower (name +:+ "*")) v
  = mkP (params st) {[ ToLower name := {[ ToLower name +:+ "*" := v ]} ]} (perr st) (gerr_set st).
Proof.
  intros Hstar Hc. unfold record. rewrite ToLower_app. cbn [ToLower].
  change (String (lowerByte "*") "") with "*".
  rewrite Index_app by (by rewrite Index_ToLower_star).
  rewrite upto_app, Hc, lookup_empty. cbn [default from_option id]. rewrite lookup_empty.
  by rewrite !insert_empty.
Qed.

(** X10: a semicolon at the end of the input makes [ParseMediaType] return
    from inside its loop, before the sections of RFC 2231 are put
    together: the parameter [name*] that is decoded without it is missing
    from the map with it, and no error tells so. *)
Theorem trailing_semicolon_drops_continuation (ty sub name v : string)
    (Hty : isToken ty = true) (Hsub : isToken sub = true)
    (Hname : isToken name = true) (Hstar : Index name "*" = None)
    (Hv : v <> "" /\ plainValue v = true) :
  let mt := ToLower ty +:+ "/" +:+ ToLower sub in
  ParseMediaType (ty +:+ "/" +:+ sub +:+ param1 (name +:+ "*") v)
  = (mt, Some {[ ToLower name := decode2231Enc v ]}, None)
  /\ ParseMediaType (ty +:+ "/" +:+ sub +:+ param1 (name +:+ "*") v +:+ ";")
     = (mt, Some ∅, None).
Proof.
  destruct Hv as [Hv Hp]. cbv zeta. pose proof (isToken_star name Hname) as Hk.
  split.
  - destruct (param1_start (name +:+ "*") v "") as [r1 Hr1]. rewrite str_app_nil_r in Hr1.
    destruct (param1_length (name +:+ "*") v "") as [n1 Hn1]. rewrite str_app_nil_r in Hn1.
    rewrite (ParseMediaType_head ty sub _ (String.length (param1 (name +:+ "*") v)) Hty Hsub);
      [|right; by exists r1|by rewrite Hr1|done].
    cbv zeta. rewrite Hn1. rewrite <- (str_app_nil_r (param1 (name +:+ "*") v)) at 1.
    rewrite (paramLoop_step _ _ (name +:+ "*") v ""); [|done|done|done|by left].
    rewrite paramLoop_end, record_star by done.
    cbn [params continuation gerr_of gerr_set perr]. rewrite map_fold_singleton.
    unfold stitch. rewrite lookup_singleton_eq. by rewrite insert_empty.
  - destruct (param1_start (name +:+ "*") v ";") as [r1 Hr1].
    destruct (param1_length (name +:+ "*") v ";") as [n1 Hn1].
    rewrite (ParseMediaType_head ty sub _ (String.length (param1 (name +:+ "*") v +:+ ";"))
               Hty Hsub); [|right; by exists r1|by rewrite Hr1|done].
    cbv zeta. rewrite Hn1.
    rewrite (paramLoop_step _ _ (name +:+ "*") v ";"); [|done|done|done|right; by exists ""].
    cbn [String.length]. rewrite Nat.add_1_r, paramLoop_semicolon, record_star by done.
    done.
Qed.

(** The theorem on the file name of an attachment. *)
Lemma trailing_semicolon_drops_continuation_witness :
  isToken "attachment" = true /\ isToken "x" = true /\ isToken "filename" = true
  /\ Index "filename" "*" = None /\ ("utf-8''a%20b" <> "" /\ plainValue "utf-8''a%20b" = true)
  /\ param1 ("filename" +:+ "*") "utf-8''a%20b" = "; filename*=utf-8''a%20b"
  /\ decode2231Enc "utf-8''a%20b" = "a b"
  /\ ParseMediaType ("attachment" +:+ "/" +:+ "x" +:+ param1 ("filename" +:+ "*") "utf-8''a%20b")
     = (ToLower "attachment" +:+ "/" +:+ ToLower "x",
        Some {[ ToLower "filename" := decode2231Enc "utf-8''a%20b" ]}, None)
  /\ ParseMediaType ("attachment" +:+ "/" +:+ "x" +:+ param1 ("filename" +:+ "*") "utf-8''a%20b"
                     +:+ ";")
     = (ToLower "attachment" +:+ "/" +:+ ToLower "x", Some ∅, None).
Proof.
  split; [reflexivity|]. split; [reflexivity|]. split; [reflexivity|]. split; [reflexivity|].
  split; [split; [discriminate | reflexivity]|].
  split; [vm_compute; reflexivity|]. split; [vm_compute; reflexivity|].
  assert (H1 : "utf-8''a%20b" <> "" /\ plainValue "utf-8''a%20b" = true)
    by (split; [discriminate | reflexivity]).
  assert (Ht : isToken "attachment" = true) by reflexivity.
  assert (Hh : isToken "x" = true) by reflexivity.
  assert (Hc : isToken "filename" = true) by reflexivity.
  assert (Hs : Index "filename" "*" = None) by reflexivity.
  exact (trailing_semicolon_drops_continuation "attachment" "x" "filename" "utf-8''a%20b"
           Ht Hh Hc Hs H1).
Defined.

End MimeFacts.
